(** * Benzene Hex solver core: inferior cell engine, board history, DFS solver

    A shallow embedding of [ICEngine.cpp] (the inferior cell engine), of the
    board history documented in [HexBoard.hpp] and of the solver interface
    of [DfsSolver.hpp], with the properties the design document states
    about them. *)

From stdpp Require Import base tactics option list sorting gmap sets fin_sets.
From Stdlib Require Import NArith ZArith Lia.

#[local] Set Warnings "-clear-no-such-hyp,-register-all".
Local Open Scope nat_scope.

(** ** Points, colours and bitsets *)

(** [HexPoint]: a dense integer index naming an interior cell or an edge. *)
Abbreviation HexPoint := nat (only parsing).

(** [bitset_t]: a set of points. *)
Abbreviation bitset_t := (gset nat) (only parsing).

Definition INVALID_POINT : HexPoint := 0.

(** [HexColor]: the engine names [BLACK], [WHITE] and [EMPTY]. *)
Inductive HexColor := BLACK | WHITE | EMPTY.

#[global] Instance HexColor_eq_dec : EqDecision HexColor.
Proof. solve_decision. Defined.

(** [operator!] on colours: the opponent. *)
Definition opp (c : HexColor) : HexColor :=
  match c with BLACK => WHITE | WHITE => BLACK | EMPTY => EMPTY end.

Definition isBlackWhite (c : HexColor) : bool :=
  match c with EMPTY => false | _ => true end.

Inductive HexColorSet :=
  | BLACK_ONLY | WHITE_ONLY | EMPTY_ONLY
  | NOT_BLACK | NOT_WHITE | NOT_EMPTY | ALL_COLORS.

Module HexColorSetUtil.
Definition InSet (c : HexColor) (cs : HexColorSet) : bool :=
  match cs, c with
  | BLACK_ONLY, BLACK | WHITE_ONLY, WHITE | EMPTY_ONLY, EMPTY => true
  | NOT_BLACK, (WHITE | EMPTY) => true
  | NOT_WHITE, (BLACK | EMPTY) => true
  | NOT_EMPTY, (BLACK | WHITE) => true
  | ALL_COLORS, _ => true
  | _, _ => false
  end.

Definition Only (c : HexColor) : HexColorSet :=
  match c with BLACK => BLACK_ONLY | WHITE => WHITE_ONLY | EMPTY => EMPTY_ONLY end.
End HexColorSetUtil.

(** [BitsetIterator]: the members of a bitset in increasing point order. *)
Definition BitsetIterator (s : bitset_t) : list HexPoint :=
  merge_sort Nat.le (elements s).

(** [BitsetUtil::FindSetBit] and [*set.begin()]: the least member. *)
Definition FindSetBit (s : bitset_t) : HexPoint :=
  hd INVALID_POINT (BitsetIterator s).

Definition any (s : bitset_t) : bool := bool_decide (s ≠ ∅).
Definition none (s : bitset_t) : bool := bool_decide (s = ∅).
Definition test (s : bitset_t) (p : HexPoint) : bool := bool_decide (p ∈ s).
Definition of_list (l : list HexPoint) : bitset_t := list_to_set l.

(** ** The stone board *)

(** The constant part of a board: its geometry, the reachability search of
    [BoardUtils], the Zobrist table, and the colour [DEAD_COLOR] with which
    dead cells are filled in.  These are declared outside the engine, which
    only uses them. *)
Class ConstBoard := {
  Width : nat;
  Height : nat;
  GetCells : bitset_t;
  GetLocations : bitset_t;
  Nbs : HexPoint → list HexPoint;
  Adjacent : HexPoint → HexPoint → bool;
  colorEdge1 : HexColor → HexPoint;
  colorEdge2 : HexColor → HexPoint;
  ReachableOnBitset : bitset_t → bitset_t → HexPoint → bitset_t;
  zobrist : HexColor → HexPoint → N;
  base_hash : N;
  DEAD_COLOR : HexColor;
}.

Module HexPointUtil.
Section Edges.
Context `{ConstBoard}.
Definition isColorEdge (p : HexPoint) (c : HexColor) : bool :=
  bool_decide (p = colorEdge1 c) || bool_decide (p = colorEdge2 c).
Definition isEdge (p : HexPoint) : bool :=
  isColorEdge p BLACK || isColorEdge p WHITE.
End Edges.
End HexPointUtil.

(** Modelled from the spec: class [StoneBoard] is declared outside the files
    at hand.  It holds the stones of each colour, the set of played stones
    and a Zobrist hash over the played stones; the empty cells are derived.
    Fill-in added with [addColor] is not a played stone and leaves the hash
    alone; [playMove] updates the hash. *)
Record StoneBoard := mkStoneBoard {
  m_black : bitset_t;
  m_white : bitset_t;
  m_played : bitset_t;
  m_hash : N;
}.

#[global] Instance StoneBoard_eq_dec : EqDecision StoneBoard.
Proof. solve_decision. Defined.

Section StoneBoardOps.
Context `{ConstBoard}.

Definition getBlack (b : StoneBoard) : bitset_t := m_black b.
Definition getWhite (b : StoneBoard) : bitset_t := m_white b.
Definition getOccupied (b : StoneBoard) : bitset_t := m_black b ∪ m_white b.
Definition getEmpty (b : StoneBoard) : bitset_t := GetLocations ∖ getOccupied b.
Definition Hash (b : StoneBoard) : N := m_hash b.

Definition getColorSet (b : StoneBoard) (c : HexColor) : bitset_t :=
  match c with BLACK => m_black b | WHITE => m_white b | EMPTY => getEmpty b end.

Definition getColor (b : StoneBoard) (p : HexPoint) : HexColor :=
  if decide (p ∈ m_black b) then BLACK
  else if decide (p ∈ m_white b) then WHITE else EMPTY.

Definition addColor (c : HexColor) (s : bitset_t) (b : StoneBoard) : StoneBoard :=
  match c with
  | BLACK => mkStoneBoard (m_black b ∪ s) (m_white b) (m_played b) (m_hash b)
  | WHITE => mkStoneBoard (m_black b) (m_white b ∪ s) (m_played b) (m_hash b)
  | EMPTY => b
  end.

Definition setColor (c : HexColor) (s : bitset_t) (b : StoneBoard) : StoneBoard :=
  match c with
  | BLACK => mkStoneBoard s (m_white b) (m_played b) (m_hash b)
  | WHITE => mkStoneBoard (m_black b) s (m_played b) (m_hash b)
  | EMPTY => b
  end.

Definition edges_of (c : HexColor) : bitset_t := {[ colorEdge1 c; colorEdge2 c ]}.

Definition startNewGame (b : StoneBoard) : StoneBoard :=
  mkStoneBoard (edges_of BLACK) (edges_of WHITE)
               (edges_of BLACK ∪ edges_of WHITE) base_hash.

Definition playMove (c : HexColor) (p : HexPoint) (b : StoneBoard) : StoneBoard :=
  let b' := mkStoneBoard (m_black b) (m_white b) (m_played b ∪ {[ p ]})
                         (N.lxor (m_hash b) (zobrist c p)) in
  addColor c {[ p ]} b'.
End StoneBoardOps.

(** ** Inferior cells *)

(** [VulnerableKiller]: a killer with the carrier of the killing pattern. *)
Abbreviation VulnerableKiller := (nat * gset nat)%type (only parsing).

Definition mkVulnerableKiller (killer : HexPoint) (carrier : bitset_t)
  : VulnerableKiller := (killer, carrier).
Definition killer (k : VulnerableKiller) : HexPoint := k.1.
Definition carrier (k : VulnerableKiller) : bitset_t := k.2.

(** Modelled from the spec: class [InferiorCells] is declared outside the
    files at hand.  The spec gives its data: the dead cells, the captured
    and permanently inferior cells of each colour (the latter with a
    carrier), and the vulnerable, reversible and dominated cells with their
    killers, reversers and dominators; and its invariant that annotated
    cells are empty on the board, which the [Add] operations for fill-in keep
    by dropping the annotations of the cells they fill. *)
Record InferiorCells := mkInferiorCells {
  m_dead : bitset_t;
  m_captured_black : bitset_t;
  m_captured_white : bitset_t;
  m_perm_inf_black : bitset_t;
  m_perm_inf_white : bitset_t;
  m_perm_inf_carrier_black : bitset_t;
  m_perm_inf_carrier_white : bitset_t;
  m_vulnerable : gset (nat * (nat * gset nat));
  m_reversible : gset (nat * nat);
  m_dominated : gset (nat * nat);
}.

#[global] Instance InferiorCells_eq_dec : EqDecision InferiorCells.
Proof. solve_decision. Defined.

Module Inf.
(** A freshly constructed [InferiorCells]. *)
Definition Empty : InferiorCells :=
  mkInferiorCells ∅ ∅ ∅ ∅ ∅ ∅ ∅ ∅ ∅ ∅.

Definition Clear (inf : InferiorCells) : InferiorCells := Empty.

Definition Dead (inf : InferiorCells) : bitset_t := m_dead inf.

Definition Captured (c : HexColor) (inf : InferiorCells) : bitset_t :=
  match c with
  | BLACK => m_captured_black inf
  | WHITE => m_captured_white inf
  | EMPTY => ∅
  end.

Definition PermInf (c : HexColor) (inf : InferiorCells) : bitset_t :=
  match c with
  | BLACK => m_perm_inf_black inf
  | WHITE => m_perm_inf_white inf
  | EMPTY => ∅
  end.

Definition PermInfCarrier (c : HexColor) (inf : InferiorCells) : bitset_t :=
  match c with
  | BLACK => m_perm_inf_carrier_black inf
  | WHITE => m_perm_inf_carrier_white inf
  | EMPTY => ∅
  end.

Definition Vulnerable (inf : InferiorCells) : bitset_t :=
  set_map fst (m_vulnerable inf).
Definition Reversible (inf : InferiorCells) : bitset_t :=
  set_map fst (m_reversible inf).
Definition Dominated (inf : InferiorCells) : bitset_t :=
  set_map fst (m_dominated inf).

Definition RemoveAnnotations (s : bitset_t) (inf : InferiorCells)
  : InferiorCells :=
  mkInferiorCells
    (m_dead inf) (m_captured_black inf) (m_captured_white inf)
    (m_perm_inf_black inf) (m_perm_inf_white inf)
    (m_perm_inf_carrier_black inf) (m_perm_inf_carrier_white inf)
    (filter (λ e, e.1 ∉ s) (m_vulnerable inf))
    (filter (λ e, e.1 ∉ s) (m_reversible inf))
    (filter (λ e, e.1 ∉ s) (m_dominated inf)).

Definition AddDead (s : bitset_t) (inf : InferiorCells) : InferiorCells :=
  let inf := RemoveAnnotations s inf in
  mkInferiorCells
    (m_dead inf ∪ s) (m_captured_black inf) (m_captured_white inf)
    (m_perm_inf_black inf) (m_perm_inf_white inf)
    (m_perm_inf_carrier_black inf) (m_perm_inf_carrier_white inf)
    (m_vulnerable inf) (m_reversible inf) (m_dominated inf).

Definition AddCaptured (c : HexColor) (s : bitset_t) (inf : InferiorCells)
  : InferiorCells :=
  match c with
  | EMPTY => inf
  | _ =>
    let inf := RemoveAnnotations s inf in
    mkInferiorCells
      (m_dead inf)
      (if decide (c = BLACK) then m_captured_black inf ∪ s else m_captured_black inf)
      (if decide (c = WHITE) then m_captured_white inf ∪ s else m_captured_white inf)
      (m_perm_inf_black inf) (m_perm_inf_white inf)
      (m_perm_inf_carrier_black inf) (m_perm_inf_carrier_white inf)
      (m_vulnerable inf) (m_reversible inf) (m_dominated inf)
  end.

Definition AddPermInf (c : HexColor) (s car : bitset_t) (inf : InferiorCells)
  : InferiorCells :=
  match c with
  | EMPTY => inf
  | _ =>
    let inf := RemoveAnnotations s inf in
    mkInferiorCells
      (m_dead inf) (m_captured_black inf) (m_captured_white inf)
      (if decide (c = BLACK) then m_perm_inf_black inf ∪ s else m_perm_inf_black inf)
      (if decide (c = WHITE) then m_perm_inf_white inf ∪ s else m_perm_inf_white inf)
      (if decide (c = BLACK) then m_perm_inf_carrier_black inf ∪ car
       else m_perm_inf_carrier_black inf)
      (if decide (c = WHITE) then m_perm_inf_carrier_white inf ∪ car
       else m_perm_inf_carrier_white inf)
      (m_vulnerable inf) (m_reversible inf) (m_dominated inf)
  end.

Definition AddVulnerable (p : HexPoint) (k : VulnerableKiller)
    (inf : InferiorCells) : InferiorCells :=
  mkInferiorCells
    (m_dead inf) (m_captured_black inf) (m_captured_white inf)
    (m_perm_inf_black inf) (m_perm_inf_white inf)
    (m_perm_inf_carrier_black inf) (m_perm_inf_carrier_white inf)
    (m_vulnerable inf ∪ {[ (p, k) ]}) (m_reversible inf) (m_dominated inf).

Definition AddReversible (p r : HexPoint) (inf : InferiorCells) : InferiorCells :=
  mkInferiorCells
    (m_dead inf) (m_captured_black inf) (m_captured_white inf)
    (m_perm_inf_black inf) (m_perm_inf_white inf)
    (m_perm_inf_carrier_black inf) (m_perm_inf_carrier_white inf)
    (m_vulnerable inf) (m_reversible inf ∪ {[ (p, r) ]}) (m_dominated inf).

Definition AddDominated (p d : HexPoint) (inf : InferiorCells) : InferiorCells :=
  mkInferiorCells
    (m_dead inf) (m_captured_black inf) (m_captured_white inf)
    (m_perm_inf_black inf) (m_perm_inf_white inf)
    (m_perm_inf_carrier_black inf) (m_perm_inf_carrier_white inf)
    (m_vulnerable inf) (m_reversible inf) (m_dominated inf ∪ {[ (p, d) ]}).

Definition ClearVulnerable (inf : InferiorCells) : InferiorCells :=
  mkInferiorCells
    (m_dead inf) (m_captured_black inf) (m_captured_white inf)
    (m_perm_inf_black inf) (m_perm_inf_white inf)
    (m_perm_inf_carrier_black inf) (m_perm_inf_carrier_white inf)
    ∅ (m_reversible inf) (m_dominated inf).

(** The entries of the vulnerable map, by cell and then by killer. *)
Definition entry_le (e1 e2 : nat * (nat * gset nat)) : Prop :=
  e1.1 < e2.1 ∨ (e1.1 = e2.1 ∧ e1.2.1 ≤ e2.2.1).

#[global] Instance entry_le_dec : RelDecision entry_le.
Proof. intros e1 e2. unfold entry_le. apply _. Defined.

Definition VulnerableEntries (inf : InferiorCells)
  : list (nat * (nat * gset nat)) :=
  merge_sort entry_le (elements (m_vulnerable inf)).

(** A cell [x] with killer [y] whose own killers include [x] forms a
    presimplicial pair: both cells and both carriers are filled in, unless
    they meet cells already taken by an earlier pair. *)
Definition presimplicial_step (es : list (nat * (nat * gset nat)))
    (fillin : bitset_t) (e : nat * (nat * gset nat)) : bitset_t :=
  let x := e.1 in
  let y := killer e.2 in
  if decide (x ∈ fillin) then fillin
  else if decide (y ∈ fillin) then fillin
  else if decide (carrier e.2 ∩ fillin ≠ ∅) then fillin
  else
    match
      List.find (λ e2, bool_decide (e2.1 = y) && bool_decide (killer e2.2 = x)
                        && bool_decide (carrier e2.2 ∩ fillin = ∅)) es
    with
    | Some e2 => fillin ∪ (carrier e.2 ∪ carrier e2.2 ∪ {[ x; y ]})
    | None => fillin
    end.

Definition FindPresimplicialPairs (inf : InferiorCells) : bitset_t :=
  let es := VulnerableEntries inf in
  foldl (presimplicial_step es) ∅ es.

(** The cells filled in for [c]; dead cells are counted with the colour
    they are filled in with. *)
Definition Fillin (dead_color c : HexColor) (inf : InferiorCells) : bitset_t :=
  Captured c inf ∪ PermInf c inf ∪
  (if decide (c = dead_color) then Dead inf else ∅).
End Inf.

(** ** Groups and patterns *)

(** A group of the board: its captain, colour and size, and the captains of
    the groups next to it (an empty cell is a group of its own). *)
Record Group := mkGroup {
  Captain : HexPoint;
  Color : HexColor;
  Size : nat;
  GroupNbs : bitset_t;
}.

(** Modelled from the spec: class [Groups] is declared outside the files at
    hand: the partition of the board into connected components, each with a
    captain, and for each group its neighbours. *)
Record Groups := mkGroups {
  AllGroups : list Group;
  CaptainOf : HexPoint → HexPoint;
  GetGroup : HexPoint → Group;
}.

(** [GroupBuilder::Build] is declared outside the files at hand and is taken
    as given.  The engine rebuilds the groups after every change it makes to
    the board, so the groups in use are always those of the current board
    [groups.Board()]; the embedding passes that board along with them. *)
Class GroupBuilder := {
  Build : StoneBoard → Groups;
}.

Section GroupsOps.
Context `{ConstBoard}.

(** [GroupIterator(groups, colorset)]. *)
Definition GroupIterator (g : Groups) (cs : HexColorSet) : list Group :=
  List.filter (λ x, HexColorSetUtil.InSet (Color x) cs) (AllGroups g).

(** [groups.Nbs(group, colorset)]: the neighbours of a colour in the set. *)
Definition GroupNbsIn (brd : StoneBoard) (x : Group) (cs : HexColorSet)
  : bitset_t :=
  filter (λ q, HexColorSetUtil.InSet (getColor brd q) cs = true) (GroupNbs x).

(** [groups.Nbs(point, colorset)]. *)
Definition NbsSet (brd : StoneBoard) (g : Groups) (p : HexPoint)
    (cs : HexColorSet) : bitset_t :=
  GroupNbsIn brd (GetGroup g p) cs.

(** [groups.Nbs(point, color)] and [groups.Nbs(group, color)]. *)
Definition NbsColor (brd : StoneBoard) (g : Groups) (p : HexPoint)
    (c : HexColor) : bitset_t :=
  GroupNbsIn brd (GetGroup g p) (HexColorSetUtil.Only c).

Definition GroupNbsColor (brd : StoneBoard) (x : Group) (c : HexColor)
  : bitset_t :=
  GroupNbsIn brd x (HexColorSetUtil.Only c).

(** [groups.IsGameOver()]: one colour's two edges are in one group. *)
Definition IsGameOver (g : Groups) : bool :=
  bool_decide (CaptainOf g (colorEdge1 BLACK) = CaptainOf g (colorEdge2 BLACK))
  || bool_decide (CaptainOf g (colorEdge1 WHITE) = CaptainOf g (colorEdge2 WHITE)).
End GroupsOps.

(** The classes of patterns of the engine's pattern table. *)
Inductive PatternClass :=
  | HashedDead
  | HashedCaptured (c : HexColor)
  | HashedPermInf (c : HexColor)
  | HashedVulnerable (c : HexColor)
  | HashedReversible (c : HexColor)
  | HashedDominated (c : HexColor).

Inductive MatchMode := STOP_AT_FIRST_HIT | MATCH_ALL.

(** A hit of a pattern at a cell, with the two lists of marked cells. *)
Record PatternHit := mkPatternHit {
  moves1 : list HexPoint;
  moves2 : list HexPoint;
}.

(** The pattern matcher is declared outside the files at hand and the pattern
    table is read from a file: matching one class of patterns at one cell of
    a board is taken as given, and so are the hand coded patterns. *)
Class PatternState := {
  MatchOnCell : PatternClass → StoneBoard → HexPoint → MatchMode → list PatternHit;
  HandCodedPattern : Type;
  dominatee : HandCodedPattern → HexPoint;
  dominator : HandCodedPattern → HexPoint;
  check : HandCodedPattern → StoneBoard → bool;
  mirror : HandCodedPattern → HandCodedPattern;
  rotate : HandCodedPattern → HandCodedPattern;
  flipColors : HandCodedPattern → HandCodedPattern;
  m_hand_coded : list HandCodedPattern;
}.

Section PatternOps.
Context `{ConstBoard} `{PatternState}.

(** Modelled from the spec: [PatternState::MatchOnBoard] is declared
    outside the files at hand; a pattern table is matched at every cell of
    the board that is to be considered. *)
Definition MatchOnBoard (brd : StoneBoard) (consider : bitset_t)
    (pats : PatternClass) (mode : MatchMode) : bitset_t :=
  filter (λ p, MatchOnCell pats brd p mode ≠ []) (consider ∩ GetCells).
End PatternOps.

(** ** The inferior cell engine *)

(** The options of [ICEngine]. *)
Record ICEngine := mkICEngine {
  m_find_presimplicial_pairs : bool;
  m_find_permanently_inferior : bool;
  m_find_all_pattern_killers : bool;
  m_find_all_pattern_reversers : bool;
  m_find_all_pattern_dominators : bool;
  m_use_handcoded_patterns : bool;
  m_backup_opponent_dead : bool;
  m_find_three_sided_dead_regions : bool;
  m_iterative_dead_regions : bool;
}.

(** The options set by the constructor [ICEngine::ICEngine]. *)
Definition ICEngine_default : ICEngine :=
  mkICEngine true true true false false true false false false.

(** Each element of a list with the elements before it: the inner loops of
    the clique searches run over the elements that precede the outer one. *)
Fixpoint with_earlier_from {A} (seen : list A) (l : list A) : list (A * list A) :=
  match l with
  | [] => []
  | a :: l' => (a, seen) :: with_earlier_from (seen ++ [a]) l'
  end.
Definition with_earlier {A} (l : list A) : list (A * list A) :=
  with_earlier_from [] l.

Section GraphTheory.
Context `{ConstBoard}.

Definition ComputeEdgeUnreachableRegions (brd : StoneBoard) (c : HexColor)
    (stopSet : bitset_t) (flowFrom1 flowFrom2 : bool) : bitset_t :=
  let flowSet := (getEmpty brd ∪ getColorSet brd c) ∩ GetCells in
  let reachable1 :=
    if flowFrom1
    then ReachableOnBitset (flowSet ∪ {[ colorEdge1 c ]}) stopSet (colorEdge1 c)
    else ∅ in
  let reachable2 :=
    if flowFrom2
    then ReachableOnBitset (flowSet ∪ {[ colorEdge2 c ]}) stopSet (colorEdge2 c)
    else ∅ in
  getEmpty brd ∖ (reachable1 ∪ reachable2).

Definition ComputeDeadRegions (brd : StoneBoard) (groups : Groups) : bitset_t :=
  if IsGameOver groups then getEmpty brd
  else
    foldl (λ dead i,
             if decide (Size i = 1) then dead
             else
               let c := Color i in
               let cliqueCutset := GroupNbs i ∩ getEmpty brd in
               dead ∪ ComputeEdgeUnreachableRegions brd c cliqueCutset
                        (negb (bool_decide (Captain i = colorEdge1 c)))
                        (negb (bool_decide (Captain i = colorEdge2 c))))
          ∅ (GroupIterator groups NOT_EMPTY).

Definition FindType1Cliques (brd : StoneBoard) (groups : Groups) : bitset_t :=
  let empty := getEmpty brd in
  foldl (λ dead xe,
    let '(x, earlier) := xe in
    foldl (λ dead y,
      if Adjacent x y then dead
      else
        let xyNbs := NbsSet brd groups x NOT_EMPTY ∩ NbsSet brd groups y NOT_EMPTY in
        if none xyNbs then dead
        else
          foldl (λ dead z,
            if negb (Adjacent x z) then dead
            else if negb (Adjacent y z) then dead
            else
              let xyExclusiveNbs := xyNbs ∖ NbsSet brd groups z NOT_EMPTY in
              if none xyExclusiveNbs then dead
              else
                let clique : bitset_t := {[ x; y; z ]} in
                let dead :=
                  if any (xyExclusiveNbs ∩ getBlack brd)
                  then dead ∪ ComputeEdgeUnreachableRegions brd BLACK clique true true
                  else dead in
                if any (xyExclusiveNbs ∩ getWhite brd)
                then dead ∪ ComputeEdgeUnreachableRegions brd WHITE clique true true
                else dead)
            dead (BitsetIterator empty))
      dead earlier)
    ∅ (with_earlier (BitsetIterator empty)).

Definition FindType2Cliques (brd : StoneBoard) (groups : Groups) : bitset_t :=
  foldl (λ dead c,
    foldl (λ dead ge,
      let '(g1, earlier) := ge in
      if HexPointUtil.isEdge (Captain g1) then dead
      else
        let g1_nbs := GroupNbsColor brd g1 EMPTY in
        foldl (λ dead g2,
          if HexPointUtil.isEdge (Captain g2) then dead
          else
            let g2_nbs := GroupNbsColor brd g2 EMPTY in
            if none (g1_nbs ∩ g2_nbs) then dead
            else
              let g1Exclusive := g1_nbs ∖ g2_nbs in
              if none g1Exclusive then dead
              else
                let g2Exclusive := g2_nbs ∖ g1_nbs in
                if none g2Exclusive then dead
                else
                  foldl (λ dead x,
                    foldl (λ dead y,
                      if negb (Adjacent x y) then dead
                      else
                        let clique := (g1_nbs ∩ g2_nbs) ∪ {[ x; y ]} in
                        dead ∪ ComputeEdgeUnreachableRegions brd c clique true true)
                      dead (BitsetIterator g2Exclusive))
                    dead (BitsetIterator g1Exclusive))
          dead earlier)
      dead (with_earlier (GroupIterator groups (HexColorSetUtil.Only c))))
    ∅ [BLACK; WHITE].

Definition FindType3Cliques (brd : StoneBoard) (groups : Groups) : bitset_t :=
  foldl (λ dead c,
    foldl (λ dead ge,
      let '(g1, earlier) := ge in
      if HexPointUtil.isEdge (Captain g1) then dead
      else
        let g1_nbs := GroupNbsColor brd g1 EMPTY in
        foldl (λ dead ge2,
          let '(g2, earlier2) := ge2 in
          if HexPointUtil.isEdge (Captain g2) then dead
          else
            let g2_nbs := GroupNbsColor brd g2 EMPTY in
            if none (g1_nbs ∩ g2_nbs) then dead
            else
              foldl (λ dead g3,
                if HexPointUtil.isEdge (Captain g3) then dead
                else
                  let g3_nbs := GroupNbsColor brd g3 EMPTY in
                  if none (g1_nbs ∩ g3_nbs) then dead
                  else if none (g2_nbs ∩ g3_nbs) then dead
                  else
                    let clique :=
                      (g1_nbs ∩ g2_nbs) ∪ (g1_nbs ∩ g3_nbs) ∪ (g2_nbs ∩ g3_nbs) in
                    dead ∪ ComputeEdgeUnreachableRegions brd c clique true true)
                dead earlier2)
          dead (with_earlier earlier))
      dead (with_earlier (GroupIterator groups (HexColorSetUtil.Only c))))
    ∅ [BLACK; WHITE].

Definition FindThreeSetCliques (brd : StoneBoard) (groups : Groups) : bitset_t :=
  if IsGameOver groups then getEmpty brd
  else
    let dead1 := FindType1Cliques brd groups in
    let dead2 := FindType2Cliques brd groups in
    let dead3 := FindType3Cliques brd groups in
    dead1 ∪ dead2 ∪ dead3.

(** [IsClique(brd, vn, exclude)]. *)
Fixpoint IsClique (vn : list HexPoint) (exclude : HexPoint) : bool :=
  match vn with
  | [] => true
  | a :: rest =>
    (bool_decide (a = exclude)
     || forallb (λ b, bool_decide (b = exclude) || Adjacent a b) rest)
    && IsClique rest exclude
  end.
End GraphTheory.

(** The neighbours of a cell, sorted into empty cells and groups of the
    colour under study, as [UseGraphTheoryToFindDeadVulnerable] does. *)
Record NbCategories := mkNbCategories {
  enbs : bitset_t;
  cnbs : bitset_t;
  empty_adj_to_group : bitset_t;
  adj_to_edge : bool;
  edgeNbr : HexPoint;
}.

Section Presimplicial.
Context `{ConstBoard}.

Definition categorize (color : HexColor) (brd : StoneBoard) (groups : Groups)
    (p : HexPoint) (st : NbCategories) (nb : HexPoint) : NbCategories :=
  let ncolor := getColor brd nb in
  if decide (ncolor = EMPTY) then
    mkNbCategories (enbs st ∪ {[ nb ]}) (cnbs st) (empty_adj_to_group st)
                   (adj_to_edge st) (edgeNbr st)
  else if decide (ncolor = color) then
    let cap := CaptainOf groups nb in
    let adj := NbsColor brd groups cap EMPTY ∖ {[ p ]} in
    if HexPointUtil.isColorEdge cap color then
      mkNbCategories (enbs st) (cnbs st ∪ {[ cap ]})
                     (empty_adj_to_group st ∪ adj) true cap
    else if decide (size adj = 1) then
      mkNbCategories (enbs st ∪ {[ FindSetBit adj ]}) (cnbs st)
                     (empty_adj_to_group st) (adj_to_edge st) (edgeNbr st)
    else if decide (2 ≤ size adj) then
      mkNbCategories (enbs st) (cnbs st ∪ {[ cap ]})
                     (empty_adj_to_group st ∪ adj) (adj_to_edge st) (edgeNbr st)
    else st
  else st.

(** What the loop body finds for one cell [p]: whether [p] is simplicial,
    and the killers to which it is vulnerable. *)
Definition examine (color : HexColor) (brd : StoneBoard) (groups : Groups)
    (p : HexPoint) : bool * list HexPoint :=
  let st := foldl (categorize color brd groups p)
                  (mkNbCategories ∅ ∅ ∅ false INVALID_POINT) (Nbs p) in
  let eatg := empty_adj_to_group st in
  (* the erase loop restarts at each erasure: what remains is the filter *)
  let enbs := filter (λ q, q ∉ eatg) (enbs st) in
  let cnbs := cnbs st in
  if decide (size enbs + size cnbs ≤ 1) then (true, [])
  else if adj_to_edge st || bool_decide (2 ≤ size cnbs) then
    if decide (2 ≤ size enbs) then (false, [])
    else if decide (size cnbs = 1) then (false, [FindSetBit enbs])
    else
      let '(simp, isPreSimp, killers_bs) :=
        foldl (λ (acc : bool * bool * gset nat) i,
                 let '(simp, isPreSimp, killers_bs) := acc in
                 if adj_to_edge st && bool_decide (i ≠ edgeNbr st) then acc
                 else
                   let remainingNbs := eatg ∖ NbsColor brd groups i EMPTY in
                   if decide (size remainingNbs = 0) then
                     if decide (size enbs = 0) then (true, isPreSimp, killers_bs)
                     else (simp, true, killers_bs ∪ {[ FindSetBit enbs ]})
                   else if decide (size remainingNbs = 1 ∧ size enbs = 0) then
                     (simp, true, killers_bs ∪ {[ FindSetBit remainingNbs ]})
                   else acc)
              (false, false, ∅) (BitsetIterator cnbs) in
      if negb simp && isPreSimp then (false, BitsetIterator killers_bs)
      else (simp, [])
  else if decide (4 ≤ size enbs + size cnbs) then (false, [])
  else if decide (size cnbs = 1) then
    if decide (1 < size enbs) then (false, [])
    else
      let omit := FindSetBit enbs in
      let more :=
        if decide (size eatg = 2) then
          let vn := BitsetIterator (enbs ∪ eatg) in
          List.filter (λ ex, negb (bool_decide (ex = omit)) && IsClique vn ex) vn
        else [] in
      (false, omit :: more)
  else
    let vn := BitsetIterator enbs in
    if IsClique vn INVALID_POINT then (true, [])
    else (false, List.filter (λ ex, IsClique vn ex) vn).

Context `{GroupBuilder}.

Definition UseGraphTheoryToFindDeadVulnerable (color : HexColor)
    (brd : StoneBoard) (inf : InferiorCells) : StoneBoard * InferiorCells :=
  let groups := Build brd in
  let adj_to_both_edges :=
    NbsColor brd groups (colorEdge1 color) EMPTY
    ∩ NbsColor brd groups (colorEdge2 color) EMPTY in
  let consider := getEmpty brd ∖ adj_to_both_edges in
  let '(simplicial, inf) :=
    foldl (λ (acc : gset nat * InferiorCells) p,
             let '(found, killers) := examine color brd groups p in
             ((if found then acc.1 ∪ {[ p ]} else acc.1),
              foldl (λ inf k, Inf.AddVulnerable p (mkVulnerableKiller k ∅) inf)
                    acc.2 killers))
          (∅, inf) (BitsetIterator consider) in
  if any simplicial
  then (addColor DEAD_COLOR simplicial brd, Inf.AddDead simplicial inf)
  else (brd, inf).
End Presimplicial.

Section Engine.
Context `{ConstBoard} `{GroupBuilder} `{PatternState}.

(** The engine's options. *)
Variable ice : ICEngine.

(** The default of the parameter [colors_to_capture], which the callers
    that leave it out receive from the declaration in the header. *)
Variable default_colors_to_capture : HexColorSet.

Definition FindDead (brd : StoneBoard) (consider : bitset_t) : bitset_t :=
  MatchOnBoard brd consider HashedDead STOP_AT_FIRST_HIT.

Definition FindCaptured (brd : StoneBoard) (color : HexColor)
    (consider : bitset_t) : bitset_t :=
  foldl (λ (captured : gset nat) p,
           if decide (p ∈ captured) then captured
           else
             match MatchOnCell (HashedCaptured color) brd p STOP_AT_FIRST_HIT with
             | [] => captured
             | hit :: _ =>
               let carrier : gset nat := of_list (moves2 hit) ∪ {[ p ]} in
               if none (carrier ∩ captured) then captured ∪ carrier
               else captured
             end)
        ∅ (BitsetIterator consider).

(** Returns the cells found and the union of the carriers of their hits. *)
Definition FindPermanentlyInferior (brd : StoneBoard) (color : HexColor)
    (consider : bitset_t) : bitset_t * bitset_t :=
  let ret := MatchOnBoard brd consider (HashedPermInf color) STOP_AT_FIRST_HIT in
  let carrier :=
    foldl (λ (carrier : gset nat) p,
             match MatchOnCell (HashedPermInf color) brd p STOP_AT_FIRST_HIT with
             | [] => carrier
             | hit :: _ => carrier ∪ of_list (moves2 hit)
             end)
          ∅ (BitsetIterator ret) in
  (ret, carrier).

Definition FindVulnerable (brd : StoneBoard) (color : HexColor)
    (consider : bitset_t) (inf : InferiorCells) : InferiorCells :=
  let matchmode :=
    if m_find_all_pattern_killers ice then MATCH_ALL else STOP_AT_FIRST_HIT in
  let vul := MatchOnBoard brd consider (HashedVulnerable color) matchmode in
  foldl (λ inf p,
           foldl (λ inf hit,
                    let killer := hd INVALID_POINT (moves1 hit) in
                    let carrier := of_list (moves2 hit) in
                    Inf.AddVulnerable p (mkVulnerableKiller killer carrier) inf)
                 inf (MatchOnCell (HashedVulnerable color) brd p matchmode))
        inf (BitsetIterator vul).

Definition FindReversible (brd : StoneBoard) (color : HexColor)
    (consider : bitset_t) (inf : InferiorCells) : InferiorCells :=
  let matchmode :=
    if m_find_all_pattern_reversers ice then MATCH_ALL else STOP_AT_FIRST_HIT in
  let rev := MatchOnBoard brd consider (HashedReversible color) matchmode in
  foldl (λ inf p,
           foldl (λ inf hit,
                    let reverser := hd INVALID_POINT (moves1 hit) in
                    let inf := Inf.AddReversible p reverser inf in
                    foldl (λ inf q,
                             if decide (q ∈ consider)
                             then Inf.AddReversible q reverser inf else inf)
                          inf (moves2 hit))
                 inf (MatchOnCell (HashedReversible color) brd p matchmode))
        inf (BitsetIterator rev).

Definition CheckHandCodedDominates (brd : StoneBoard) (color : HexColor)
    (pattern : HandCodedPattern) (consider : bitset_t) (inf : InferiorCells)
  : InferiorCells :=
  if decide (Width < 4 ∨ Height < 3) then inf
  else
    let pat := pattern in
    let pat := if decide (color = WHITE) then flipColors (mirror pat) else pat in
    let inf :=
      if test consider (dominatee pat) && check pat brd
      then Inf.AddDominated (dominatee pat) (dominator pat) inf else inf in
    let pat := rotate pat in
    if test consider (dominatee pat) && check pat brd
    then Inf.AddDominated (dominatee pat) (dominator pat) inf else inf.

Definition FindHandCodedDominated (brd : StoneBoard) (color : HexColor)
    (consider : bitset_t) (inf : InferiorCells) : InferiorCells :=
  if decide (Width ≠ Height) then inf
  else foldl (λ inf pat, CheckHandCodedDominates brd color pat consider inf)
             inf m_hand_coded.

Definition FindDominated (brd : StoneBoard) (color : HexColor)
    (consider : bitset_t) (inf : InferiorCells) : InferiorCells :=
  let matchmode :=
    if m_find_all_pattern_dominators ice then MATCH_ALL else STOP_AT_FIRST_HIT in
  let dom := MatchOnBoard brd consider (HashedDominated color) matchmode in
  let inf :=
    foldl (λ inf p,
             foldl (λ inf hit,
                      Inf.AddDominated p (hd INVALID_POINT (moves1 hit)) inf)
                   inf (MatchOnCell (HashedDominated color) brd p matchmode))
          inf (BitsetIterator dom) in
  if m_use_handcoded_patterns ice
  then FindHandCodedDominated brd color consider inf else inf.

(** The loop of [ComputeDeadCaptured]: the dead search, then black
    captured, then white captured, starting over after each fill-in.
    [None] stands for a run that does not come to an end within [fuel]
    rounds. *)
Fixpoint ComputeDeadCaptured_loop (fuel : nat) (brd : StoneBoard)
    (inf : InferiorCells) (count : nat) (colors_to_capture : HexColorSet)
  : option (StoneBoard * InferiorCells * nat) :=
  match fuel with
  | 0 => None
  | S fuel =>
    let dead := FindDead brd (getEmpty brd) in
    if any dead then
      ComputeDeadCaptured_loop fuel (addColor DEAD_COLOR dead brd)
        (Inf.AddDead dead inf) (count + size dead) colors_to_capture
    else
      let black :=
        if HexColorSetUtil.InSet BLACK colors_to_capture
        then FindCaptured brd BLACK (getEmpty brd) else ∅ in
      if any black then
        ComputeDeadCaptured_loop fuel (addColor BLACK black brd)
          (Inf.AddCaptured BLACK black inf) (count + size black)
          colors_to_capture
      else
        let white :=
          if HexColorSetUtil.InSet WHITE colors_to_capture
          then FindCaptured brd WHITE (getEmpty brd) else ∅ in
        if any white then
          ComputeDeadCaptured_loop fuel (addColor WHITE white brd)
            (Inf.AddCaptured WHITE white inf) (count + size white)
            colors_to_capture
        else Some (brd, inf, count)
  end.

(** Every round but the last fills in an empty cell, so one round more
    than there are empty cells is enough. *)
Definition rounds (brd : StoneBoard) : nat := S (size (getEmpty brd)).

Definition ComputeDeadCaptured (brd : StoneBoard) (inf : InferiorCells)
    (colors_to_capture : HexColorSet)
  : option (StoneBoard * InferiorCells * nat) :=
  ComputeDeadCaptured_loop (rounds brd) brd inf 0 colors_to_capture.

Definition FillinPermanentlyInferior (brd : StoneBoard) (color : HexColor)
    (out : InferiorCells) (colors_to_capture : HexColorSet)
  : StoneBoard * InferiorCells * nat :=
  if negb (m_find_permanently_inferior ice) then (brd, out, 0)
  else if negb (HexColorSetUtil.InSet color colors_to_capture) then (brd, out, 0)
  else
    let '(perm, carrier) := FindPermanentlyInferior brd color (getEmpty brd) in
    if any perm
    then (addColor color perm brd, Inf.AddPermInf color perm carrier out, size perm)
    else (brd, out, size perm).

Definition FillInVulnerable (color : HexColor) (brd : StoneBoard)
    (inf : InferiorCells) (colors_to_capture : HexColorSet)
  : StoneBoard * InferiorCells * nat :=
  let inf := Inf.ClearVulnerable inf in
  let '(brd, inf) := UseGraphTheoryToFindDeadVulnerable color brd inf in
  let consider := getEmpty brd ∖ Inf.Dead inf in
  let inf := FindVulnerable brd color consider inf in
  if HexColorSetUtil.InSet (opp color) colors_to_capture then
    let captured := Inf.FindPresimplicialPairs inf in
    if any captured
    then (addColor (opp color) captured brd,
          Inf.AddCaptured (opp color) captured inf, size captured)
    else (brd, inf, size captured)
  else (brd, inf, 0).

Definition FillInUnreachable (brd : StoneBoard) (out : InferiorCells)
  : StoneBoard * InferiorCells * nat :=
  let groups := Build brd in
  let notReachable := ComputeDeadRegions brd groups in
  let notReachable :=
    if m_find_three_sided_dead_regions ice
    then notReachable ∪ FindThreeSetCliques brd groups else notReachable in
  if any notReachable
  then (addColor DEAD_COLOR notReachable brd, Inf.AddDead notReachable out,
        size notReachable)
  else (brd, out, size notReachable).

(** One pass of the loop of [ComputeFillin], with the count of the cells
    it filled in. *)
Definition ComputeFillin_pass (color : HexColor) (brd : StoneBoard)
    (out : InferiorCells) (colors_to_capture : HexColorSet)
  : option (StoneBoard * InferiorCells * nat) :=
  '(brd, out, c1) ← ComputeDeadCaptured brd out colors_to_capture;
  let '(brd, out, c2) := FillinPermanentlyInferior brd color out colors_to_capture in
  let '(brd, out, c3) :=
    FillinPermanentlyInferior brd (opp color) out colors_to_capture in
  let '(brd, out, c4) := FillInVulnerable (opp color) brd out colors_to_capture in
  let '(brd, out, c5) := FillInVulnerable color brd out colors_to_capture in
  let '(brd, out, c6) :=
    if m_iterative_dead_regions ice then FillInUnreachable brd out
    else (brd, out, 0) in
  Some (brd, out, c1 + c2 + c3 + c4 + c5 + c6).

Fixpoint ComputeFillin_loop (fuel : nat) (color : HexColor) (brd : StoneBoard)
    (out : InferiorCells) (colors_to_capture : HexColorSet)
  : option (StoneBoard * InferiorCells) :=
  match fuel with
  | 0 => None
  | S fuel =>
    '(brd, out, count) ← ComputeFillin_pass color brd out colors_to_capture;
    if decide (count = 0) then Some (brd, out)
    else ComputeFillin_loop fuel color brd out colors_to_capture
  end.

Definition ComputeFillin (color : HexColor) (brd : StoneBoard)
    (out : InferiorCells) (colors_to_capture : HexColorSet)
  : option (StoneBoard * InferiorCells) :=
  let out := Inf.Clear out in
  '(brd, out) ← ComputeFillin_loop (rounds brd) color brd out colors_to_capture;
  if negb (m_iterative_dead_regions ice)
  then let '(brd, out, _) := FillInUnreachable brd out in Some (brd, out)
  else Some (brd, out).

(** The inner loop of [BackupOpponentDead], for a cell [d] found dead after
    the opponent's move at [p]. *)
Definition BackupOpponentDead_record (reversible dominated filled : bitset_t)
    (p : HexPoint) (acc : InferiorCells * nat) (d : HexPoint)
  : InferiorCells * nat :=
  if negb (test (Inf.Vulnerable acc.1) d)
     && negb (test reversible d) && negb (test dominated d)
  then
    let carrier := filled ∖ {[ d ]} ∖ {[ p ]} in
    (Inf.AddVulnerable d (mkVulnerableKiller p carrier) acc.1, S acc.2)
  else acc.

(** The body of the loop of [BackupOpponentDead] for one empty cell [p]. *)
Definition BackupOpponentDead_at (color : HexColor) (board : StoneBoard)
    (reversible dominated : bitset_t) (p : HexPoint)
    (acc : InferiorCells * nat) : option (InferiorCells * nat) :=
  let brd := startNewGame board in
  let brd := setColor BLACK (getBlack board) brd in
  let brd := setColor WHITE (getWhite board) brd in
  let brd := playMove (opp color) p brd in
  '(_, inf) ← ComputeFillin color brd Inf.Empty default_colors_to_capture;
  let filled := Inf.Fillin DEAD_COLOR BLACK inf ∪ Inf.Fillin DEAD_COLOR WHITE inf in
  Some (foldl (BackupOpponentDead_record reversible dominated filled p)
              acc (BitsetIterator (Inf.Dead inf))).

Definition BackupOpponentDead (color : HexColor) (board : StoneBoard)
    (out : InferiorCells) : option (InferiorCells * nat) :=
  let reversible := Inf.Reversible out in
  let dominated := Inf.Dominated out in
  foldl (λ acc p, acc ≫= BackupOpponentDead_at color board reversible dominated p)
        (Some (out, 0)) (BitsetIterator (getEmpty board)).

Definition ComputeInferiorCells (color : HexColor) (brd : StoneBoard)
    (out : InferiorCells) : option (StoneBoard * InferiorCells) :=
  '(brd, out) ← ComputeFillin color brd out default_colors_to_capture;
  let out :=
    let consider := getEmpty brd ∖ Inf.Vulnerable out in
    FindReversible brd color consider out in
  let out :=
    let consider := getEmpty brd ∖ Inf.Vulnerable out ∖ Inf.Reversible out in
    FindDominated brd color consider out in
  if m_backup_opponent_dead ice then
    '(out, _) ← BackupOpponentDead color brd out;
    Some (brd, out)
  else Some (brd, out).
End Engine.

(** ** A rhombic Hex board

    An instance of the constant board and of the group builder for the
    boards of the game: [w] columns and [h] rows of hexagonal cells, Black's
    edges to the north and south, White's to the east and west.  Points are
    numbered as in [HexPoint]: the four edges, then the cells row by row. *)
Module Hex.
Definition NORTH : HexPoint := 3.
Definition EAST : HexPoint := 4.
Definition SOUTH : HexPoint := 5.
Definition WEST : HexPoint := 6.
Definition FIRST_CELL : HexPoint := 7.

Section Board.
Variables w h : nat.

Definition cell (x y : nat) : HexPoint := FIRST_CELL + y * w + x.

(** The point at column [x - 1] and row [y - 1]: the coordinates are
    shifted by one so that the rim around the board has a place. *)
Definition coordsToPoint (x y : nat) : option HexPoint :=
  if bool_decide ((x = 0 ∨ x = S w) ∧ (y = 0 ∨ y = S h)) then None
  else if bool_decide (y = 0) then Some NORTH
  else if bool_decide (y = S h) then Some SOUTH
  else if bool_decide (x = 0) then Some WEST
  else if bool_decide (x = S w) then Some EAST
  else Some (cell (x - 1) (y - 1)).

Definition cells : list HexPoint :=
  y ← seq 0 h; x ← seq 0 w; [cell x y].

Definition nbs_cell (x y : nat) : list HexPoint :=
  (* shifted coordinates of the six neighbours of cell (x, y) *)
  remove_dups
    (omap (λ d : nat * nat, coordsToPoint d.1 d.2)
          [ (S (S x), S y); (S (S x), y); (S x, y);
            (x, S y); (x, S (S y)); (S x, S (S y)) ]).

Definition nbs (p : HexPoint) : list HexPoint :=
  if bool_decide (p = NORTH) then
    [EAST; WEST] ++ ((λ x, cell x 0) <$> seq 0 w)
  else if bool_decide (p = SOUTH) then
    [EAST; WEST] ++ ((λ x, cell x (h - 1)) <$> seq 0 w)
  else if bool_decide (p = WEST) then
    [NORTH; SOUTH] ++ ((λ y, cell 0 y) <$> seq 0 h)
  else if bool_decide (p = EAST) then
    [NORTH; SOUTH] ++ ((λ y, cell (w - 1) y) <$> seq 0 h)
  else if bool_decide (FIRST_CELL ≤ p < FIRST_CELL + w * h) then
    nbs_cell ((p - FIRST_CELL) `mod` w) ((p - FIRST_CELL) `div` w)
  else [].

Definition adjacent (p q : HexPoint) : bool := bool_decide (q ∈ nbs p).

Definition edge1 (c : HexColor) : HexPoint :=
  match c with BLACK => NORTH | WHITE => EAST | EMPTY => INVALID_POINT end.
Definition edge2 (c : HexColor) : HexPoint :=
  match c with BLACK => SOUTH | WHITE => WEST | EMPTY => INVALID_POINT end.

(** Breadth-first closure of [todo] under [step], each point expanded
    once. *)
Fixpoint closure (fuel : nat) (step : HexPoint → list HexPoint)
    (seen : bitset_t) (todo : list HexPoint) : bitset_t :=
  match fuel, todo with
  | S fuel, p :: todo =>
    let new := remove_dups (List.filter (λ q, negb (test seen q)) (step p)) in
    closure fuel step (seen ∪ of_list new) (todo ++ new)
  | _, _ => seen
  end.

Definition locations : bitset_t := of_list ([NORTH; EAST; SOUTH; WEST] ++ cells).

(** The search of [BoardUtils::ReachableOnBitset]: from [start] along
    the cells of [carrier]; a cell of [stopset] is reached but not left. *)
Definition reachable (carrier stopset : bitset_t) (start : HexPoint) : bitset_t :=
  closure (S (w * h + 4))
          (λ p, if test stopset p then []
                else List.filter (test carrier) (nbs p))
          {[ start ]} [start].

Definition zobrist_value (c : HexColor) (p : HexPoint) : N :=
  let k := N.of_nat (2 * p + (if decide (c = BLACK) then 0 else 1)) in
  (k * 0x9E3779B97F4A7C15 + 0x7F4A7C15) `mod` (2 ^ 64).

Definition board : ConstBoard := {|
  Width := w;
  Height := h;
  GetCells := of_list cells;
  GetLocations := locations;
  Nbs := nbs;
  Adjacent := adjacent;
  colorEdge1 := edge1;
  colorEdge2 := edge2;
  ReachableOnBitset := reachable;
  zobrist := zobrist_value;
  base_hash := 0%N;
  DEAD_COLOR := BLACK;
|}.

(** The stones of the colour of [p] connected to [p]; an empty cell is
    alone. *)
Definition members (brd : StoneBoard) (p : HexPoint) : bitset_t :=
  let c := getColor brd p in
  if decide (c = EMPTY) then {[ p ]}
  else closure (S (w * h + 4))
               (λ q, List.filter (λ r, bool_decide (getColor brd r = c)) (nbs q))
               {[ p ]} [p].

(** The captain of a group: its edge if it has one, else its least
    cell. *)
Definition captain (brd : StoneBoard) (p : HexPoint) : HexPoint :=
  FindSetBit (members brd p).

Definition group_of (brd : StoneBoard) (p : HexPoint) : Group :=
  let ms := members brd p in
  let around : list HexPoint :=
    q ← elements ms; List.filter (λ r, negb (test ms r)) (nbs q) in
  mkGroup (captain brd p) (getColor brd p) (size ms)
          (of_list (captain brd <$> around)).

Definition build (brd : StoneBoard) : Groups :=
  let caps := BitsetIterator (of_list (captain brd <$> elements locations)) in
  mkGroups (group_of brd <$> caps) (captain brd) (group_of brd).

Definition groups : GroupBuilder := {| Build := build |}.

(** No pattern file: the engine works with its graph rules alone. *)
Definition no_patterns : PatternState := {|
  MatchOnCell := λ _ _ _ _, [];
  HandCodedPattern := unit;
  dominatee := λ _, INVALID_POINT;
  dominator := λ _, INVALID_POINT;
  check := λ _ _, false;
  mirror := λ x, x;
  rotate := λ x, x;
  flipColors := λ x, x;
  m_hand_coded := [];
|}.

(** The board at the start of a game, and after some moves. *)
Definition start : StoneBoard :=
  startNewGame (H := board) (mkStoneBoard ∅ ∅ ∅ 0%N).

Definition play (moves : list (HexColor * HexPoint)) : StoneBoard :=
  foldl (λ b m, playMove (H := board) m.1 m.2 b) start moves.
End Board.
End Hex.

(** * Properties *)

(** ** Bitsets and boards *)

Lemma elem_of_BitsetIterator (s : gset nat) p : p ∈ BitsetIterator s ↔ p ∈ s.
Proof.
  unfold BitsetIterator. rewrite merge_sort_Permutation. apply elem_of_elements.
Qed.

Lemma any_true (s : gset nat) : any s = true ↔ s ≠ ∅.
Proof. unfold any. apply bool_decide_eq_true. Qed.

Lemma any_false (s : gset nat) : any s = false ↔ s = ∅.
Proof.
  unfold any. rewrite bool_decide_eq_false. split; [|by intros ->; auto].
  intros Hn. destruct (decide (s = ∅)); [done|by destruct Hn].
Qed.

Lemma none_true (s : gset nat) : none s = true ↔ s = ∅.
Proof. unfold none. apply bool_decide_eq_true. Qed.

Lemma test_true (s : gset nat) p : test s p = true ↔ p ∈ s.
Proof. unfold test. apply bool_decide_eq_true. Qed.

Lemma test_false (s : gset nat) p : test s p = false ↔ p ∉ s.
Proof. unfold test. apply bool_decide_eq_false. Qed.

Lemma elem_of_of_list (l : list nat) p : p ∈ of_list l ↔ p ∈ l.
Proof. unfold of_list. apply elem_of_list_to_set. Qed.

(** A fold that only ever adds subsets of [S] stays within [S]. *)
Lemma foldl_subseteq {A} (f : gset nat → A → gset nat) (S : gset nat) l acc :
  acc ⊆ S → (∀ acc x, x ∈ l → acc ⊆ S → f acc x ⊆ S) → foldl f acc l ⊆ S.
Proof.
  revert acc. induction l as [|a l IH]; intros acc Hacc Hf; simpl; [done|].
  apply IH.
  - apply Hf; [left|done].
  - intros acc' x Hx. apply Hf. by right.
Qed.

(** An invariant of a fold. *)
Lemma foldl_invariant {A B} (P : B → Prop) (f : B → A → B) l acc :
  P acc → (∀ acc x, x ∈ l → P acc → P (f acc x)) → P (foldl f acc l).
Proof.
  revert acc. induction l as [|a l IH]; intros acc Hacc Hf; simpl; [done|].
  apply IH.
  - apply Hf; [left|done].
  - intros acc' x Hx. apply Hf. by right.
Qed.

Section BoardFacts.
Context `{ConstBoard}.

(** [fills b b']: [b'] is [b] with stones added as fill-in: the played
    stones and the hash are those of [b]. *)
Record fills (b b' : StoneBoard) : Prop := mkFills {
  fills_hash : m_hash b' = m_hash b;
  fills_played : m_played b' = m_played b;
  fills_black : m_black b ⊆ m_black b';
  fills_white : m_white b ⊆ m_white b';
}.

Lemma fills_refl b : fills b b.
Proof. by split. Qed.

Lemma fills_trans b1 b2 b3 : fills b1 b2 → fills b2 b3 → fills b1 b3.
Proof.
  intros [] []. split; try congruence; etrans; eauto.
Qed.

Lemma fills_empty b b' : fills b b' → getEmpty b' ⊆ getEmpty b.
Proof. intros []. unfold getEmpty, getOccupied. set_solver. Qed.

Lemma fills_size b b' : fills b b' → size (getEmpty b') ≤ size (getEmpty b).
Proof. intros. by apply subseteq_size, fills_empty. Qed.

Lemma addColor_fills c s b : fills b (addColor c s b).
Proof. destruct c; split; simpl; set_solver. Qed.

Lemma getEmpty_addColor c s b :
  isBlackWhite c = true → getEmpty (addColor c s b) = getEmpty b ∖ s.
Proof.
  destruct c; [| |done]; intros _; unfold getEmpty, getOccupied; simpl;
    set_solver.
Qed.

Lemma addColor_size_lt c s b p :
  isBlackWhite c = true → p ∈ s → p ∈ getEmpty b →
  size (getEmpty (addColor c s b)) < size (getEmpty b).
Proof.
  intros Hc Hs Hp. rewrite getEmpty_addColor by done.
  apply subset_size. set_solver.
Qed.

Lemma addColor_size_lt_sub c s b :
  isBlackWhite c = true → s ≠ ∅ → s ⊆ getEmpty b →
  size (getEmpty (addColor c s b)) < size (getEmpty b).
Proof.
  intros Hc Hs Hsub. apply set_choose_L in Hs as [p Hp].
  eapply addColor_size_lt; eauto.
Qed.
End BoardFacts.

(** ** The accumulator *)

Module InfFacts.
Import Inf.

Lemma elem_of_keys `{Countable B} (X : gset (nat * B)) p :
  p ∈ (set_map fst X : gset nat) ↔ ∃ k, (p, k) ∈ X.
Proof.
  rewrite elem_of_map. split.
  - intros [[q k] [-> Hx]]. by exists k.
  - intros [k Hx]. by exists (p, k).
Qed.

Lemma keys_filter `{Countable B} (X : gset (nat * B)) (s : gset nat) :
  (set_map fst (filter (λ e, e.1 ∉ s) X) : gset nat) = set_map fst X ∖ s.
Proof.
  apply set_eq. intros p. rewrite elem_of_difference, !elem_of_keys.
  split.
  - intros [k [Hs Hk]%elem_of_filter]. eauto.
  - intros [[k Hk] Hs]. exists k. by apply elem_of_filter.
Qed.

Lemma keys_union `{Countable B} (X Y : gset (nat * B)) :
  (set_map fst (X ∪ Y) : gset nat) = set_map fst X ∪ set_map fst Y.
Proof. apply set_map_union_L. Qed.

Lemma keys_singleton `{Countable B} (p : nat) (k : B) :
  (set_map fst ({[ (p, k) ]} : gset (nat * B)) : gset nat) = {[ p ]}.
Proof. apply set_map_singleton_L. Qed.

Lemma keys_empty `{Countable B} :
  (set_map fst (∅ : gset (nat * B)) : gset nat) = ∅.
Proof. apply set_map_empty. Qed.

(** The cells carrying an annotation. *)
Definition Annotated (inf : InferiorCells) : gset nat :=
  Vulnerable inf ∪ Reversible inf ∪ Dominated inf.

Lemma Vulnerable_RemoveAnnotations s inf :
  Vulnerable (RemoveAnnotations s inf) = Vulnerable inf ∖ s.
Proof. apply keys_filter. Qed.
Lemma Reversible_RemoveAnnotations s inf :
  Reversible (RemoveAnnotations s inf) = Reversible inf ∖ s.
Proof. apply keys_filter. Qed.
Lemma Dominated_RemoveAnnotations s inf :
  Dominated (RemoveAnnotations s inf) = Dominated inf ∖ s.
Proof. apply keys_filter. Qed.

Lemma Annotated_AddDead s inf : Annotated (AddDead s inf) = Annotated inf ∖ s.
Proof.
  unfold Annotated, AddDead, Vulnerable, Reversible, Dominated; simpl.
  rewrite !keys_filter. set_solver.
Qed.

Lemma Annotated_AddCaptured c s inf :
  isBlackWhite c = true →
  Annotated (AddCaptured c s inf) = Annotated inf ∖ s.
Proof.
  intros Hc. unfold Annotated, Vulnerable, Reversible, Dominated.
  destruct c; try done; simpl; rewrite !keys_filter; set_solver.
Qed.

Lemma Annotated_AddPermInf c s car inf :
  isBlackWhite c = true →
  Annotated (AddPermInf c s car inf) = Annotated inf ∖ s.
Proof.
  intros Hc. unfold Annotated, Vulnerable, Reversible, Dominated.
  destruct c; try done; simpl; rewrite !keys_filter; set_solver.
Qed.

Lemma Vulnerable_AddVulnerable p k inf :
  Vulnerable (AddVulnerable p k inf) = Vulnerable inf ∪ {[ p ]}.
Proof.
  unfold Vulnerable; simpl. by rewrite keys_union, keys_singleton.
Qed.

Lemma Annotated_AddVulnerable p k inf :
  Annotated (AddVulnerable p k inf) = Annotated inf ∪ {[ p ]}.
Proof.
  unfold Annotated. rewrite Vulnerable_AddVulnerable.
  unfold Reversible, Dominated; simpl. set_solver.
Qed.

Lemma Annotated_AddReversible p r inf :
  Annotated (AddReversible p r inf) = Annotated inf ∪ {[ p ]}.
Proof.
  unfold Annotated, Vulnerable, Reversible, Dominated; simpl.
  rewrite keys_union, keys_singleton. set_solver.
Qed.

Lemma Annotated_AddDominated p d inf :
  Annotated (AddDominated p d inf) = Annotated inf ∪ {[ p ]}.
Proof.
  unfold Annotated, Vulnerable, Reversible, Dominated; simpl.
  rewrite keys_union, keys_singleton. set_solver.
Qed.

Lemma Annotated_ClearVulnerable inf :
  Annotated (ClearVulnerable inf) ⊆ Annotated inf.
Proof.
  unfold Annotated, Vulnerable, Reversible, Dominated; simpl.
  rewrite keys_empty. set_solver.
Qed.

Lemma Dead_AddDead s inf : Dead (AddDead s inf) = Dead inf ∪ s.
Proof. done. Qed.

Lemma Captured_AddDead c s inf : Captured c (AddDead s inf) = Captured c inf.
Proof. by destruct c. Qed.

Lemma Dead_AddCaptured c s inf : Dead (AddCaptured c s inf) = Dead inf.
Proof. by destruct c. Qed.

Lemma Captured_AddCaptured c c' s inf :
  isBlackWhite c = true →
  Captured c' (AddCaptured c s inf) =
  if decide (c' = c) then Captured c' inf ∪ s else Captured c' inf.
Proof. destruct c, c'; try done; simpl; intros _; set_solver. Qed.

Lemma Dead_AddPermInf c s car inf : Dead (AddPermInf c s car inf) = Dead inf.
Proof. by destruct c. Qed.

Lemma Captured_AddPermInf c c' s car inf :
  Captured c' (AddPermInf c s car inf) = Captured c' inf.
Proof. by destruct c, c'. Qed.

(** The fill-in part of the accumulator: what the annotations leave
    alone. *)
Definition same_fillin (inf inf' : InferiorCells) : Prop :=
  m_dead inf' = m_dead inf
  ∧ m_captured_black inf' = m_captured_black inf
  ∧ m_captured_white inf' = m_captured_white inf
  ∧ m_perm_inf_black inf' = m_perm_inf_black inf
  ∧ m_perm_inf_white inf' = m_perm_inf_white inf
  ∧ m_perm_inf_carrier_black inf' = m_perm_inf_carrier_black inf
  ∧ m_perm_inf_carrier_white inf' = m_perm_inf_carrier_white inf.

Lemma same_fillin_refl inf : same_fillin inf inf.
Proof. by repeat split. Qed.

Lemma same_fillin_trans i1 i2 i3 :
  same_fillin i1 i2 → same_fillin i2 i3 → same_fillin i1 i3.
Proof. unfold same_fillin. intuition congruence. Qed.

Lemma same_fillin_Dead inf inf' : same_fillin inf inf' → Dead inf' = Dead inf.
Proof. by intros [? _]. Qed.

Lemma same_fillin_Captured c inf inf' :
  same_fillin inf inf' → Captured c inf' = Captured c inf.
Proof. intros (? & ? & ? & _). by destruct c. Qed.
End InfFacts.

(** ** Fill-in steps

    Everything the engine does to a board and its accumulator is one of
    four steps: filling in dead cells, filling in captured cells, filling in
    permanently inferior cells, or changing the annotations.  With [strong]
    the captured cells are known to be empty, which is the case when the
    carriers of the patterns are. *)
Section Steps.
Context `{ConstBoard}.
Import Inf InfFacts.

Inductive fill_step (strong : bool)
  : StoneBoard * InferiorCells → StoneBoard * InferiorCells → Prop :=
| step_dead brd inf s :
    s ⊆ getEmpty brd →
    fill_step strong (brd, inf) (addColor DEAD_COLOR s brd, AddDead s inf)
| step_captured brd inf c s :
    isBlackWhite c = true → (strong = true → s ⊆ getEmpty brd) →
    fill_step strong (brd, inf) (addColor c s brd, AddCaptured c s inf)
| step_perm_inf brd inf c s car :
    isBlackWhite c = true → s ⊆ getEmpty brd →
    fill_step strong (brd, inf) (addColor c s brd, AddPermInf c s car inf)
| step_annotate brd inf inf' :
    same_fillin inf inf' → Annotated inf' ⊆ Annotated inf ∪ getEmpty brd →
    fill_step strong (brd, inf) (brd, inf').

Definition fill_steps (strong : bool) := rtc (fill_step strong).

Lemma fill_steps_refl strong x : fill_steps strong x x.
Proof. apply rtc_refl. Qed.

Lemma fill_steps_trans strong x y z :
  fill_steps strong x y → fill_steps strong y z → fill_steps strong x z.
Proof. apply rtc_trans. Qed.

Lemma fill_steps_once strong x y : fill_step strong x y → fill_steps strong x y.
Proof. apply rtc_once. Qed.

Lemma fill_step_fills strong x y : fill_step strong x y → fills x.1 y.1.
Proof. destruct 1; simpl; auto using addColor_fills, fills_refl. Qed.

Lemma fill_steps_fills strong x y : fill_steps strong x y → fills x.1 y.1.
Proof.
  induction 1 as [|x y z Hxy _ IH]; [apply fills_refl|].
  eapply fills_trans; [by eapply fill_step_fills|done].
Qed.

(** The dead cells recorded by fill-in steps were empty at the start. *)
Lemma fill_steps_dead strong x y :
  fill_steps strong x y → Dead y.2 ⊆ Dead x.2 ∪ getEmpty x.1.
Proof.
  induction 1 as [|x y z Hxy Hyz IH]; [set_solver|].
  pose proof (fills_empty _ _ (fill_step_fills _ _ _ Hxy)) as Hsub.
  etrans; [exact IH|].
  destruct Hxy as [brd inf s Hs|brd inf c s Hc Hs|brd inf c s car Hc Hs
                  |brd inf inf' Hsame Hann]; cbn [fst snd] in *.
  - rewrite Dead_AddDead. set_solver.
  - rewrite Dead_AddCaptured. set_solver.
  - rewrite Dead_AddPermInf. set_solver.
  - rewrite (same_fillin_Dead _ _ Hsame). set_solver.
Qed.

(** The invariant of the engine: the dead and the captured cells of the
    two colours are pairwise disjoint and occupied on the board, and the
    annotated cells are empty on the board. *)
Record ice_invariant (brd : StoneBoard) (inf : InferiorCells) : Prop := {
  inv_dead_black : Dead inf ## Captured BLACK inf;
  inv_dead_white : Dead inf ## Captured WHITE inf;
  inv_black_white : Captured BLACK inf ## Captured WHITE inf;
  inv_occupied :
    (Dead inf ∪ Captured BLACK inf ∪ Captured WHITE inf) ## getEmpty brd;
  inv_annotated : Annotated inf ⊆ getEmpty brd;
}.

Lemma ice_invariant_Empty brd : ice_invariant brd Empty.
Proof. split; unfold Annotated, Vulnerable, Reversible, Dominated; set_solver. Qed.

Hypothesis dead_color : isBlackWhite DEAD_COLOR = true.

Lemma fill_step_invariant x y :
  fill_step true x y → ice_invariant x.1 x.2 → ice_invariant y.1 y.2.
Proof.
  destruct 1 as [brd inf s Hs|brd inf c s Hc Hs|brd inf c s car Hc Hs
                |brd inf inf' Hsame Hann]; cbn [fst snd];
    intros [H1 H2 H3 H4 H5].
  - split.
    + rewrite Dead_AddDead, Captured_AddDead. set_solver.
    + rewrite Dead_AddDead, Captured_AddDead. set_solver.
    + by rewrite !Captured_AddDead.
    + rewrite Dead_AddDead, !Captured_AddDead, getEmpty_addColor by done.
      set_solver.
    + rewrite Annotated_AddDead, getEmpty_addColor by done. set_solver.
  - specialize (Hs eq_refl). split.
    + rewrite Dead_AddCaptured, Captured_AddCaptured by done.
      case_decide; set_solver.
    + rewrite Dead_AddCaptured, Captured_AddCaptured by done.
      case_decide; set_solver.
    + rewrite !Captured_AddCaptured by done.
      repeat case_decide; set_solver.
    + rewrite Dead_AddCaptured, !Captured_AddCaptured, getEmpty_addColor by done.
      repeat case_decide; set_solver.
    + rewrite Annotated_AddCaptured, getEmpty_addColor by done. set_solver.
  - split.
    + by rewrite Dead_AddPermInf, Captured_AddPermInf.
    + by rewrite Dead_AddPermInf, Captured_AddPermInf.
    + by rewrite !Captured_AddPermInf.
    + rewrite Dead_AddPermInf, !Captured_AddPermInf, getEmpty_addColor by done.
      set_solver.
    + rewrite Annotated_AddPermInf, getEmpty_addColor by done. set_solver.
  - split.
    + by rewrite (same_fillin_Dead _ _ Hsame), (same_fillin_Captured _ _ _ Hsame).
    + by rewrite (same_fillin_Dead _ _ Hsame), (same_fillin_Captured _ _ _ Hsame).
    + by rewrite !(same_fillin_Captured _ _ _ Hsame).
    + by rewrite (same_fillin_Dead _ _ Hsame), !(same_fillin_Captured _ _ _ Hsame).
    + set_solver.
Qed.

Lemma fill_steps_invariant x y :
  fill_steps true x y → ice_invariant x.1 x.2 → ice_invariant y.1 y.2.
Proof.
  induction 1 as [|x y z Hxy _ IH]; [done|].
  intros Hx. apply IH. by eapply fill_step_invariant.
Qed.
End Steps.

(** ** The searches of the engine *)

(** The well-formedness of the pattern table that the invariant rests on:
    the carrier of a captured or vulnerable pattern that matches at an
    empty cell consists of empty cells. *)
Definition carriers_empty `{ConstBoard} `{PatternState} : Prop :=
  ∀ c brd p mode hit q,
    p ∈ getEmpty brd →
    hit ∈ MatchOnCell (HashedCaptured c) brd p mode
    ∨ hit ∈ MatchOnCell (HashedVulnerable c) brd p mode →
    q ∈ moves2 hit → q ∈ getEmpty brd.

Section SearchFacts.
Context `{ConstBoard} `{GroupBuilder} `{PatternState}.
Import Inf InfFacts.

Variable ice : ICEngine.

Lemma MatchOnBoard_subseteq brd consider pats mode :
  MatchOnBoard brd consider pats mode ⊆ consider.
Proof. unfold MatchOnBoard. set_solver. Qed.

Lemma FindDead_subseteq brd consider : FindDead brd consider ⊆ consider.
Proof. apply MatchOnBoard_subseteq. Qed.

Lemma FindCaptured_spec brd c consider :
  let captured := FindCaptured brd c consider in
  (captured ≠ ∅ → ∃ p, p ∈ consider ∧ p ∈ captured)
  ∧ (carriers_empty → consider ⊆ getEmpty brd → captured ⊆ getEmpty brd).
Proof.
  unfold FindCaptured.
  apply (foldl_invariant
           (λ captured : gset nat,
              (captured ≠ ∅ → ∃ p, p ∈ consider ∧ p ∈ captured)
              ∧ (carriers_empty → consider ⊆ getEmpty brd →
                 captured ⊆ getEmpty brd))).
  { split; [done|set_solver]. }
  intros captured p Hp%elem_of_BitsetIterator [IH1 IH2].
  case_decide; [done|].
  destruct (MatchOnCell _ _ _ _) as [|hit hits] eqn:Hhits; [done|].
  destruct (none _) eqn:Hnone; [|done].
  split.
  - intros _. destruct (decide (captured = ∅)) as [->|Hne].
    + exists p. set_solver.
    + destruct (IH1 Hne) as (q & ? & ?). exists q. set_solver.
  - intros Hcar Hsub. specialize (IH2 Hcar Hsub).
    apply union_subseteq. split; [done|].
    apply union_subseteq. split; [|set_solver].
    intros q Hq%elem_of_of_list.
    eapply (Hcar c brd p STOP_AT_FIRST_HIT hit q); [set_solver| |done].
    left. rewrite Hhits. left.
Qed.

Lemma ComputeEdgeUnreachableRegions_subseteq brd c stop f1 f2 :
  ComputeEdgeUnreachableRegions brd c stop f1 f2 ⊆ getEmpty brd.
Proof. unfold ComputeEdgeUnreachableRegions. set_solver. Qed.

(** A fold that adds unreachable regions stays within the empty cells. *)
Ltac within_empty :=
  repeat first
    [ assumption
    | apply ComputeEdgeUnreachableRegions_subseteq
    | apply empty_subseteq
    | apply union_least
    | match goal with
      | |- foldl _ _ _ ⊆ _ => apply foldl_subseteq; [|intros ? ? _ ?]
      | |- (let '(_, _) := ?x in _) ⊆ _ => destruct x
      | |- (if ?b then _ else _) ⊆ _ => destruct b
      end
    | progress cbv zeta ].

Lemma ComputeDeadRegions_subseteq brd groups :
  ComputeDeadRegions brd groups ⊆ getEmpty brd.
Proof. unfold ComputeDeadRegions. within_empty. done. Qed.

Lemma FindType1Cliques_subseteq brd groups :
  FindType1Cliques brd groups ⊆ getEmpty brd.
Proof. unfold FindType1Cliques. within_empty. Qed.

Lemma FindType2Cliques_subseteq brd groups :
  FindType2Cliques brd groups ⊆ getEmpty brd.
Proof. unfold FindType2Cliques. within_empty. Qed.

Lemma FindType3Cliques_subseteq brd groups :
  FindType3Cliques brd groups ⊆ getEmpty brd.
Proof. unfold FindType3Cliques. within_empty. Qed.

Lemma FindThreeSetCliques_subseteq brd groups :
  FindThreeSetCliques brd groups ⊆ getEmpty brd.
Proof.
  unfold FindThreeSetCliques. destruct (IsGameOver groups); [done|].
  cbv zeta.
  pose proof (FindType1Cliques_subseteq brd groups).
  pose proof (FindType2Cliques_subseteq brd groups).
  pose proof (FindType3Cliques_subseteq brd groups).
  set_solver.
Qed.
End SearchFacts.

(** ** Annotations *)

Section AnnotationFacts.
Context `{ConstBoard} `{GroupBuilder} `{PatternState}.
Import Inf InfFacts.

Variable ice : ICEngine.

(** The entries of a vulnerable map lie within [E]: the cells, and with
    [strong] their carriers. *)
Definition entries_within (strong : bool) (E : gset nat)
    (X : gset (nat * (nat * gset nat))) : Prop :=
  ∀ e, e ∈ X → e.1 ∈ E ∧ (strong = true → carrier e.2 ⊆ E).

(** [annotates E inf inf']: [inf'] is [inf] with annotations added at
    cells of [E]. *)
Definition annotates (E : gset nat) (inf inf' : InferiorCells) : Prop :=
  same_fillin inf inf' ∧ Annotated inf' ⊆ Annotated inf ∪ E.

Lemma annotates_refl E inf : annotates E inf inf.
Proof. split; [apply same_fillin_refl|set_solver]. Qed.

Lemma annotates_trans E i1 i2 i3 :
  annotates E i1 i2 → annotates E i2 i3 → annotates E i1 i3.
Proof.
  intros [? ?] [? ?]. split; [by eapply same_fillin_trans|set_solver].
Qed.

Lemma annotates_mono E E' i1 i2 : E ⊆ E' → annotates E i1 i2 → annotates E' i1 i2.
Proof. intros ? [? ?]. split; [done|set_solver]. Qed.

Lemma annotates_AddVulnerable E p k inf :
  p ∈ E → annotates E inf (AddVulnerable p k inf).
Proof.
  intros. split; [by repeat split|]. rewrite Annotated_AddVulnerable. set_solver.
Qed.

Lemma annotates_AddReversible E p r inf :
  p ∈ E → annotates E inf (AddReversible p r inf).
Proof.
  intros. split; [by repeat split|]. rewrite Annotated_AddReversible. set_solver.
Qed.

Lemma annotates_AddDominated E p d inf :
  p ∈ E → annotates E inf (AddDominated p d inf).
Proof.
  intros. split; [by repeat split|]. rewrite Annotated_AddDominated. set_solver.
Qed.

Lemma annotates_ClearVulnerable E inf : annotates E inf (ClearVulnerable inf).
Proof.
  split; [by repeat split|]. pose proof (Annotated_ClearVulnerable inf). set_solver.
Qed.

Lemma annotates_step strong brd inf inf' :
  annotates (getEmpty brd) inf inf' → fill_steps strong (brd, inf) (brd, inf').
Proof. intros [? ?]. by apply fill_steps_once, step_annotate. Qed.

(** A fold of annotating steps annotates. *)
Lemma annotates_foldl {A} E (f : InferiorCells → A → InferiorCells) l inf :
  (∀ inf x, x ∈ l → annotates E inf (f inf x)) → annotates E inf (foldl f inf l).
Proof.
  intros Hf.
  apply (foldl_invariant (λ inf', annotates E inf inf')); [apply annotates_refl|].
  intros inf' x Hx Hinf. eapply annotates_trans; [done|by apply Hf].
Qed.

Lemma FindVulnerable_annotates brd color consider inf :
  annotates consider inf (FindVulnerable ice brd color consider inf).
Proof.
  unfold FindVulnerable. cbv zeta.
  apply annotates_foldl. intros inf1 p Hp%elem_of_BitsetIterator.
  apply annotates_foldl. intros inf2 hit _.
  apply annotates_AddVulnerable. by eapply MatchOnBoard_subseteq.
Qed.

Lemma FindVulnerable_entries strong brd color consider inf :
  (strong = true → carriers_empty) → consider ⊆ getEmpty brd →
  entries_within strong (getEmpty brd) (m_vulnerable inf) →
  entries_within strong (getEmpty brd)
    (m_vulnerable (FindVulnerable ice brd color consider inf)).
Proof.
  intros Hcar Hsub Hok0. unfold FindVulnerable. cbv zeta.
  set (mode := if m_find_all_pattern_killers ice then _ else _).
  apply (foldl_invariant
           (λ inf, entries_within strong (getEmpty brd) (m_vulnerable inf)));
    [done|].
  intros inf1 p Hp%elem_of_BitsetIterator.
  assert (p ∈ getEmpty brd) as Hpe.
  { apply Hsub. by eapply MatchOnBoard_subseteq. }
  intros Hok1.
  apply (foldl_invariant
           (λ inf, entries_within strong (getEmpty brd) (m_vulnerable inf)));
    [done|].
  intros inf2 hit Hhit Hok.
  intros e [He|He%elem_of_singleton]%elem_of_union; [by apply Hok|].
  subst e. simpl. split; [done|].
  intros Hs q Hq%elem_of_of_list.
  eapply (Hcar Hs color brd p mode hit q); [done| |done].
  by right.
Qed.

Lemma FindReversible_annotates brd color consider inf :
  annotates consider inf (FindReversible ice brd color consider inf).
Proof.
  unfold FindReversible. cbv zeta.
  apply annotates_foldl. intros inf1 p Hp%elem_of_BitsetIterator.
  apply annotates_foldl. intros inf2 hit _.
  eapply annotates_trans.
  { apply annotates_AddReversible. by eapply MatchOnBoard_subseteq. }
  apply annotates_foldl. intros inf3 q _.
  case_decide; [by apply annotates_AddReversible|apply annotates_refl].
Qed.

Lemma CheckHandCodedDominates_annotates brd color pat consider inf :
  annotates consider inf (CheckHandCodedDominates brd color pat consider inf).
Proof.
  assert (∀ pat' inf',
            annotates consider inf'
              (if test consider (dominatee pat') && check pat' brd
               then AddDominated (dominatee pat') (dominator pat') inf'
               else inf')) as Hone.
  { intros pat' inf'. destruct (test consider _) eqn:Ht; simpl;
      [|apply annotates_refl].
    destruct (check _ _); [|apply annotates_refl].
    by apply annotates_AddDominated, test_true. }
  unfold CheckHandCodedDominates. case_decide; [apply annotates_refl|].
  cbv zeta. eapply annotates_trans; apply Hone.
Qed.

Lemma FindDominated_annotates brd color consider inf :
  annotates consider inf (FindDominated ice brd color consider inf).
Proof.
  unfold FindDominated. cbv zeta.
  assert (∀ inf1, annotates consider inf1
            (if m_use_handcoded_patterns ice
             then FindHandCodedDominated brd color consider inf1 else inf1)) as Hhand.
  { intros inf1. destruct (m_use_handcoded_patterns ice); [|apply annotates_refl].
    unfold FindHandCodedDominated. case_decide; [apply annotates_refl|].
    apply annotates_foldl. intros. apply CheckHandCodedDominates_annotates. }
  eapply annotates_trans; [|apply Hhand].
  apply annotates_foldl. intros inf1 p Hp%elem_of_BitsetIterator.
  apply annotates_foldl. intros inf2 hit _.
  apply annotates_AddDominated. by eapply MatchOnBoard_subseteq.
Qed.

(** The entries of the vulnerable map, as a list. *)
Lemma elem_of_VulnerableEntries inf e :
  e ∈ VulnerableEntries inf ↔ e ∈ m_vulnerable inf.
Proof.
  unfold VulnerableEntries. rewrite merge_sort_Permutation. apply elem_of_elements.
Qed.

(** The cells of the presimplicial pairs: each is a vulnerable cell or a
    cell of a carrier, and if there is one at all, one of them is a
    vulnerable cell. *)
Lemma FindPresimplicialPairs_spec inf :
  let fillin := FindPresimplicialPairs inf in
  (∀ x, x ∈ fillin → ∃ e, e ∈ m_vulnerable inf ∧ (x = e.1 ∨ x ∈ carrier e.2))
  ∧ (fillin ≠ ∅ → ∃ p, p ∈ Vulnerable inf ∧ p ∈ fillin).
Proof.
  unfold FindPresimplicialPairs. cbv zeta.
  set (es := VulnerableEntries inf).
  apply (foldl_invariant
           (λ fillin : gset nat,
              (∀ x, x ∈ fillin →
                    ∃ e, e ∈ m_vulnerable inf ∧ (x = e.1 ∨ x ∈ carrier e.2))
              ∧ (fillin ≠ ∅ → ∃ p, p ∈ Vulnerable inf ∧ p ∈ fillin))).
  { split; set_solver. }
  intros fillin e He%elem_of_VulnerableEntries [IH1 IH2].
  unfold presimplicial_step. cbv zeta.
  repeat (case_decide; [by split|]).
  destruct (List.find _ es) as [e2|] eqn:Hfind; [|by split].
  apply find_some in Hfind as [He2%list_elem_of_In%elem_of_VulnerableEntries Hb].
  apply andb_prop in Hb as [[Hy%bool_decide_eq_true _]%andb_prop _].
  split.
  - intros x Hx. apply elem_of_union in Hx as [Hx|Hx]; [by apply IH1|].
    apply elem_of_union in Hx as [Hx|Hx].
    + apply elem_of_union in Hx as [Hx|Hx]; [exists e|exists e2]; auto.
    + apply elem_of_union in Hx as [Hx|Hx]; apply elem_of_singleton in Hx;
        subst x.
      * exists e. auto.
      * exists e2. split; [done|]. left. by rewrite Hy.
  - intros _. exists e.1. split; [|set_solver].
    apply elem_of_keys. exists e.2. by destruct e.
Qed.
End AnnotationFacts.

(** ** The passes of the engine *)

Section PassFacts.
Context `{ConstBoard} `{GroupBuilder} `{PatternState}.
Import Inf InfFacts.

Variable ice : ICEngine.
Variable strong : bool.

Hypothesis dead_color : isBlackWhite DEAD_COLOR = true.
Hypothesis carriers : strong = true → carriers_empty.

(** What a filling pass does: fill-in steps, and if it counts a cell
    filled in, there are fewer empty cells than before. *)
Definition pass_ok (brd : StoneBoard) (inf : InferiorCells)
    (r : StoneBoard * InferiorCells * nat) : Prop :=
  fill_steps strong (brd, inf) r.1
  ∧ (0 < r.2 → size (getEmpty r.1.1) < size (getEmpty brd)).

Lemma UseGraphTheoryToFindDeadVulnerable_spec color brd inf :
  let r := UseGraphTheoryToFindDeadVulnerable color brd inf in
  fill_steps strong (brd, inf) r
  ∧ (m_vulnerable inf = ∅ →
     entries_within strong (getEmpty r.1) (m_vulnerable r.2)).
Proof.
  unfold UseGraphTheoryToFindDeadVulnerable. cbv zeta.
  set (groups := Build brd).
  set (consider := getEmpty brd ∖ _).
  set (body := λ (acc : gset nat * InferiorCells) (p : nat), _).
  assert (let acc := foldl body (∅, inf) (BitsetIterator consider) in
          acc.1 ⊆ getEmpty brd
          ∧ annotates (getEmpty brd) inf acc.2
          ∧ (m_vulnerable inf = ∅ →
             ∀ e, e ∈ m_vulnerable acc.2 →
                  e.1 ∈ getEmpty brd ∧ carrier e.2 = ∅)) as Hfold.
  { apply (foldl_invariant
             (λ acc : gset nat * InferiorCells,
                acc.1 ⊆ getEmpty brd
                ∧ annotates (getEmpty brd) inf acc.2
                ∧ (m_vulnerable inf = ∅ →
                   ∀ e, e ∈ m_vulnerable acc.2 →
                        e.1 ∈ getEmpty brd ∧ carrier e.2 = ∅))).
    { cbn [fst snd]. split; [set_solver|]. split; [apply annotates_refl|].
      intros Hemp e He. rewrite Hemp in He. set_solver. }
    intros [simp inf1] p Hp%elem_of_BitsetIterator (IH1 & IH2 & IH3).
    assert (p ∈ getEmpty brd) as Hpe by set_solver.
    unfold body. destruct (examine color brd groups p) as [found killers].
    cbn [fst snd] in *. split; [destruct found; set_solver|]. split.
    - eapply annotates_trans; [done|].
      apply annotates_foldl. intros. by apply annotates_AddVulnerable.
    - intros Hemp. specialize (IH3 Hemp).
      apply (foldl_invariant
               (λ inf2, ∀ e, e ∈ m_vulnerable inf2 →
                             e.1 ∈ getEmpty brd ∧ carrier e.2 = ∅)); [done|].
      intros inf2 k _ Hinf2 e [He|He%elem_of_singleton]%elem_of_union;
        [by apply Hinf2|by subst e]. }
  destruct (foldl body _ _) as [simplicial inf1].
  cbn [fst snd] in Hfold. destruct Hfold as (Hs & Hann & Hent).
  destruct (any simplicial) eqn:Hany; cbn [fst snd].
  - split.
    + eapply fill_steps_trans; [by apply annotates_step|].
      by apply fill_steps_once, step_dead.
    + intros Hemp e He. unfold AddDead in He; simpl in He.
      apply elem_of_filter in He as [Hns He].
      destruct (Hent Hemp e He) as [Hk Hc].
      rewrite getEmpty_addColor by done. split; [set_solver|].
      intros _. rewrite Hc. set_solver.
  - split; [by apply annotates_step|].
    intros Hemp e He. destruct (Hent Hemp e He) as [Hk Hc].
    split; [done|]. intros _. rewrite Hc. set_solver.
Qed.

Lemma FillInVulnerable_ok color brd inf ctc :
  isBlackWhite color = true →
  pass_ok brd inf (FillInVulnerable ice color brd inf ctc).
Proof.
  intros Hcolor. unfold FillInVulnerable. cbv zeta.
  pose proof (UseGraphTheoryToFindDeadVulnerable_spec color brd
                (ClearVulnerable inf)) as Hgraph.
  destruct (UseGraphTheoryToFindDeadVulnerable color brd (ClearVulnerable inf))
    as [brd1 inf1].
  cbv zeta in Hgraph. cbn [fst snd] in Hgraph.
  destruct Hgraph as [Hsteps Hent]. specialize (Hent eq_refl).
  set (consider := getEmpty brd1 ∖ Dead inf1).
  assert (consider ⊆ getEmpty brd1) as Hcons by set_solver.
  pose proof (FindVulnerable_annotates ice brd1 color consider inf1) as Hann.
  pose proof (FindVulnerable_entries ice strong brd1 color consider inf1
                carriers Hcons Hent) as Hent2.
  set (inf2 := FindVulnerable ice brd1 color consider inf1) in *.
  assert (fill_steps strong (brd, inf) (brd1, inf2)) as Hsteps2.
  { eapply fill_steps_trans;
      [by apply annotates_step, annotates_ClearVulnerable|].
    eapply fill_steps_trans; [done|].
    by eapply annotates_step, annotates_mono. }
  assert (size (getEmpty brd1) ≤ size (getEmpty brd)) as Hsize.
  { apply fills_size. by apply (fill_steps_fills _ _ _ Hsteps2). }
  destruct (HexColorSetUtil.InSet (opp color) ctc);
    [|split; cbn [fst snd]; [done|lia]].
  pose proof (FindPresimplicialPairs_spec inf2) as [Hin Hkey].
  set (captured := FindPresimplicialPairs inf2) in *.
  destruct (any captured) eqn:Hany.
  - assert (isBlackWhite (opp color) = true) as Hopp by by destruct color.
    split; cbn [fst snd].
    + eapply fill_steps_trans; [done|].
      apply fill_steps_once, step_captured; [done|].
      intros Hs x Hx. destruct (Hin x Hx) as (e & He & [->|Hc]).
      * exact (proj1 (Hent2 e He)).
      * exact (proj2 (Hent2 e He) Hs x Hc).
    + intros _. apply any_true in Hany.
      destruct (Hkey Hany) as (p & [k Hp]%elem_of_keys & Hpc).
      pose proof (proj1 (Hent2 _ Hp)) as Hpe. simpl in Hpe.
      pose proof (addColor_size_lt (opp color) captured brd1 p Hopp Hpc Hpe).
      lia.
  - apply any_false in Hany. split; cbn [fst snd]; [done|].
    rewrite Hany, size_empty. lia.
Qed.

Lemma FillinPermanentlyInferior_ok color brd out ctc :
  isBlackWhite color = true →
  pass_ok brd out (FillinPermanentlyInferior ice brd color out ctc).
Proof.
  intros Hcolor. unfold FillinPermanentlyInferior.
  destruct (negb (m_find_permanently_inferior ice));
    [split; cbn [fst snd]; [apply fill_steps_refl|lia]|].
  destruct (negb (HexColorSetUtil.InSet color ctc));
    [split; cbn [fst snd]; [apply fill_steps_refl|lia]|].
  unfold FindPermanentlyInferior. cbv zeta.
  set (perm := MatchOnBoard brd (getEmpty brd) (HashedPermInf color) _).
  assert (perm ⊆ getEmpty brd) as Hsub by apply MatchOnBoard_subseteq.
  destruct (any perm) eqn:Hany.
  - split; cbn [fst snd].
    + by apply fill_steps_once, step_perm_inf.
    + intros _. apply addColor_size_lt_sub; [done| |done]. by apply any_true.
  - apply any_false in Hany. split; cbn [fst snd]; [apply fill_steps_refl|].
    rewrite Hany, size_empty. lia.
Qed.

Lemma FillInUnreachable_ok brd out :
  pass_ok brd out (FillInUnreachable ice brd out).
Proof.
  unfold FillInUnreachable. cbv zeta.
  set (notReachable := if m_find_three_sided_dead_regions ice then _ else _).
  assert (notReachable ⊆ getEmpty brd) as Hsub.
  { unfold notReachable.
    pose proof (ComputeDeadRegions_subseteq brd (Build brd)).
    pose proof (FindThreeSetCliques_subseteq brd (Build brd)).
    destruct (m_find_three_sided_dead_regions ice); set_solver. }
  destruct (any notReachable) eqn:Hany.
  - split; cbn [fst snd].
    + by apply fill_steps_once, step_dead.
    + intros _. apply addColor_size_lt_sub; [done| |done]. by apply any_true.
  - apply any_false in Hany. split; cbn [fst snd]; [apply fill_steps_refl|].
    rewrite Hany, size_empty. lia.
Qed.

Lemma ComputeDeadCaptured_loop_ok fuel brd inf count ctc :
  size (getEmpty brd) < fuel →
  ∃ brd' inf' count',
    ComputeDeadCaptured_loop fuel brd inf count ctc = Some (brd', inf', count')
    ∧ fill_steps strong (brd, inf) (brd', inf')
    ∧ count ≤ count'
    ∧ (count < count' → size (getEmpty brd') < size (getEmpty brd)).
Proof.
  revert brd inf count. induction fuel as [|fuel IH]; intros brd inf count Hfuel;
    [lia|].
  simpl.
  (* one round that fills in the non-empty set [s] *)
  assert (∀ c s inf1,
            isBlackWhite c = true → s ≠ ∅ →
            (∃ p, p ∈ s ∧ p ∈ getEmpty brd) →
            fill_step strong (brd, inf) (addColor c s brd, inf1) →
            ∃ brd' inf' count',
              ComputeDeadCaptured_loop fuel (addColor c s brd) inf1
                (count + size s) ctc = Some (brd', inf', count')
              ∧ fill_steps strong (brd, inf) (brd', inf')
              ∧ count ≤ count'
              ∧ (count < count' → size (getEmpty brd') < size (getEmpty brd)))
    as Hround.
  { intros c s inf1 Hc Hne (p & Hps & Hpe) Hstep.
    pose proof (addColor_size_lt c s brd p Hc Hps Hpe) as Hlt.
    destruct (IH (addColor c s brd) inf1 (count + size s)) as
      (brd' & inf' & count' & Heq & Hsteps & Hle & Hstrict); [lia|].
    exists brd', inf', count'. split; [done|]. split.
    { eapply rtc_l; [exact Hstep|exact Hsteps]. }
    split; [lia|]. intros _.
    pose proof (fills_size _ _ (fill_steps_fills _ _ _ Hsteps)) as Hsz.
    cbn [fst snd] in Hsz. lia. }
  pose proof (FindDead_subseteq brd (getEmpty brd)) as Hdead.
  destruct (any (FindDead brd (getEmpty brd))) eqn:Hany.
  { apply any_true in Hany. apply (Hround DEAD_COLOR); [done|done| |].
    - apply set_choose_L in Hany as [p Hp]. exists p. set_solver.
    - by apply step_dead. }
  clear Hany Hdead.
  set (black := if HexColorSetUtil.InSet BLACK ctc then _ else _).
  destruct (any black) eqn:Hany.
  { apply any_true in Hany. apply (Hround BLACK); [done|done| |].
    - unfold black in *. destruct (HexColorSetUtil.InSet BLACK ctc); [|done].
      destruct (proj1 (FindCaptured_spec brd BLACK (getEmpty brd)) Hany)
        as (p & ? & ?). eauto.
    - apply step_captured; [done|]. intros Hs.
      unfold black. destruct (HexColorSetUtil.InSet BLACK ctc); [|set_solver].
      apply FindCaptured_spec; auto. }
  clear Hany.
  set (white := if HexColorSetUtil.InSet WHITE ctc then _ else _).
  destruct (any white) eqn:Hany.
  { apply any_true in Hany. apply (Hround WHITE); [done|done| |].
    - unfold white in *. destruct (HexColorSetUtil.InSet WHITE ctc); [|done].
      destruct (proj1 (FindCaptured_spec brd WHITE (getEmpty brd)) Hany)
        as (p & ? & ?). eauto.
    - apply step_captured; [done|]. intros Hs.
      unfold white. destruct (HexColorSetUtil.InSet WHITE ctc); [|set_solver].
      apply FindCaptured_spec; auto. }
  exists brd, inf, count. split; [done|]. split; [apply fill_steps_refl|].
  split; lia.
Qed.

Lemma ComputeDeadCaptured_ok brd inf ctc :
  ∃ r, ComputeDeadCaptured brd inf ctc = Some r ∧ pass_ok brd inf r.
Proof.
  unfold ComputeDeadCaptured, rounds.
  destruct (ComputeDeadCaptured_loop_ok (S (size (getEmpty brd))) brd inf 0 ctc)
    as (brd' & inf' & count' & Heq & Hsteps & _ & Hstrict); [lia|].
  exists (brd', inf', count'). split; [done|]. by split.
Qed.
End PassFacts.

(** ** [ComputeFillin] and [ComputeInferiorCells] *)

Section FillinFacts.
Context `{ConstBoard} `{GroupBuilder} `{PatternState}.
Import Inf InfFacts.

Variable ice : ICEngine.
Variable default_colors_to_capture : HexColorSet.
Variable strong : bool.

Hypothesis dead_color : isBlackWhite DEAD_COLOR = true.
Hypothesis carriers : strong = true → carriers_empty.

Lemma pass_ok_refl brd inf : pass_ok strong brd inf (brd, inf, 0).
Proof. split; cbn [fst snd]; [apply fill_steps_refl|lia]. Qed.

Lemma pass_ok_then b i b1 i1 c1 b2 i2 c2 :
  pass_ok strong b i (b1, i1, c1) → pass_ok strong b1 i1 (b2, i2, c2) →
  pass_ok strong b i (b2, i2, c1 + c2).
Proof.
  intros [Hs1 Hc1] [Hs2 Hc2]. cbn [fst snd] in *.
  split; cbn [fst snd]; [by eapply fill_steps_trans|].
  pose proof (fills_size _ _ (fill_steps_fills _ _ _ Hs1)).
  pose proof (fills_size _ _ (fill_steps_fills _ _ _ Hs2)).
  cbn [fst snd] in *. intros Hpos.
  destruct (decide (0 < c1)); [specialize (Hc1 ltac:(done)); lia|].
  specialize (Hc2 ltac:(lia)). lia.
Qed.

Lemma ComputeFillin_pass_ok color brd out ctc :
  isBlackWhite color = true →
  ∃ r, ComputeFillin_pass ice color brd out ctc = Some r
       ∧ pass_ok strong brd out r.
Proof.
  intros Hcolor. assert (isBlackWhite (opp color) = true) by by destruct color.
  unfold ComputeFillin_pass.
  destruct (ComputeDeadCaptured_ok strong dead_color carriers brd out ctc)
    as ([[b1 i1] c1] & -> & Hok1).
  cbn [mbind option_bind].
  assert (pass_ok strong b1 i1 (FillinPermanentlyInferior ice b1 color i1 ctc))
    as Hok2 by by apply FillinPermanentlyInferior_ok.
  destruct (FillinPermanentlyInferior ice b1 color i1 ctc) as [[b2 i2] c2].
  assert (pass_ok strong b2 i2
            (FillinPermanentlyInferior ice b2 (opp color) i2 ctc))
    as Hok3 by by apply FillinPermanentlyInferior_ok.
  destruct (FillinPermanentlyInferior ice b2 (opp color) i2 ctc) as [[b3 i3] c3].
  assert (pass_ok strong b3 i3 (FillInVulnerable ice (opp color) b3 i3 ctc))
    as Hok4 by by apply FillInVulnerable_ok.
  destruct (FillInVulnerable ice (opp color) b3 i3 ctc) as [[b4 i4] c4].
  assert (pass_ok strong b4 i4 (FillInVulnerable ice color b4 i4 ctc))
    as Hok5 by by apply FillInVulnerable_ok.
  destruct (FillInVulnerable ice color b4 i4 ctc) as [[b5 i5] c5].
  assert (pass_ok strong b5 i5
            (if m_iterative_dead_regions ice then FillInUnreachable ice b5 i5
             else (b5, i5, 0))) as Hok6.
  { destruct (m_iterative_dead_regions ice);
      [by apply FillInUnreachable_ok|apply pass_ok_refl]. }
  destruct (if m_iterative_dead_regions ice then _ else _) as [[b6 i6] c6].
  eexists. split; [done|].
  repeat (eapply pass_ok_then; [|eassumption]). done.
Qed.

Lemma ComputeFillin_loop_ok fuel color brd out ctc :
  isBlackWhite color = true → size (getEmpty brd) < fuel →
  ∃ brd' out',
    ComputeFillin_loop ice fuel color brd out ctc = Some (brd', out')
    ∧ fill_steps strong (brd, out) (brd', out').
Proof.
  intros Hcolor. revert brd out.
  induction fuel as [|fuel IH]; intros brd out Hfuel; [lia|].
  simpl.
  destruct (ComputeFillin_pass_ok color brd out ctc Hcolor)
    as ([[b1 i1] c1] & -> & [Hsteps Hstrict]).
  cbn [mbind option_bind fst snd] in *.
  case_decide as Hc.
  - by exists b1, i1.
  - destruct (IH b1 i1) as (brd' & out' & Heq & Hsteps'); [lia|].
    exists brd', out'. split; [done|]. by eapply fill_steps_trans.
Qed.

(** [ComputeFillin] comes to an end, and what it does from the cleared
    accumulator is a sequence of fill-in steps. *)
Lemma ComputeFillin_ok color brd out ctc :
  isBlackWhite color = true →
  ∃ brd' out',
    ComputeFillin ice color brd out ctc = Some (brd', out')
    ∧ fill_steps strong (brd, Inf.Empty) (brd', out').
Proof.
  intros Hcolor. unfold ComputeFillin. cbv zeta.
  destruct (ComputeFillin_loop_ok (rounds brd) color brd (Clear out) ctc Hcolor)
    as (b1 & i1 & -> & Hsteps); [unfold rounds; lia|].
  cbn [mbind option_bind].
  destruct (negb (m_iterative_dead_regions ice)); [|by exists b1, i1].
  assert (pass_ok strong b1 i1 (FillInUnreachable ice b1 i1)) as [Hsteps' _]
    by by apply FillInUnreachable_ok.
  destruct (FillInUnreachable ice b1 i1) as [[b2 i2] c2].
  exists b2, i2. split; [done|]. by eapply fill_steps_trans.
Qed.

(** The board on which [BackupOpponentDead] tries the opponent's move at
    [p]. *)
Definition opponent_board (color : HexColor) (board : StoneBoard)
    (p : HexPoint) : StoneBoard :=
  playMove (opp color) p
    (setColor WHITE (getWhite board)
       (setColor BLACK (getBlack board) (startNewGame board))).

Lemma opponent_board_empty color board p :
  getEmpty (opponent_board color board p) ⊆ getEmpty board.
Proof.
  unfold opponent_board, getEmpty, getOccupied.
  destruct color; simpl; set_solver.
Qed.

Lemma BackupOpponentDead_at_ok color board rev dom p out n :
  isBlackWhite color = true →
  ∃ out' n',
    BackupOpponentDead_at ice default_colors_to_capture color board rev dom p
      (out, n) = Some (out', n')
    ∧ annotates (getEmpty board) out out'.
Proof.
  intros Hcolor. unfold BackupOpponentDead_at. cbv zeta.
  fold (opponent_board color board p).
  destruct (ComputeFillin_ok color (opponent_board color board p) Inf.Empty
              default_colors_to_capture Hcolor)
    as (b1 & inf & -> & Hsteps).
  cbn [mbind option_bind].
  pose proof (fill_steps_dead _ _ _ Hsteps) as Hdead. cbn [fst snd] in Hdead.
  pose proof (opponent_board_empty color board p) as Hsub.
  set (body := BackupOpponentDead_record _ _ _ _).
  assert (annotates (getEmpty board) out
            (foldl body (out, n) (BitsetIterator (Dead inf))).1) as Hann.
  { apply (foldl_invariant
             (λ acc : InferiorCells * nat, annotates (getEmpty board) out acc.1));
      [apply annotates_refl|].
    intros [out1 n1] d Hd%elem_of_BitsetIterator Hout1.
    unfold body, BackupOpponentDead_record.
    cbn [fst snd] in *.
    destruct (_ && _); [|done]. cbn [fst].
    eapply annotates_trans; [done|].
    apply annotates_AddVulnerable. set_solver. }
  destruct (foldl body _ _) as [out' n']. by exists out', n'.
Qed.

Lemma BackupOpponentDead_ok color board out :
  isBlackWhite color = true →
  ∃ out' n,
    BackupOpponentDead ice default_colors_to_capture color board out
      = Some (out', n)
    ∧ annotates (getEmpty board) out out'.
Proof.
  intros Hcolor. unfold BackupOpponentDead. cbv zeta.
  apply (foldl_invariant
           (λ acc : option (InferiorCells * nat),
              ∃ out' n, acc = Some (out', n)
                        ∧ annotates (getEmpty board) out out')).
  { exists out, 0. split; [done|apply annotates_refl]. }
  intros acc p _ (out1 & n1 & -> & Hann). cbn [mbind option_bind].
  destruct (BackupOpponentDead_at_ok color board (Reversible out)
              (Dominated out) p out1 n1 Hcolor) as (out' & n' & -> & Hann').
  exists out', n'. split; [done|]. by eapply annotates_trans.
Qed.

(** [ComputeInferiorCells] comes to an end, and what it does from the
    cleared accumulator is a sequence of fill-in steps. *)
Lemma ComputeInferiorCells_ok color brd out :
  isBlackWhite color = true →
  ∃ brd' out',
    ComputeInferiorCells ice default_colors_to_capture color brd out
      = Some (brd', out')
    ∧ fill_steps strong (brd, Inf.Empty) (brd', out').
Proof.
  intros Hcolor. unfold ComputeInferiorCells.
  destruct (ComputeFillin_ok color brd out default_colors_to_capture Hcolor)
    as (b1 & i1 & -> & Hsteps).
  cbn [mbind option_bind]. cbv zeta.
  set (i2 := FindReversible ice b1 color _ i1).
  assert (annotates (getEmpty b1) i1 i2) as Hann2.
  { eapply annotates_mono; [|apply FindReversible_annotates]. set_solver. }
  set (i3 := FindDominated ice b1 color _ i2).
  assert (annotates (getEmpty b1) i2 i3) as Hann3.
  { eapply annotates_mono; [|apply FindDominated_annotates]. set_solver. }
  assert (fill_steps strong (brd, Inf.Empty) (b1, i3)) as Hsteps3.
  { eapply fill_steps_trans; [done|].
    apply annotates_step. by eapply annotates_trans. }
  destruct (m_backup_opponent_dead ice); [|by exists b1, i3].
  destruct (BackupOpponentDead_ok color b1 i3 Hcolor) as (i4 & n & -> & Hann4).
  cbn [mbind option_bind]. exists b1, i4. split; [done|].
  eapply fill_steps_trans; [done|]. by apply annotates_step.
Qed.
End FillinFacts.

(** ** The engine on the boards of the game *)

(** The engine's own graph rules, with no pattern file, on the Hex board of
    [w] columns and [h] rows. *)
Module HexEngine.
Import Hex.

Lemma dead_color_ok w h : isBlackWhite (DEAD_COLOR (ConstBoard := board w h)) = true.
Proof. reflexivity. Defined.

Lemma no_patterns_carriers_empty w h :
  carriers_empty (H := board w h) (H0 := no_patterns).
Proof. intros c brd p mode hit q _ [Hhit|Hhit]; inversion Hhit. Defined.

(** Black at a1 and c1, White at b2, on the board of three columns and
    two rows. *)
Definition position : StoneBoard := play 3 2 [(BLACK, 7); (BLACK, 9); (WHITE, 11)].

Definition ComputeFillin32 (color : HexColor) (brd : StoneBoard)
  : option (StoneBoard * InferiorCells) :=
  ComputeFillin (H := board 3 2) (H0 := groups 3 2) (H1 := no_patterns)
    ICEngine_default color brd Inf.Empty ALL_COLORS.
End HexEngine.

(** ** A pattern table for the boards of the game

    A matcher of local patterns on the board of [w] columns and [h] rows,
    with a small table in the place of the pattern file.  A pattern lists
    cells by their offset from the cell it is matched at, in columns and
    rows, each with the colour it must have on the board ([EMPTY] for an
    empty cell, an edge counting as a stone of its colour), and two lists of
    marked cells, the second of which, the carrier, must be empty. *)
Module HexPatterns.
Import Hex.

Record Pattern := mkPattern {
  required : list ((Z * Z) * HexColor);
  marked1 : list (Z * Z);
  marked2 : list (Z * Z);
}.

(** A sixth of a turn around the centre. *)
Definition turn (o : Z * Z) : Z * Z := (- o.2, o.1 + o.2)%Z.

Definition rotate_pattern (pat : Pattern) : Pattern :=
  mkPattern ((λ c, (turn c.1, c.2)) <$> required pat)
            (turn <$> marked1 pat) (turn <$> marked2 pat).

Definition rotations (pat : Pattern) : list Pattern :=
  (λ k, Nat.iter k rotate_pattern pat) <$> seq 0 6.

(** The reflection that exchanges the two cells next to both the centre and
    its eastern neighbour. *)
Definition reflect (o : Z * Z) : Z * Z := (o.1 + o.2, - o.2)%Z.

Definition mirror_pattern (pat : Pattern) : Pattern :=
  mkPattern ((λ c, (reflect c.1, c.2)) <$> required pat)
            (reflect <$> marked1 pat) (reflect <$> marked2 pat).

Definition flip_pattern (pat : Pattern) : Pattern :=
  mkPattern ((λ c, (c.1, opp c.2)) <$> required pat) (marked1 pat) (marked2 pat).

(** The patterns, for Black.  Four neighbours in a row of one colour: the
    cell is dead. *)
Definition dead_cell : Pattern :=
  mkPattern [((1, 0), BLACK); ((1, -1), BLACK); ((0, -1), BLACK);
             ((-1, 0), BLACK)]%Z [] [].

(** Two adjacent empty cells, each of which is dead once Black has played
    the other: both are captured. *)
Definition captured_pair : Pattern :=
  mkPattern [((1, 0), EMPTY); ((1, -1), BLACK); ((0, 1), BLACK);
             ((0, -1), BLACK); ((1, 1), BLACK)]%Z [] [(1, 0)%Z].

(** Three of White's stones in a row next to the cell and an empty cell at
    the end of the row: a black stone at the cell is dead once White has
    played there. *)
Definition vulnerable_cell : Pattern :=
  mkPattern [((1, 0), EMPTY); ((1, -1), WHITE); ((0, -1), WHITE);
             ((-1, 0), WHITE)]%Z [(1, 0)%Z] [].

(** The neighbours of the cell that are not White's are the eastern
    neighbour and neighbours of it: the eastern neighbour dominates. *)
Definition dominated_cell : Pattern :=
  mkPattern [((1, 0), EMPTY); ((0, -1), WHITE); ((-1, 0), WHITE);
             ((-1, 1), WHITE)]%Z [(1, 0)%Z] [].

Definition for_color (c : HexColor) (pats : list Pattern) : list Pattern :=
  match c with
  | BLACK => pats
  | WHITE => flip_pattern <$> pats
  | EMPTY => []
  end.

Definition table (class : PatternClass) : list Pattern :=
  match class with
  | HashedDead => rotations dead_cell ++ rotations (flip_pattern dead_cell)
  | HashedCaptured c =>
      for_color c (rotations captured_pair ++ rotations (mirror_pattern captured_pair))
  | HashedPermInf _ => []
  | HashedVulnerable c =>
      for_color c (rotations vulnerable_cell
                   ++ rotations (mirror_pattern vulnerable_cell))
  | HashedReversible _ => []
  | HashedDominated c => for_color c (rotations dominated_cell)
  end.

Section Matcher.
Variables w h : nat.

(** The point at an offset from the cell [p]; none off the board. *)
Definition point_at (p : HexPoint) (o : Z * Z) : option HexPoint :=
  if bool_decide (FIRST_CELL ≤ p < FIRST_CELL + w * h) then
    let x := (Z.of_nat ((p - FIRST_CELL) `mod` w) + 1 + o.1)%Z in
    let y := (Z.of_nat ((p - FIRST_CELL) `div` w) + 1 + o.2)%Z in
    if bool_decide (0 ≤ x ≤ Z.of_nat (S w) ∧ 0 ≤ y ≤ Z.of_nat (S h))%Z
    then coordsToPoint w h (Z.to_nat x) (Z.to_nat y)
    else None
  else None.

(** A pattern matches at an empty cell if the cells it lists have the
    colours it requires and its carrier is empty. *)
Definition match_pattern (brd : StoneBoard) (p : HexPoint) (pat : Pattern)
  : option PatternHit :=
  if bool_decide (p ∈ getEmpty (H := board w h) brd)
     && forallb (λ c, match point_at p c.1 with
                      | Some q => bool_decide (getColor brd q = c.2)
                      | None => false
                      end) (required pat)
  then
    m1 ← mapM (point_at p) (marked1 pat);
    m2 ← mapM (point_at p) (marked2 pat);
    if forallb (λ q, bool_decide (q ∈ getEmpty (H := board w h) brd)) m2
    then Some (mkPatternHit m1 m2) else None
  else None.

Definition match_on_cell (class : PatternClass) (brd : StoneBoard)
    (p : HexPoint) (mode : MatchMode) : list PatternHit :=
  let hits := omap (match_pattern brd p) (table class) in
  match mode with
  | STOP_AT_FIRST_HIT => take 1 hits
  | MATCH_ALL => hits
  end.

Definition patterns : PatternState := {|
  MatchOnCell := match_on_cell;
  HandCodedPattern := unit;
  dominatee := λ _, INVALID_POINT;
  dominator := λ _, INVALID_POINT;
  check := λ _ _, false;
  mirror := λ x, x;
  rotate := λ x, x;
  flipColors := λ x, x;
  m_hand_coded := [];
|}.

Lemma match_pattern_carrier brd p pat hit q :
  match_pattern brd p pat = Some hit →
  q ∈ moves2 hit → q ∈ getEmpty (H := board w h) brd.
Proof.
  unfold match_pattern.
  destruct (_ && _); [|done].
  destruct (mapM (point_at p) (marked1 pat)) as [m1|]; [|done].
  destruct (mapM (point_at p) (marked2 pat)) as [m2|]; [|done].
  cbn [mbind option_bind].
  destruct (forallb _ m2) eqn:Hall; [|done].
  intros [= <-]. cbn [moves2]. intros Hq.
  rewrite forallb_forall in Hall.
  apply list_elem_of_In in Hq. apply Hall in Hq.
  by apply bool_decide_eq_true in Hq.
Qed.

Lemma patterns_carriers_empty :
  carriers_empty (H := board w h) (H0 := patterns).
Proof.
  intros c brd p mode hit q _ Hhit.
  assert (∃ class, hit ∈ match_on_cell class brd p mode) as [class Hin].
  { destruct Hhit; eauto. }
  clear Hhit. unfold match_on_cell in Hin.
  assert (hit ∈ omap (match_pattern brd p) (table class)) as Hin'.
  { destruct mode; [|done]. revert Hin. apply subseteq_take. }
  apply list_elem_of_omap in Hin' as (pat & _ & Hpat).
  by eapply match_pattern_carrier.
Qed.
End Matcher.

(** Black at a2 and b2, White at d3 and c4, on the board of four columns
    and four rows. *)
Definition position44 : StoneBoard :=
  play 4 4 [(BLACK, 11); (BLACK, 12); (WHITE, 18); (WHITE, 21)].
End HexPatterns.

Section EngineTheorems.
Context `{ConstBoard} `{GroupBuilder} `{PatternState}.
Import Inf InfFacts.

Lemma annotated_step strong x y :
  isBlackWhite DEAD_COLOR = true →
  fill_step strong x y →
  Annotated x.2 ⊆ getEmpty x.1 → Annotated y.2 ⊆ getEmpty y.1.
Proof.
  intros Hdead.
  destruct 1 as [brd inf s Hs|brd inf c s Hc Hs|brd inf c s car Hc Hs
                |brd inf inf' Hsame Hann]; cbn [fst snd]; intros Hinv.
  - rewrite Annotated_AddDead, getEmpty_addColor by done. set_solver.
  - rewrite Annotated_AddCaptured, getEmpty_addColor by done. set_solver.
  - rewrite Annotated_AddPermInf, getEmpty_addColor by done. set_solver.
  - set_solver.
Qed.

Lemma annotated_steps strong x y :
  isBlackWhite DEAD_COLOR = true →
  fill_steps strong x y →
  Annotated x.2 ⊆ getEmpty x.1 → Annotated y.2 ⊆ getEmpty y.1.
Proof.
  intros Hdead. induction 1 as [|x y z Hxy _ IH]; [done|].
  intros Hx. apply IH. by eapply annotated_step.
Qed.
End EngineTheorems.

(** C10: [ICEngine::ComputeInferiorCells] comes back with the board's
    Zobrist hash as it was before the call, for every board and colour to
    play, although it adds the dead and captured cells it finds to the
    board: the stones of the board before the call are still there. *)
Theorem ComputeInferiorCells_hash_unchanged
    `{ConstBoard} `{GroupBuilder} `{PatternState}
    (ice : ICEngine) (default_colors_to_capture : HexColorSet)
    (color : HexColor) (brd : StoneBoard) (out : InferiorCells) :
  isBlackWhite DEAD_COLOR = true →
  isBlackWhite color = true →
  ∃ brd' out',
    ComputeInferiorCells ice default_colors_to_capture color brd out
      = Some (brd', out')
    ∧ Hash brd' = Hash brd
    ∧ getBlack brd ⊆ getBlack brd' ∧ getWhite brd ⊆ getWhite brd'.
Proof.
  intros Hdead Hcolor.
  destruct (ComputeInferiorCells_ok ice default_colors_to_capture false Hdead
              ltac:(done) color brd out Hcolor) as (brd' & out' & Heq & Hsteps).
  exists brd', out'. split; [done|].
  by destruct (fill_steps_fills _ _ _ Hsteps).
Qed.

Lemma ComputeInferiorCells_hash_unchanged_witness :
  isBlackWhite (DEAD_COLOR (ConstBoard := Hex.board 3 2)) = true
  ∧ isBlackWhite BLACK = true
  ∧ ∃ brd' out',
      ComputeInferiorCells (H := Hex.board 3 2) (H0 := Hex.groups 3 2)
        (H1 := Hex.no_patterns) ICEngine_default ALL_COLORS BLACK
        HexEngine.position Inf.Empty = Some (brd', out')
      ∧ Hash brd' = Hash HexEngine.position
      ∧ getBlack HexEngine.position ⊆ getBlack brd'
      ∧ getWhite HexEngine.position ⊆ getWhite brd'.
Proof.
  split; [reflexivity|]. split; [reflexivity|].
  apply ComputeInferiorCells_hash_unchanged; reflexivity.
Defined.



(** On that board the patterns find d4 dead, then a1 and b1 captured for
    Black, then c1 dead; the graph rules capture d1, c2, d2 and c3 for
    White and leave a3 and b4 vulnerable. *)
Example ComputeInferiorCells_position44 :
  (λ r : StoneBoard * InferiorCells,
     (BitsetIterator (Inf.Dead r.2), BitsetIterator (Inf.Captured BLACK r.2),
      BitsetIterator (Inf.Captured WHITE r.2),
      BitsetIterator (Inf.Vulnerable r.2),
      BitsetIterator (getEmpty (H := Hex.board 4 4) r.1)))
  <$> ComputeInferiorCells (H := Hex.board 4 4) (H0 := Hex.groups 4 4)
        (H1 := HexPatterns.patterns 4 4) ICEngine_default ALL_COLORS BLACK
        HexPatterns.position44 Inf.Empty
  = Some ([9; 22], [7; 8], [10; 13; 14; 17], [15; 20], [15; 16; 19; 20]).
Proof. vm_compute. reflexivity. Qed.

(** With Black at d1 and c3 and White at d3 and b4, Black to play, d2 is
    dominated by c2; d4 is dead and a1 and c1 are vulnerable. *)
Example ComputeInferiorCells_dominated :
  (λ r : StoneBoard * InferiorCells,
     (BitsetIterator (Inf.Dead r.2), BitsetIterator (Inf.Vulnerable r.2),
      elements (m_dominated r.2),
      BitsetIterator (getEmpty (H := Hex.board 4 4) r.1)))
  <$> ComputeInferiorCells (H := Hex.board 4 4) (H0 := Hex.groups 4 4)
        (H1 := HexPatterns.patterns 4 4) ICEngine_default ALL_COLORS BLACK
        (Hex.play 4 4 [(BLACK, 10); (BLACK, 17); (WHITE, 18); (WHITE, 20)])
        Inf.Empty
  = Some ([22], [7; 9], [(14, 13)],
          [7; 8; 9; 11; 12; 13; 14; 15; 16; 19; 21]).
Proof. vm_compute. reflexivity. Qed.

Section NoSimplifications.
Context `{ConstBoard} `{GroupBuilder} `{PatternState}.

(** No rule of the engine finds anything on [brd]: each filling function of
    a pass, given the board and the cleared accumulator, hands both back as
    they are and counts no cell. *)
Definition no_simplifications (ice : ICEngine) (color : HexColor)
    (brd : StoneBoard) (colors_to_capture : HexColorSet) : Prop :=
  ComputeDeadCaptured brd Inf.Empty colors_to_capture = Some (brd, Inf.Empty, 0)
  ∧ FillinPermanentlyInferior ice brd color Inf.Empty colors_to_capture
    = (brd, Inf.Empty, 0)
  ∧ FillinPermanentlyInferior ice brd (opp color) Inf.Empty colors_to_capture
    = (brd, Inf.Empty, 0)
  ∧ FillInVulnerable ice (opp color) brd Inf.Empty colors_to_capture
    = (brd, Inf.Empty, 0)
  ∧ FillInVulnerable ice color brd Inf.Empty colors_to_capture
    = (brd, Inf.Empty, 0)
  ∧ FillInUnreachable ice brd Inf.Empty = (brd, Inf.Empty, 0).

#[global] Instance no_simplifications_dec ice color brd ctc :
  Decision (no_simplifications ice color brd ctc).
Proof. unfold no_simplifications. apply _. Defined.

Lemma ComputeFillin_nothing_found ice color brd out ctc :
  no_simplifications ice color brd ctc →
  ComputeFillin ice color brd out ctc = Some (brd, Inf.Clear out).
Proof.
  intros (Ha & Hb & Hc & Hd & He & Hf).
  unfold ComputeFillin, rounds, Inf.Clear. cbv zeta. simpl.
  unfold ComputeFillin_pass. rewrite Ha. cbn [mbind option_bind].
  rewrite Hb, Hc, Hd, He.
  destruct (m_iterative_dead_regions ice); [rewrite Hf|]; simpl.
  - done.
  - by rewrite Hf.
Qed.
End NoSimplifications.

(** C9: [ICEngine::ComputeFillin] never fails: for every input it clears the
    accumulator on entry (what the accumulator held makes no difference) and
    comes to an end; and if none of its rules finds a simplification, it
    hands back the board as it was and the accumulator as cleared. *)
Theorem ComputeFillin_never_fails
    `{ConstBoard} `{GroupBuilder} `{PatternState}
    (ice : ICEngine) (color : HexColor) (brd : StoneBoard)
    (out : InferiorCells) (colors_to_capture : HexColorSet) :
  isBlackWhite DEAD_COLOR = true →
  isBlackWhite color = true →
  (∃ brd' out', ComputeFillin ice color brd out colors_to_capture
                = Some (brd', out'))
  ∧ ComputeFillin ice color brd out colors_to_capture
    = ComputeFillin ice color brd (Inf.Clear out) colors_to_capture
  ∧ (no_simplifications ice color brd colors_to_capture →
     ComputeFillin ice color brd out colors_to_capture
     = Some (brd, Inf.Clear out)).
Proof.
  intros Hdead Hcolor. split; [|split].
  - destruct (ComputeFillin_ok ice false Hdead ltac:(done) color brd out
                colors_to_capture Hcolor) as (brd' & out' & Heq & _).
    by exists brd', out'.
  - done.
  - apply ComputeFillin_nothing_found.
Qed.

Lemma ComputeFillin_never_fails_witness :
  let brd := Hex.play 2 2 [(BLACK, 7); (WHITE, 9); (BLACK, 8)] in
  isBlackWhite (DEAD_COLOR (ConstBoard := Hex.board 2 2)) = true
  ∧ isBlackWhite WHITE = true
  ∧ no_simplifications (H := Hex.board 2 2) (H0 := Hex.groups 2 2)
      (H1 := Hex.no_patterns) ICEngine_default WHITE brd ALL_COLORS
  ∧ ComputeFillin (H := Hex.board 2 2) (H0 := Hex.groups 2 2)
      (H1 := Hex.no_patterns) ICEngine_default WHITE brd
      (Inf.AddDead {[ 10 ]} Inf.Empty) ALL_COLORS
    = Some (brd, Inf.Empty).
Proof.
  intros brd.
  split; [reflexivity|]. split; [reflexivity|].
  assert (no_simplifications (H := Hex.board 2 2) (H0 := Hex.groups 2 2)
            (H1 := Hex.no_patterns) ICEngine_default WHITE brd ALL_COLORS)
    as Hnone.
  { unfold no_simplifications. repeat split; vm_compute; reflexivity. }
  split; [exact Hnone|].
  apply (ComputeFillin_never_fails (H := Hex.board 2 2) (H0 := Hex.groups 2 2)
           (H1 := Hex.no_patterns) ICEngine_default WHITE brd
           (Inf.AddDead {[ 10 ]} Inf.Empty) ALL_COLORS eq_refl eq_refl).
  exact Hnone.
Defined.

(** C4: the code at the input on which the claim fails.  Black a1 and c1,
    White b2, on the board of three columns and two rows, with the engine's
    graph rules: with Black to play, [ComputeFillin] finds b1 dead and
    stops; run again on the board it left, it captures a2 and c2 for Black.
    With White to play, the rules being applied in the other order, the
    first run already finds all three.  The loop of [ComputeFillin] stops on
    a count of zero, and [FillInVulnerable], unlike [ComputeDeadCaptured]
    and [FillInUnreachable], leaves the dead cells it filled in out of its
    count. *)
Lemma ComputeFillin_second_run_finds_more :
  ∃ b1 i1 b2 i2 b1' i1',
    HexEngine.ComputeFillin32 BLACK HexEngine.position = Some (b1, i1)
    ∧ HexEngine.ComputeFillin32 BLACK b1 = Some (b2, i2)
    ∧ HexEngine.ComputeFillin32 WHITE HexEngine.position = Some (b1', i1')
    ∧ BitsetIterator (Inf.Dead i1) = [8]
    ∧ BitsetIterator (Inf.Captured BLACK i1) = []
    ∧ BitsetIterator (Inf.Captured BLACK i2) = [10; 12]
    ∧ BitsetIterator (Inf.Dead i1') = [8]
    ∧ BitsetIterator (Inf.Captured BLACK i1') = [10; 12].
Proof.
  do 6 eexists.
  split; [vm_compute; reflexivity|].
  split; [vm_compute; reflexivity|].
  split; [vm_compute; reflexivity|].
  repeat split; vm_compute; reflexivity.
Qed.

(** [ComputeFillin] leaves the hash of the board alone.  For every
    position, whatever the colour to play, the enabled rules and the colours
    to capture, it comes back with the hash it was given, so that any two
    orders of applying the rules, and a second run on the board the first
    one left, yield the same hash; and no cell becomes empty. *)
Lemma ComputeFillin_same_hash
    `{ConstBoard} `{GroupBuilder} `{PatternState}
    (ice ice' : ICEngine) (color color' : HexColor) (brd : StoneBoard)
    (out out' : InferiorCells) (ctc ctc' : HexColorSet) :
  isBlackWhite DEAD_COLOR = true →
  isBlackWhite color = true →
  isBlackWhite color' = true →
  ∃ b1 i1 b1' i1' b2 i2,
    ComputeFillin ice color brd out ctc = Some (b1, i1)
    ∧ ComputeFillin ice' color' brd out' ctc' = Some (b1', i1')
    ∧ ComputeFillin ice color b1 i1 ctc = Some (b2, i2)
    ∧ Hash b1 = Hash brd ∧ Hash b1' = Hash b1 ∧ Hash b2 = Hash b1
    ∧ getEmpty b1 ⊆ getEmpty brd ∧ getEmpty b2 ⊆ getEmpty b1.
Proof.
  intros Hdead Hcolor Hcolor'.
  destruct (ComputeFillin_ok ice false Hdead ltac:(done) color brd out ctc Hcolor)
    as (b1 & i1 & Heq1 & Hs1).
  destruct (ComputeFillin_ok ice' false Hdead ltac:(done) color' brd out' ctc'
              Hcolor') as (b1' & i1' & Heq1' & Hs1').
  destruct (ComputeFillin_ok ice false Hdead ltac:(done) color b1 i1 ctc Hcolor)
    as (b2 & i2 & Heq2 & Hs2).
  exists b1, i1, b1', i1', b2, i2.
  pose proof (fill_steps_fills _ _ _ Hs1) as F1.
  pose proof (fill_steps_fills _ _ _ Hs1') as F1'.
  pose proof (fill_steps_fills _ _ _ Hs2) as F2.
  cbn [fst snd] in *.
  repeat (split; [done|]).
  pose proof (fills_empty _ _ F1). pose proof (fills_empty _ _ F2).
  destruct F1 as [E1 _ _ _], F1' as [E1' _ _ _], F2 as [E2 _ _ _].
  unfold Hash. rewrite E1, E1', E2. done.
Qed.


(** ** Backing up the opponent's dead cells *)

Section BackupFacts.
Context `{ConstBoard} `{GroupBuilder} `{PatternState}.
Import Inf InfFacts.

Variable ice : ICEngine.
Variable default_colors_to_capture : HexColorSet.

(** The accumulators agree on everything but the vulnerable cells. *)
Definition same_but_vulnerable (inf inf' : InferiorCells) : Prop :=
  same_fillin inf inf'
  ∧ m_reversible inf' = m_reversible inf
  ∧ m_dominated inf' = m_dominated inf.

(** The fill-in found after the opponent's move at [p]: its accumulator,
    its dead cells and the cells it fills in for either colour. *)
Definition fillin_after (color : HexColor) (board : StoneBoard) (p : HexPoint)
  : InferiorCells :=
  from_option snd Inf.Empty
    (ComputeFillin ice color (opponent_board color board p) Inf.Empty
       default_colors_to_capture).

Definition dead_after (color : HexColor) (board : StoneBoard) (p : HexPoint)
  : bitset_t :=
  Dead (fillin_after color board p).

Definition filled_after (color : HexColor) (board : StoneBoard) (p : HexPoint)
  : bitset_t :=
  Fillin DEAD_COLOR BLACK (fillin_after color board p)
  ∪ Fillin DEAD_COLOR WHITE (fillin_after color board p).

(** The killer recorded for [d]: the move [p], with the fill-in after it
    less [d] and [p] as carrier. *)
Definition backup_killer (color : HexColor) (board : StoneBoard)
    (p d : HexPoint) : nat * gset nat :=
  mkVulnerableKiller p (filled_after color board p ∖ {[ d ]} ∖ {[ p ]}).

(** [p] is the first empty cell of the board after whose occupation by the
    opponent the cell [d] is found dead. *)
Definition first_killer (color : HexColor) (board : StoneBoard)
    (p d : HexPoint) : Prop :=
  p ∈ getEmpty board
  ∧ d ∈ dead_after color board p
  ∧ ∀ p', p' ∈ getEmpty board → p' < p → d ∉ dead_after color board p'.

Lemma same_but_vulnerable_refl inf : same_but_vulnerable inf inf.
Proof. split; [apply same_fillin_refl|done]. Qed.

Lemma same_but_vulnerable_trans i1 i2 i3 :
  same_but_vulnerable i1 i2 → same_but_vulnerable i2 i3 →
  same_but_vulnerable i1 i3.
Proof.
  intros (? & ? & ?) (? & ? & ?).
  split; [by eapply same_fillin_trans|split; congruence].
Qed.

Lemma BackupOpponentDead_record_cases rev dom filled p acc d :
  BackupOpponentDead_record rev dom filled p acc d =
  if decide ((d ∉ Vulnerable acc.1) ∧ (d ∉ rev) ∧ (d ∉ dom))
  then (AddVulnerable d (mkVulnerableKiller p (filled ∖ {[ d ]} ∖ {[ p ]})) acc.1,
        S acc.2)
  else acc.
Proof.
  unfold BackupOpponentDead_record.
  destruct (test (Vulnerable acc.1) d) eqn:Hv;
    [apply test_true in Hv|apply test_false in Hv];
  (destruct (test rev d) eqn:Hr;
    [apply test_true in Hr|apply test_false in Hr]);
  (destruct (test dom d) eqn:Hdm;
    [apply test_true in Hdm|apply test_false in Hdm]);
  simpl; case_decide; try done; tauto.
Qed.

Lemma BackupOpponentDead_record_fold rev dom filled p l acc :
  NoDup l →
  let r := foldl (BackupOpponentDead_record rev dom filled p) acc l in
  same_but_vulnerable acc.1 r.1
  ∧ ∀ e, e ∈ m_vulnerable r.1 ↔
      e ∈ m_vulnerable acc.1
      ∨ ∃ d, d ∈ l ∧ (d ∉ Vulnerable acc.1) ∧ (d ∉ rev) ∧ (d ∉ dom)
             ∧ e = (d, mkVulnerableKiller p (filled ∖ {[ d ]} ∖ {[ p ]})).
Proof.
  revert acc. induction l as [|d l IH]; intros acc Hnd; simpl.
  { split; [apply same_but_vulnerable_refl|].
    intros e. split; [by left|]. intros [?|(d & Hd & _)]; [done|].
    by apply elem_of_nil in Hd. }
  apply NoDup_cons in Hnd as [Hd Hnd].
  destruct (IH (BackupOpponentDead_record rev dom filled p acc d) Hnd)
    as [Hsame Hiff]. clear IH.
  set (r := foldl _ _ l) in *. clearbody r.
  rewrite BackupOpponentDead_record_cases in Hsame, Hiff.
  case_decide as Hcond.
  - destruct Hcond as (Hv & Hr & Hdm). cbn [fst snd] in *. split.
    { eapply same_but_vulnerable_trans; [|exact Hsame]. by repeat split. }
    intros e. rewrite Hiff. rewrite Vulnerable_AddVulnerable. simpl.
    split.
    + intros [He|(d' & Hd' & Hv' & ? & ? & ?)].
      * apply elem_of_union in He as [?|He]; [by left|].
        apply elem_of_singleton in He as ->.
        right. exists d. repeat split; auto. by left.
      * right. exists d'. repeat split; auto; [by right|set_solver].
    + intros [?|(d' & Hd' & ? & ? & ? & ->)]; [left; set_solver|].
      apply elem_of_cons in Hd' as [->|Hd']; [left; set_solver|].
      right. exists d'. repeat split; auto. set_solver.
  - split; [done|]. intros e. rewrite Hiff.
    split; intros [?|(d' & Hd' & ? & ? & ? & ?)]; auto; right; exists d'.
    + repeat split; auto. by right.
    + apply elem_of_cons in Hd' as [->|Hd']; [tauto|]. by repeat split.
Qed.

Hypothesis dead_color : isBlackWhite DEAD_COLOR = true.

Lemma BackupOpponentDead_at_spec color board rev dom p acc n :
  isBlackWhite color = true →
  ∃ out' n',
    BackupOpponentDead_at ice default_colors_to_capture color board rev dom p
      (acc, n) = Some (out', n')
    ∧ same_but_vulnerable acc out'
    ∧ ∀ e, e ∈ m_vulnerable out' ↔
        e ∈ m_vulnerable acc
        ∨ ∃ d, d ∈ dead_after color board p
               ∧ (d ∉ Vulnerable acc) ∧ (d ∉ rev) ∧ (d ∉ dom)
               ∧ e = (d, backup_killer color board p d).
Proof.
  intros Hcolor.
  unfold backup_killer, filled_after, dead_after, fillin_after.
  unfold BackupOpponentDead_at. cbv zeta. fold (opponent_board color board p).
  destruct (ComputeFillin_ok ice false dead_color ltac:(done) color
              (opponent_board color board p) Inf.Empty
              default_colors_to_capture Hcolor) as (b1 & inf & -> & _).
  cbn [mbind option_bind from_option snd].
  pose proof (BackupOpponentDead_record_fold rev dom
                (Fillin DEAD_COLOR BLACK inf ∪ Fillin DEAD_COLOR WHITE inf) p
                (BitsetIterator (Dead inf)) (acc, n)) as Hfold.
  destruct (foldl _ (acc, n) _) as [out' n'].
  cbv zeta in Hfold. cbn [fst snd] in Hfold.
  destruct Hfold as [Hsame Hiff].
  { unfold BitsetIterator. rewrite merge_sort_Permutation. apply NoDup_elements. }
  exists out', n'. split; [done|]. split; [done|].
  intros e. rewrite Hiff. by setoid_rewrite elem_of_BitsetIterator.
Qed.

Lemma BackupOpponentDead_fold color board rev dom l acc n :
  isBlackWhite color = true →
  ∃ out' n',
    foldl (λ acc p,
             acc ≫= BackupOpponentDead_at ice default_colors_to_capture color
                      board rev dom p)
          (Some (acc, n)) l = Some (out', n')
    ∧ same_but_vulnerable acc out'
    ∧ ∀ e, e ∈ m_vulnerable out' ↔
        e ∈ m_vulnerable acc
        ∨ ∃ l1 p l2 d,
            l = l1 ++ p :: l2
            ∧ d ∈ dead_after color board p
            ∧ (∀ p', p' ∈ l1 → d ∉ dead_after color board p')
            ∧ (d ∉ Vulnerable acc) ∧ (d ∉ rev) ∧ (d ∉ dom)
            ∧ e = (d, backup_killer color board p d).
Proof.
  intros Hcolor. revert acc n. induction l as [|p l IH]; intros acc n; simpl.
  { exists acc, n. split; [done|]. split; [apply same_but_vulnerable_refl|].
    intros e. split; [by left|]. intros [?|(l1 & p & l2 & d & Heq & _)]; [done|].
    by destruct l1. }
  destruct (BackupOpponentDead_at_spec color board rev dom p acc n Hcolor)
    as (out1 & n1 & -> & Hsame1 & Hiff1).
  destruct (IH out1 n1) as (out' & n' & -> & Hsame & Hiff). clear IH.
  exists out', n'. split; [done|].
  split; [by eapply same_but_vulnerable_trans|].
  assert (∀ d, d ∈ Vulnerable out1 ↔
               d ∈ Vulnerable acc
               ∨ (d ∈ dead_after color board p ∧ (d ∉ rev) ∧ (d ∉ dom))) as Hvul.
  { intros d. unfold Vulnerable. rewrite !elem_of_keys. split.
    - intros [k Hk]. apply Hiff1 in Hk as [Hk|(d' & ? & ? & ? & ? & Heq)];
        [left; eauto|].
      injection Heq as -> _. by right.
    - intros [[k Hk]|(Hd & Hr & Hdm)].
      + exists k. apply Hiff1. by left.
      + destruct (decide (d ∈ Vulnerable acc)) as [[k Hk]%elem_of_keys|Hv].
        * exists k. apply Hiff1. by left.
        * eexists. apply Hiff1. right. exists d. by repeat split. }
  intros e. rewrite Hiff. split.
  - intros [He|(l1 & p2 & l2 & d & -> & Hd & Hfirst & Hv & Hr & Hdm & ->)].
    + apply Hiff1 in He as [?|(d & Hd & Hv & Hr & Hdm & ->)]; [by left|].
      right. exists [], p, l, d. repeat split; auto. intros p' Hp'.
      by apply elem_of_nil in Hp'.
    + right. exists (p :: l1), p2, l2, d. rewrite Hvul in Hv.
      split; [done|]. split; [done|]. split; [|split; [tauto|done]].
      intros p' Hp'. apply elem_of_cons in Hp' as [->|Hp'];
        [tauto|by apply Hfirst].
  - intros [?|(l1 & p2 & l2 & d & Heq & Hd & Hfirst & Hv & Hr & Hdm & ->)].
    { left. apply Hiff1. by left. }
    destruct l1 as [|p1 l1]; simpl in Heq; injection Heq as -> ->.
    + left. apply Hiff1. right. exists d. by repeat split.
    + right. exists l1, p2, l2, d. repeat split; auto.
      * intros p' Hp'. apply Hfirst. by right.
      * rewrite Hvul. intros [?|(Hdp & _)]; [done|].
        eapply Hfirst; [by left|done].
Qed.

Lemma first_killer_split color board p d :
  (∃ l1 l2, BitsetIterator (getEmpty board) = l1 ++ p :: l2
            ∧ d ∈ dead_after color board p
            ∧ ∀ p', p' ∈ l1 → d ∉ dead_after color board p')
  ↔ first_killer color board p d.
Proof.
  assert (StronglySorted Nat.le (BitsetIterator (getEmpty board))) as Hsorted.
  { apply StronglySorted_merge_sort; apply _. }
  assert (NoDup (BitsetIterator (getEmpty board))) as Hnd.
  { unfold BitsetIterator. rewrite merge_sort_Permutation. apply NoDup_elements. }
  unfold first_killer. split.
  - intros (l1 & l2 & Heq & Hd & Hfirst). rewrite Heq in Hsorted, Hnd.
    split; [|split; [done|]].
    { apply elem_of_BitsetIterator. rewrite Heq. set_solver. }
    intros p' Hp'%elem_of_BitsetIterator Hlt. rewrite Heq in Hp'.
    apply elem_of_app in Hp' as [Hp'|Hp']; [by apply Hfirst|].
    apply elem_of_cons in Hp' as [->|Hp']; [lia|].
    apply StronglySorted_app_1_r, StronglySorted_cons in Hsorted as [Hle _].
    rewrite Forall_forall in Hle. specialize (Hle p' Hp'). lia.
  - intros (Hp%elem_of_BitsetIterator & Hd & Hfirst).
    apply list_elem_of_split in Hp as (l1 & l2 & Heq).
    exists l1, l2. split; [done|]. split; [done|].
    intros p' Hp'. apply Hfirst.
    + apply elem_of_BitsetIterator. rewrite Heq. set_solver.
    + rewrite Heq in Hsorted, Hnd.
      pose proof (StronglySorted_app_1_elem_of _ _ _ p' p Hsorted Hp'
                    ltac:(by left)) as Hle.
      apply NoDup_app in Hnd as (_ & Hnot & _).
      specialize (Hnot p' Hp'). assert (p' ≠ p) by set_solver. lia.
Qed.

(** What [BackupOpponentDead] records. *)
Lemma BackupOpponentDead_spec color board out :
  isBlackWhite color = true →
  ∃ out' found,
    BackupOpponentDead ice default_colors_to_capture color board out
      = Some (out', found)
    ∧ same_but_vulnerable out out'
    ∧ ∀ d k, (d, k) ∈ m_vulnerable out' ↔
        (d, k) ∈ m_vulnerable out
        ∨ ((d ∉ Vulnerable out) ∧ (d ∉ Reversible out) ∧ (d ∉ Dominated out)
           ∧ ∃ p, first_killer color board p d
                  ∧ k = backup_killer color board p d).
Proof.
  intros Hcolor. unfold BackupOpponentDead. cbv zeta.
  destruct (BackupOpponentDead_fold color board (Reversible out) (Dominated out)
              (BitsetIterator (getEmpty board)) out 0 Hcolor)
    as (out' & found & -> & Hsame & Hiff).
  exists out', found. split; [done|]. split; [done|].
  intros d k. rewrite Hiff. split.
  - intros [?|(l1 & p & l2 & d' & Heq & Hd & Hfirst & Hv & Hr & Hdm & Hk)];
      [by left|].
    injection Hk as -> ->. right. repeat split; auto.
    exists p. split; [|done]. apply first_killer_split. by exists l1, l2.
  - intros [?|(Hv & Hr & Hdm & p & Hfirst & ->)]; [by left|].
    apply first_killer_split in Hfirst as (l1 & l2 & Heq & Hd & Hfirst).
    right. exists l1, p, l2, d. by repeat split.
Qed.
End BackupFacts.

(** The engine with the backup-opponent-dead option off and the other
    options as they are. *)
Definition without_backup (ice : ICEngine) : ICEngine :=
  mkICEngine (m_find_presimplicial_pairs ice) (m_find_permanently_inferior ice)
    (m_find_all_pattern_killers ice) (m_find_all_pattern_reversers ice)
    (m_find_all_pattern_dominators ice) (m_use_handcoded_patterns ice)
    false (m_find_three_sided_dead_regions ice) (m_iterative_dead_regions ice).

Section WithoutBackup.
Context `{ConstBoard} `{GroupBuilder} `{PatternState}.

Lemma ComputeFillin_without_backup ice color brd out ctc :
  ComputeFillin (without_backup ice) color brd out ctc
  = ComputeFillin ice color brd out ctc.
Proof. by destruct ice. Qed.

Lemma FindReversible_without_backup ice brd color consider inf :
  FindReversible (without_backup ice) brd color consider inf
  = FindReversible ice brd color consider inf.
Proof. by destruct ice. Qed.

Lemma FindDominated_without_backup ice brd color consider inf :
  FindDominated (without_backup ice) brd color consider inf
  = FindDominated ice brd color consider inf.
Proof. by destruct ice. Qed.
End WithoutBackup.

(** C8: with the backup-opponent-dead option on, [ComputeInferiorCells]
    does what it does with the option off and then, for every empty cell [p]
    in turn, plays the opponent of the colour to play at [p] and reruns the
    fill-in; each cell [d] found dead after that move and not yet recorded
    as vulnerable, reversible or dominated is recorded as vulnerable, with
    killer [p] and with the fill-in of both colours less [d] and [p] as
    carrier.  Nothing else changes. *)
Theorem ComputeInferiorCells_backup_opponent_dead
    `{ConstBoard} `{GroupBuilder} `{PatternState}
    (ice : ICEngine) (default_colors_to_capture : HexColorSet)
    (color : HexColor) (brd : StoneBoard) (out : InferiorCells) :
  isBlackWhite DEAD_COLOR = true →
  isBlackWhite color = true →
  m_backup_opponent_dead ice = true →
  ∃ brd' out0 out',
    ComputeInferiorCells (without_backup ice) default_colors_to_capture
      color brd out = Some (brd', out0)
    ∧ ComputeInferiorCells ice default_colors_to_capture color brd out
      = Some (brd', out')
    ∧ same_but_vulnerable out0 out'
    ∧ ∀ d k, (d, k) ∈ m_vulnerable out' ↔
        (d, k) ∈ m_vulnerable out0
        ∨ ((d ∉ Inf.Vulnerable out0) ∧ (d ∉ Inf.Reversible out0)
           ∧ (d ∉ Inf.Dominated out0)
           ∧ ∃ p, first_killer ice default_colors_to_capture color brd' p d
                  ∧ k = (p, filled_after ice default_colors_to_capture color
                              brd' p ∖ {[ d ]} ∖ {[ p ]})).
Proof.
  intros Hdead Hcolor Hflag.
  destruct (ComputeInferiorCells_ok (without_backup ice)
              default_colors_to_capture false Hdead ltac:(done) color brd out
              Hcolor) as (brd' & out0 & Heq0 & _).
  exists brd', out0.
  assert (∃ out',
            ComputeInferiorCells ice default_colors_to_capture color brd out
              = Some (brd', out')
            ∧ same_but_vulnerable out0 out'
            ∧ ∀ d k, (d, k) ∈ m_vulnerable out' ↔
                (d, k) ∈ m_vulnerable out0
                ∨ ((d ∉ Inf.Vulnerable out0) ∧ (d ∉ Inf.Reversible out0)
                   ∧ (d ∉ Inf.Dominated out0)
                   ∧ ∃ p, first_killer ice default_colors_to_capture color
                            brd' p d
                          ∧ k = backup_killer ice default_colors_to_capture
                                  color brd' p d)) as (out' & ? & ? & ?);
    [|by exists out'].
  unfold ComputeInferiorCells in *. rewrite Hflag. simpl in Heq0.
  rewrite ComputeFillin_without_backup in Heq0.
  destruct (ComputeFillin ice color brd out default_colors_to_capture)
    as [[b1 i1]|]; [|done].
  cbn [mbind option_bind] in *. cbv zeta in *.
  rewrite FindReversible_without_backup in Heq0.
  rewrite FindDominated_without_backup in Heq0.
  injection Heq0 as -> Heq0. rewrite Heq0.
  destruct (BackupOpponentDead_spec ice default_colors_to_capture Hdead color
              brd' out0 Hcolor) as (out' & found & -> & Hsame & Hiff).
  cbn [mbind option_bind]. by exists out'.
Qed.

(** * The board with its history *)

(** [IceUtil::Update]: the annotations of [in_] replace those of [out]; its
    fill-in is added to that of [out]. *)
Module IceUtil.
Definition Update (out in_ : InferiorCells) : InferiorCells :=
  (* overwrite old vulnerable/reversible/dominated with the new ones *)
  let out :=
    mkInferiorCells
      (m_dead out) (m_captured_black out) (m_captured_white out)
      (m_perm_inf_black out) (m_perm_inf_white out)
      (m_perm_inf_carrier_black out) (m_perm_inf_carrier_white out)
      (m_vulnerable in_) (m_reversible in_) (m_dominated in_) in
  (* add the new fillin to the old fillin *)
  let out :=
    foldl (λ out c,
             let out := Inf.AddCaptured c (Inf.Captured c in_) out in
             Inf.AddPermInf c (Inf.PermInf c in_) (Inf.PermInfCarrier c in_) out)
          out [BLACK; WHITE] in
  (* add the new dead cells *)
  Inf.AddDead (Inf.Dead in_) out.
End IceUtil.

(** The builder of virtual connections is a collaborator of the board: the
    connection sets it keeps, building them for a board, updating them for
    the cells added for each colour, and reverting the last update. *)
Class VCBuilder := {
  VCSets : Type;
  vc_build : StoneBoard → VCSets;
  vc_add_filled : StoneBoard → bitset_t → bitset_t → VCSets → VCSets;
  vc_revert : VCSets → VCSets;
}.

(** The builder's contract: reverting undoes the last update. *)
Definition vc_revert_undoes `{VCBuilder} : Prop :=
  ∀ brd black white vcs, vc_revert (vc_add_filled brd black white vcs) = vcs.

Section HexBoard.
Context `{ConstBoard} `{GroupBuilder} `{PatternState} `{VCBuilder}.

(** [HexBoard::History]. *)
Record History := mkHistory {
  board : StoneBoard;
  inf : InferiorCells;
  to_play : HexColor;
  last_played : HexPoint;
}.

(** [HexBoard]: the stone board it extends and its member variables. *)
Record HexBoard := mkHexBoard {
  m_brd : StoneBoard;
  m_ice : ICEngine;
  m_cons : VCSets;
  m_history : list History;
  m_inf : InferiorCells;
  m_use_vcs : bool;
  m_use_ice : bool;
  m_use_decompositions : bool;
  m_backup_ice_info : bool;
}.

(** The default of the engine's parameter [colors_to_capture], and the way
    [UndoMove] merges the inferior cells it pops into those it restores when
    ice info is backed up, which the spec leaves open. *)
Variable default_colors_to_capture : HexColorSet.
Variable merge_ice_info : History → InferiorCells → InferiorCells.

Definition set_brd (brd : StoneBoard) (hb : HexBoard) : HexBoard :=
  mkHexBoard brd (m_ice hb) (m_cons hb) (m_history hb) (m_inf hb)
    (m_use_vcs hb) (m_use_ice hb) (m_use_decompositions hb)
    (m_backup_ice_info hb).

Definition PushHistory (color : HexColor) (cell : HexPoint) (hb : HexBoard)
  : HexBoard :=
  mkHexBoard (m_brd hb) (m_ice hb) (m_cons hb)
    (mkHistory (m_brd hb) (m_inf hb) color cell :: m_history hb) (m_inf hb)
    (m_use_vcs hb) (m_use_ice hb) (m_use_decompositions hb)
    (m_backup_ice_info hb).

Definition ClearHistory (hb : HexBoard) : HexBoard :=
  mkHexBoard (m_brd hb) (m_ice hb) (m_cons hb) [] (m_inf hb)
    (m_use_vcs hb) (m_use_ice hb) (m_use_decompositions hb)
    (m_backup_ice_info hb).

(** Modelled from the spec: [HexBoard.cpp] is not among the files at hand.
    [HexBoard::ComputeInferiorCells] reruns the engine on the board and adds
    what it finds to the inferior cells of the board. *)
Definition HexBoard_ComputeInferiorCells (color_to_move : HexColor)
    (hb : HexBoard) : option HexBoard :=
  if m_use_ice hb then
    '(brd, inf) ← ComputeInferiorCells (m_ice hb) default_colors_to_capture
                    color_to_move (m_brd hb) Inf.Empty;
    Some (mkHexBoard brd (m_ice hb) (m_cons hb) (m_history hb)
            (IceUtil.Update (m_inf hb) inf)
            (m_use_vcs hb) (m_use_ice hb) (m_use_decompositions hb)
            (m_backup_ice_info hb))
  else Some hb.

(** Modelled from the spec: the connection sets are rebuilt from the cells
    added to [old], for each colour. *)
Definition BuildVCs (old : StoneBoard) (hb : HexBoard) : HexBoard :=
  if m_use_vcs hb then
    mkHexBoard (m_brd hb) (m_ice hb)
      (vc_add_filled (m_brd hb) (getBlack (m_brd hb) ∖ getBlack old)
         (getWhite (m_brd hb) ∖ getWhite old) (m_cons hb))
      (m_history hb) (m_inf hb)
      (m_use_vcs hb) (m_use_ice hb) (m_use_decompositions hb)
      (m_backup_ice_info hb)
  else hb.

Definition RevertVCs (hb : HexBoard) : HexBoard :=
  if m_use_vcs hb then
    mkHexBoard (m_brd hb) (m_ice hb) (vc_revert (m_cons hb))
      (m_history hb) (m_inf hb)
      (m_use_vcs hb) (m_use_ice hb) (m_use_decompositions hb)
      (m_backup_ice_info hb)
  else hb.

(** Modelled from the spec: [HexBoard::ComputeAll] clears the history, runs
    the engine and builds the connection sets from scratch. *)
Definition ComputeAll (color : HexColor) (hb : HexBoard) : option HexBoard :=
  hb ← HexBoard_ComputeInferiorCells color (ClearHistory hb);
  Some (if m_use_vcs hb then
          mkHexBoard (m_brd hb) (m_ice hb) (vc_build (m_brd hb))
            (m_history hb) (m_inf hb)
            (m_use_vcs hb) (m_use_ice hb) (m_use_decompositions hb)
            (m_backup_ice_info hb)
        else hb).

(** Modelled from the spec: [HexBoard::PlayMove] stores the old state on the
    stack, plays the move on the board, which modifies the hash, and updates
    the inferior cells and the connection sets. *)
Definition PlayMove (color : HexColor) (cell : HexPoint) (hb : HexBoard)
  : option HexBoard :=
  let old := m_brd hb in
  let hb := PushHistory color cell hb in
  let hb := set_brd (playMove color cell (m_brd hb)) hb in
  hb ← HexBoard_ComputeInferiorCells (opp color) hb;
  Some (BuildVCs old hb).

(** Modelled from the spec: [HexBoard::PlayStones] stores the old state on
    the stack and plays the set of stones; the hash is not modified, and no
    ice info will be backed up: the frame names no move. *)
Definition PlayStones (color : HexColor) (played : bitset_t)
    (color_to_move : HexColor) (hb : HexBoard) : option HexBoard :=
  let old := m_brd hb in
  let hb := PushHistory color INVALID_POINT hb in
  let hb := set_brd (addColor color played (m_brd hb)) hb in
  hb ← HexBoard_ComputeInferiorCells color_to_move hb;
  Some (BuildVCs old hb).

(** Modelled from the spec: [HexBoard::AddStones] adds the stones without
    pushing a frame. *)
Definition AddStones (color : HexColor) (played : bitset_t)
    (color_to_move : HexColor) (hb : HexBoard) : option HexBoard :=
  let old := m_brd hb in
  let hb := set_brd (addColor color played (m_brd hb)) hb in
  hb ← HexBoard_ComputeInferiorCells color_to_move hb;
  Some (BuildVCs old hb).

(** Modelled from the spec: [HexBoard::UndoMove] pops the last frame and
    restores the state stored in it; if the option is on and the frame
    names a move, the inferior cells popped are merged into those restored.
    [None]: there is no frame to pop. *)
Definition UndoMove (hb : HexBoard) : option HexBoard :=
  match m_history hb with
  | [] => None
  | hist :: history =>
    let inf :=
      if m_backup_ice_info hb && negb (bool_decide (last_played hist = INVALID_POINT))
      then merge_ice_info hist (m_inf hb) else inf hist in
    Some (RevertVCs
            (mkHexBoard (board hist) (m_ice hb) (m_cons hb) history inf
               (m_use_vcs hb) (m_use_ice hb) (m_use_decompositions hb)
               (m_backup_ice_info hb)))
  end.

(** A sequence of calls of [PlayMove] and [UndoMove]. *)
Inductive Call := CallPlayMove (color : HexColor) (cell : HexPoint) | CallUndoMove.

Fixpoint run (calls : list Call) (hb : HexBoard) : option HexBoard :=
  match calls with
  | [] => Some hb
  | CallPlayMove color cell :: calls => PlayMove color cell hb ≫= run calls
  | CallUndoMove :: calls => UndoMove hb ≫= run calls
  end.

(** The calls pair up: every [UndoMove] undoes a [PlayMove] of the sequence
    and, from depth 0, no [PlayMove] is left. *)
Fixpoint matched (depth : nat) (calls : list Call) : bool :=
  match calls with
  | [] => bool_decide (depth = 0)
  | CallPlayMove _ _ :: calls => matched (S depth) calls
  | CallUndoMove :: calls =>
    match depth with 0 => false | S depth => matched depth calls end
  end.

Definition players (calls : list Call) : bool :=
  forallb (λ call, match call with
                   | CallPlayMove color _ => isBlackWhite color
                   | CallUndoMove => true
                   end) calls.
End HexBoard.

Section HexBoardFacts.
Context `{ConstBoard} `{GroupBuilder} `{PatternState} `{VCBuilder}.

Variable default_colors_to_capture : HexColorSet.
Variable merge_ice_info : History → InferiorCells → InferiorCells.

Hypothesis dead_color : isBlackWhite DEAD_COLOR = true.

(** The engine run by the board leaves the hash, the history, the
    connection sets and the settings alone. *)
Lemma HexBoard_ComputeInferiorCells_spec color hb :
  isBlackWhite color = true →
  ∃ brd inf',
    HexBoard_ComputeInferiorCells default_colors_to_capture color hb
    = Some (mkHexBoard brd (m_ice hb) (m_cons hb) (m_history hb) inf'
              (m_use_vcs hb) (m_use_ice hb) (m_use_decompositions hb)
              (m_backup_ice_info hb))
    ∧ fills (m_brd hb) brd.
Proof.
  intros Hcolor. unfold HexBoard_ComputeInferiorCells.
  destruct (m_use_ice hb) eqn:Hice.
  - destruct (ComputeInferiorCells_ok (m_ice hb) default_colors_to_capture
                false dead_color ltac:(done) color (m_brd hb) Inf.Empty Hcolor)
      as (brd & inf' & -> & Hsteps).
    cbn [mbind option_bind]. eexists _, _. split; [done|].
    apply (fill_steps_fills _ _ _ Hsteps).
  - exists (m_brd hb), (m_inf hb). split; [|apply fills_refl].
    destruct hb; simpl in *. by rewrite Hice.
Qed.

Lemma PlayMove_spec color cell hb :
  isBlackWhite color = true →
  ∃ hb',
    PlayMove default_colors_to_capture color cell hb = Some hb'
    ∧ m_history hb'
      = mkHistory (m_brd hb) (m_inf hb) color cell :: m_history hb
    ∧ Hash (m_brd hb') = N.lxor (Hash (m_brd hb)) (zobrist color cell).
Proof.
  intros Hcolor. unfold PlayMove. cbv zeta.
  destruct (HexBoard_ComputeInferiorCells_spec (opp color)
              (set_brd (playMove color cell (m_brd (PushHistory color cell hb)))
                 (PushHistory color cell hb)))
    as (brd & inf' & -> & [Hhash _ _ _]); [by destruct color|].
  cbn [mbind option_bind]. eexists. split; [done|].
  unfold BuildVCs. cbn in *.
  destruct (m_use_vcs hb); cbn; split; try done;
    unfold Hash; rewrite Hhash; by destruct color.
Qed.

Lemma UndoMove_spec hb hist history :
  m_history hb = hist :: history →
  ∃ hb',
    UndoMove merge_ice_info hb = Some hb'
    ∧ m_history hb' = history ∧ m_brd hb' = board hist.
Proof.
  intros Hhist. unfold UndoMove. rewrite Hhist. eexists. split; [done|].
  unfold RevertVCs. cbn. by destruct (m_use_vcs hb).
Qed.

(** Matched calls from a board whose history holds [frames] on top of
    [base] come back to [base], with the board of the oldest of the
    frames. *)
Lemma run_matched calls :
  ∀ depth hb frames base,
    players calls = true → matched depth calls = true →
    m_history hb = frames ++ base → length frames = depth →
    ∃ hb',
      run default_colors_to_capture merge_ice_info calls hb = Some hb'
      ∧ m_history hb' = base
      ∧ m_brd hb' = from_option board (m_brd hb) (last frames).
Proof.
  induction calls as [|[color cell|] calls IH];
    intros depth hb frames base Hplayers Hmatched Hhist Hlen; simpl in *.
  - apply bool_decide_eq_true in Hmatched. subst depth.
    destruct frames; [|done]. by exists hb.
  - apply andb_prop in Hplayers as [Hcolor Hplayers].
    destruct (PlayMove_spec color cell hb Hcolor) as (hb1 & -> & Hhist1 & _).
    cbn [mbind option_bind].
    destruct (IH (S depth) hb1
                (mkHistory (m_brd hb) (m_inf hb) color cell :: frames) base
                Hplayers Hmatched)
      as (hb' & -> & Hbase & Hbrd); [by rewrite Hhist1, Hhist|simpl; lia|].
    exists hb'. split; [done|]. split; [done|].
    rewrite Hbrd. destruct frames as [|hist frames]; [done|].
    rewrite last_cons_cons.
    by assert (is_Some (last (hist :: frames))) as [x ->] by by apply last_is_Some.
  - destruct depth as [|depth]; [done|].
    destruct frames as [|hist frames]; [done|]. simpl in Hhist, Hlen.
    destruct (UndoMove_spec hb hist (frames ++ base) Hhist)
      as (hb1 & -> & Hhist1 & Hbrd1).
    cbn [mbind option_bind].
    destruct (IH depth hb1 frames base Hplayers Hmatched Hhist1 ltac:(lia))
      as (hb' & -> & Hbase & Hbrd).
    exists hb'. split; [done|]. split; [done|].
    rewrite Hbrd, Hbrd1. destruct frames as [|hist' frames]; [done|].
    rewrite last_cons_cons.
    by assert (is_Some (last (hist' :: frames))) as [x ->] by by apply last_is_Some.
Qed.
End HexBoardFacts.

(** C6: for every sequence of matched [HexBoard::PlayMove] and
    [HexBoard::UndoMove] calls, from any state, the Zobrist hash of the board
    is after the sequence what it was before: each [PlayMove] modifies the
    hash, by the Zobrist number of the stone played, and each [UndoMove]
    restores the board saved by the [PlayMove] it undoes, hash included. *)
Theorem PlayMove_UndoMove_hash
    `{ConstBoard} `{GroupBuilder} `{PatternState} `{VCBuilder}
    (default_colors_to_capture : HexColorSet)
    (merge_ice_info : History → InferiorCells → InferiorCells)
    (calls : list Call) (hb : HexBoard) :
  isBlackWhite DEAD_COLOR = true →
  players calls = true →
  matched 0 calls = true →
  (∃ hb',
     run default_colors_to_capture merge_ice_info calls hb = Some hb'
     ∧ Hash (m_brd hb') = Hash (m_brd hb)
     ∧ m_brd hb' = m_brd hb
     ∧ m_history hb' = m_history hb)
  ∧ (∀ color cell,
       isBlackWhite color = true →
       ∃ hb1 hb2,
         PlayMove default_colors_to_capture color cell hb = Some hb1
         ∧ Hash (m_brd hb1) = N.lxor (Hash (m_brd hb)) (zobrist color cell)
         ∧ UndoMove merge_ice_info hb1 = Some hb2
         ∧ m_brd hb2 = m_brd hb).
Proof.
  intros Hdead Hplayers Hmatched. split.
  - destruct (run_matched default_colors_to_capture merge_ice_info Hdead calls
                0 hb [] (m_history hb) Hplayers Hmatched eq_refl eq_refl)
      as (hb' & Hrun & Hhist & Hbrd).
    exists hb'. simpl in Hbrd. by rewrite Hbrd.
  - intros color cell Hcolor.
    destruct (PlayMove_spec default_colors_to_capture Hdead color cell hb Hcolor)
      as (hb1 & Hplay & Hhist & Hhash).
    destruct (UndoMove_spec merge_ice_info hb1 _ _ Hhist)
      as (hb2 & Hundo & _ & Hbrd).
    by exists hb1, hb2.
Qed.

(** C7: [HexBoard::PlayStones] plays a set of stones of one colour and does
    not modify the hash of the position, and a single call of [UndoMove]
    after it reverts everything it changed: the board, the inferior cells,
    the history and (the builder reverting its last update) the connection
    sets are those of before. *)
Theorem PlayStones_UndoMove
    `{ConstBoard} `{GroupBuilder} `{PatternState} `{VCBuilder}
    (default_colors_to_capture : HexColorSet)
    (merge_ice_info : History → InferiorCells → InferiorCells)
    (color : HexColor) (played : gset nat) (color_to_move : HexColor)
    (hb : HexBoard) :
  isBlackWhite DEAD_COLOR = true →
  isBlackWhite color = true →
  isBlackWhite color_to_move = true →
  vc_revert_undoes →
  ∃ hb',
    PlayStones default_colors_to_capture color played color_to_move hb
    = Some hb'
    ∧ Hash (m_brd hb') = Hash (m_brd hb)
    ∧ played ⊆ getColorSet (m_brd hb') color
    ∧ UndoMove merge_ice_info hb' = Some hb.
Proof.
  intros Hdead Hcolor Hmove Hrevert. unfold PlayStones. cbv zeta.
  destruct (HexBoard_ComputeInferiorCells_spec default_colors_to_capture Hdead
              color_to_move
              (set_brd (addColor color played
                          (m_brd (PushHistory color INVALID_POINT hb)))
                 (PushHistory color INVALID_POINT hb)) Hmove)
    as (brd & inf' & -> & [Hhash _ Hblack Hwhite]).
  cbn [mbind option_bind]. eexists. split; [done|].
  destruct hb as [brd0 ice cons history inf0 use_vcs use_ice use_dec backup].
  unfold BuildVCs, UndoMove, RevertVCs, Hash. cbn in *.
  destruct use_vcs; cbn.
  - split; [rewrite Hhash; by destruct color|].
    split; [destruct color; try done; set_solver|].
    rewrite andb_false_r. by rewrite Hrevert.
  - split; [rewrite Hhash; by destruct color|].
    split; [destruct color; try done; set_solver|].
    by rewrite andb_false_r.
Qed.

(** A builder that keeps the log of the cells it was given, for the boards
    of the game. *)
Module HexGame.
Definition log_builder : VCBuilder := {|
  VCSets := list (gset nat * gset nat);
  vc_build := λ _, [];
  vc_add_filled := λ _ black white log, (black, white) :: log;
  vc_revert := λ log, tail log;
|}.

Lemma log_builder_revert_undoes : vc_revert_undoes (H := log_builder).
Proof. by intros brd black white vcs. Defined.

(** The board of three columns and two rows at the start of a game, with
    the engine's graph rules and the connection log. *)
Definition start32 : HexBoard (H2 := log_builder) :=
  mkHexBoard (H2 := log_builder) (Hex.start 3 2) ICEngine_default []
    [] Inf.Empty true true false false.

Definition run32 (calls : list Call) (hb : HexBoard (H2 := log_builder))
  : option (HexBoard (H2 := log_builder)) :=
  run (H := Hex.board 3 2) (H0 := Hex.groups 3 2) (H1 := Hex.no_patterns)
    (H2 := log_builder) ALL_COLORS (λ hist _, inf hist) calls hb.

Definition calls32 : list Call :=
  [ CallPlayMove BLACK 7; CallPlayMove WHITE 11; CallUndoMove;
    CallPlayMove WHITE 8; CallPlayMove BLACK 9; CallUndoMove; CallUndoMove;
    CallUndoMove ].
End HexGame.

Lemma PlayMove_UndoMove_hash_witness :
  isBlackWhite (DEAD_COLOR (ConstBoard := Hex.board 3 2)) = true
  ∧ players HexGame.calls32 = true
  ∧ matched 0 HexGame.calls32 = true
  ∧ ∃ hb',
      HexGame.run32 HexGame.calls32 HexGame.start32 = Some hb'
      ∧ Hash (m_brd hb') = Hash (m_brd HexGame.start32)
      ∧ m_brd hb' = m_brd HexGame.start32
      ∧ m_history hb' = m_history HexGame.start32.
Proof.
  split; [reflexivity|]. split; [reflexivity|]. split; [reflexivity|].
  apply (PlayMove_UndoMove_hash (H := Hex.board 3 2) (H0 := Hex.groups 3 2)
           (H1 := Hex.no_patterns) (H2 := HexGame.log_builder) ALL_COLORS
           (λ hist _, inf hist) HexGame.calls32 HexGame.start32
           eq_refl eq_refl eq_refl).
Defined.

Lemma PlayStones_UndoMove_witness :
  isBlackWhite (DEAD_COLOR (ConstBoard := Hex.board 3 2)) = true
  ∧ isBlackWhite WHITE = true
  ∧ isBlackWhite BLACK = true
  ∧ vc_revert_undoes (H := HexGame.log_builder)
  ∧ ∃ hb',
      PlayStones (H := Hex.board 3 2) (H0 := Hex.groups 3 2)
        (H1 := Hex.no_patterns) (H2 := HexGame.log_builder) ALL_COLORS
        WHITE {[ 10; 11 ]} BLACK HexGame.start32 = Some hb'
      ∧ Hash (m_brd hb') = Hash (m_brd HexGame.start32)
      ∧ {[ 10; 11 ]} ⊆ getColorSet (H := Hex.board 3 2) (m_brd hb') WHITE
      ∧ UndoMove (H2 := HexGame.log_builder) (λ hist _, inf hist) hb'
        = Some HexGame.start32.
Proof.
  split; [reflexivity|]. split; [reflexivity|]. split; [reflexivity|].
  split; [apply HexGame.log_builder_revert_undoes|].
  apply (PlayStones_UndoMove (H := Hex.board 3 2) (H0 := Hex.groups 3 2)
           (H1 := Hex.no_patterns) (H2 := HexGame.log_builder) ALL_COLORS
           (λ hist _, inf hist) WHITE {[ 10; 11 ]} BLACK HexGame.start32
           eq_refl eq_refl eq_refl HexGame.log_builder_revert_undoes).
Defined.

(** The engine with the backup-opponent-dead option on. *)
Definition ICEngine_backup : ICEngine :=
  mkICEngine true true true false false true true false false.

Lemma ComputeInferiorCells_backup_opponent_dead_witness :
  let board := Hex.board 3 2 in
  let groups := Hex.groups 3 2 in
  let patterns := Hex.no_patterns in
  isBlackWhite DEAD_COLOR = true
  ∧ isBlackWhite WHITE = true
  ∧ m_backup_opponent_dead ICEngine_backup = true
  ∧ ∃ brd' out0 out',
      ComputeInferiorCells (without_backup ICEngine_backup) ALL_COLORS WHITE
        (Hex.start 3 2) Inf.Empty = Some (brd', out0)
      ∧ ComputeInferiorCells ICEngine_backup ALL_COLORS WHITE
          (Hex.start 3 2) Inf.Empty = Some (brd', out')
      ∧ same_but_vulnerable out0 out'
      ∧ ∀ d k, (d, k) ∈ m_vulnerable out' ↔
          (d, k) ∈ m_vulnerable out0
          ∨ ((d ∉ Inf.Vulnerable out0) ∧ (d ∉ Inf.Reversible out0)
             ∧ (d ∉ Inf.Dominated out0)
             ∧ ∃ p, first_killer ICEngine_backup ALL_COLORS WHITE brd' p d
                    ∧ k = (p, filled_after ICEngine_backup ALL_COLORS WHITE
                                brd' p ∖ {[ d ]} ∖ {[ p ]})).
Proof.
  intros board groups patterns.
  split; [reflexivity|]. split; [reflexivity|]. split; [reflexivity|].
  apply (ComputeInferiorCells_backup_opponent_dead (H := board) (H0 := groups)
           (H1 := patterns) ICEngine_backup ALL_COLORS WHITE (Hex.start 3 2)
           Inf.Empty eq_refl eq_refl eq_refl).
Defined.

(** On the empty board of three columns and two rows, White to play: a1 and
    c2 are vulnerable as it is; Black at c1 kills a2 and Black at a2 kills
    c1, and both are recorded, with the rest of the board as carrier; Black
    at b1 kills a1 and Black at b2 kills c2, which are vulnerable already
    and are not recorded again. *)
Example backup_opponent_dead_3x2 :
  let result :=
    ComputeInferiorCells (H := Hex.board 3 2) (H0 := Hex.groups 3 2)
      (H1 := Hex.no_patterns) ICEngine_backup ALL_COLORS WHITE
      (Hex.start 3 2) Inf.Empty in
  (λ r : StoneBoard * InferiorCells,
     (λ e : nat * (nat * gset nat), (e.1, e.2.1, BitsetIterator e.2.2))
       <$> Inf.VulnerableEntries r.2) <$> result
  = Some [ (7, 8, []); (9, 10, [7; 8; 11; 12]); (10, 9, [7; 8; 11; 12]);
           (12, 11, []) ].
Proof. vm_compute. reflexivity. Qed.

(** * The depth-first solver *)

Module DfsSolver.

(** [DfsSolver::Result]: player to move wins, player to move loses, unknown
    result (time limit or depth limit reached). *)
Inductive Result := WIN | LOSS | UNKNOWN.

#[global] Instance Result_eq_dec : EqDecision Result.
Proof. solve_decision. Defined.

Definition NO_DEPTH_LIMIT : Z := (-1)%Z.
Definition NO_TIME_LIMIT : Z := (-1)%Z.
Definition SOLVE_ROOT_AGAIN : Z := 1%Z.

(** [DfsSolver::Settings]; the time limit is counted in ticks of the clock. *)
Record Settings := mkSettings {
  flags : Z;
  depthLimit : Z;
  timeLimit : Z;
}.

(** The states the search visits: the hash of the position, what
    [HandleTerminalNode] finds there (the player to move has won, has lost,
    or the state is not terminal), and the states after the moves to
    consider, in the order of the move ordering. *)
Inductive GameTree :=
  GNode (hash : N) (terminal : option bool) (moves : list GameTree).

Definition hash (t : GameTree) : N := let 'GNode h _ _ := t in h.
Definition terminal (t : GameTree) : option bool := let 'GNode _ w _ := t in w.
Definition moves (t : GameTree) : list GameTree := let 'GNode _ _ ms := t in ms.

(** What the solver polls: the user's abort flag and the time elapsed, at
    each poll. *)
Record Environment := mkEnvironment {
  SgUserAbort : nat → bool;
  Time_Get : nat → Z;
}.

(** Modelled from the spec: [DfsSolver.cpp] is not among the files at hand.
    The solver's state during a run: the abort latch, the transposition
    table (hash to win or loss), and the polls made so far, each with its
    number and the depth of the node that made it. *)
Record Solver := mkSolver {
  m_aborted : bool;
  m_positions : gmap N bool;
  m_polled : list (nat * nat);
}.

Section Search.
Variable env : Environment.
Variable m_settings : Settings.

(** A poll fires: the user aborts, the time limit is exceeded, or the depth
    limit is reached. *)
Definition fires (poll depth : nat) : bool :=
  SgUserAbort env poll
  || (bool_decide (0 < timeLimit m_settings)%Z
      && bool_decide (timeLimit m_settings < Time_Get env poll)%Z)
  || (bool_decide (0 ≤ depthLimit m_settings)%Z
      && bool_decide (depthLimit m_settings ≤ Z.of_nat depth)%Z).

(** Modelled from the spec: [CheckAbort] is polled at the entry to each
    node; it sets [m_aborted] if necessary and returns whether the search
    is to be aborted. *)
Definition CheckAbort (depth : nat) (s : Solver) : bool * Solver :=
  if m_aborted s then (true, s)
  else
    let poll := length (m_polled s) in
    let fired := fires poll depth in
    (fired, mkSolver fired (m_positions s) ((poll, depth) :: m_polled s)).

(** Modelled from the spec: [HandleLeafNode]: a terminal node, or a hit of
    the transposition table, which is not consulted at the root when
    [SOLVE_ROOT_AGAIN] is set. *)
Definition HandleLeafNode (t : GameTree) (root_node : bool) (s : Solver)
  : option bool :=
  match terminal t with
  | Some win => Some win
  | None =>
    if root_node && negb (bool_decide (Z.land (flags m_settings) SOLVE_ROOT_AGAIN = 0%Z))
    then None
    else m_positions s !! hash t
  end.

Definition StoreState (t : GameTree) (win : bool) (s : Solver) : Solver :=
  mkSolver (m_aborted s) (<[hash t := win]> (m_positions s)) (m_polled s).

(** Modelled from the spec: the loop of [solve_interior_state] over the
    ordered moves: play the move and recurse; an abort is propagated; a move
    the opponent loses after is a win, stored and returned; when no move
    won, the state is a loss, stored and returned. *)
Fixpoint solve_moves (solve : GameTree → Solver → bool * Solver)
    (t : GameTree) (ms : list GameTree) (s : Solver) : bool * Solver :=
  match ms with
  | [] => (false, StoreState t false s)
  | m :: ms =>
    let '(child_win, s) := solve m s in
    if m_aborted s then (false, s)
    else if negb child_win then (true, StoreState t true s)
    else solve_moves solve t ms s
  end.

(** Modelled from the spec: [solve_state]. *)
Fixpoint solve_state (t : GameTree) (depth : nat) (root_node : bool)
    (s : Solver) {struct t} : bool * Solver :=
  let '(abort, s) := CheckAbort depth s in
  if abort then (false, s)
  else
    match HandleLeafNode t root_node s with
    | Some win => (win, s)
    | None =>
      match t with
      | GNode _ _ ms =>
        solve_moves (λ m, solve_state m (S depth) false) t ms s
      end
    end.

(** Modelled from the spec: [Solve] with [run_solver]: [UNKNOWN] if the
    search was aborted, else [WIN] or [LOSS]. *)
Definition Solve (root : GameTree) (positions : gmap N bool) : Result * Solver :=
  let s := mkSolver false positions [] in
  let '(win, s) := solve_state root 0 true s in
  (if m_aborted s then UNKNOWN else if win then WIN else LOSS, s).
End Search.

(** The player to move wins the state: the game's value. *)
Fixpoint wins (t : GameTree) : bool :=
  match t with
  | GNode _ (Some win) _ => win
  | GNode _ None ms => existsb (λ m, negb (wins m)) ms
  end.

(** [s] is a state of the search below [t]. *)
Inductive below : GameTree → GameTree → Prop :=
| below_refl t : below t t
| below_move s m t : In m (moves t) → below s m → below s t.

(** The hash tells the states of the search apart as far as their value
    goes, and the table holds the value of the states it holds. *)
Definition hash_faithful (root : GameTree) : Prop :=
  ∀ s1 s2, below s1 root → below s2 root → hash s1 = hash s2 → wins s1 = wins s2.

Definition table_sound (root : GameTree) (positions : gmap N bool) : Prop :=
  ∀ s win, below s root → positions !! hash s = Some win → wins s = win.
End DfsSolver.

Module DfsSolverFacts.
Import DfsSolver.

(** Induction on the states of a search, with the hypothesis for all the
    moves of a state. *)
Lemma GameTree_induction (P : GameTree → Prop) :
  (∀ h w ms, Forall P ms → P (GNode h w ms)) → ∀ t, P t.
Proof.
  intros step. fix IH 1. intros [h w ms]. apply step.
  induction ms as [|m ms IHms]; constructor; [apply IH|apply IHms].
Qed.

Lemma below_trans s m t : below s m → below m t → below s t.
Proof.
  intros Hsm Hmt. induction Hmt as [|m' m'' t Hin _ IH]; [done|].
  eapply below_move; [done|]. by apply IH.
Qed.

Section SearchFacts.
Variable env : Environment.
Variable m_settings : Settings.
Variable root : GameTree.

Hypothesis faithful : hash_faithful root.

(** The latch is set exactly if one of the polls made has fired. *)
Definition latch_ok (s : Solver) : Prop :=
  m_aborted s = existsb (λ p, fires env m_settings p.1 p.2) (m_polled s).

(** The invariant of the search. *)
Definition search_ok (s : Solver) : Prop :=
  latch_ok s ∧ table_sound root (m_positions s).

Lemma CheckAbort_ok depth s :
  search_ok s →
  let r := CheckAbort env m_settings depth s in
  search_ok r.2 ∧ r.1 = m_aborted r.2.
Proof.
  intros [Hlatch Htable]. unfold CheckAbort.
  destruct (m_aborted s) eqn:Hab; cbn; [by repeat split|].
  repeat split; [|done]. unfold latch_ok in *. cbn.
  rewrite <- Hlatch, Hab. by rewrite orb_false_r.
Qed.

Lemma StoreState_ok t s :
  below t root → search_ok s → search_ok (StoreState t (wins t) s).
Proof.
  intros Hbelow [Hlatch Htable]. split; [done|].
  intros s' win Hs'. cbn. destruct (decide (hash t = hash s')) as [Heq|Hne].
  - rewrite Heq, lookup_insert_eq. intros [= <-]. by apply faithful.
  - rewrite lookup_insert_ne by done. by apply Htable.
Qed.

(** What a call of [solve_state], or of the loop over the moves, leaves: the
    invariant, and, unless the search is aborted, the value sought. *)
Definition solved (value : bool) (r : bool * Solver) : Prop :=
  search_ok r.2 ∧ (m_aborted r.2 = false → r.1 = value).

Lemma solve_moves_ok solve t ms s :
  below t root →
  (∀ m, m ∈ ms → ∀ s, search_ok s → m_aborted s = false →
        solved (wins m) (solve m s)) →
  search_ok s → m_aborted s = false →
  wins t = existsb (λ m, negb (wins m)) ms →
  solved (wins t) (solve_moves solve t ms s).
Proof.
  intros Hbelow. revert s.
  induction ms as [|m ms IH]; intros s Hsolve Hok Hrun Hwins; simpl.
  - split; cbn [fst snd].
    + simpl in Hwins. rewrite <- Hwins. by apply StoreState_ok.
    + intros _. by rewrite Hwins.
  - destruct (Hsolve m ltac:(set_solver) s Hok Hrun) as [Hok1 Hval1].
    destruct (solve m s) as [child_win s1]. cbn [fst snd] in *.
    destruct (m_aborted s1) eqn:Hab1;
      [split; cbn [fst snd]; [done|congruence]|].
    specialize (Hval1 eq_refl). subst child_win.
    simpl in Hwins.
    destruct (wins m) eqn:Hm; simpl in *.
    + apply IH; auto. intros m' Hm'. apply Hsolve. set_solver.
    + split; cbn [fst snd]; [|done].
      rewrite <- Hwins. by apply StoreState_ok.
Qed.

Lemma solve_state_ok t :
  below t root →
  ∀ depth root_node s,
    search_ok s →
    solved (wins t) (solve_state env m_settings t depth root_node s).
Proof.
  induction t as [h w ms IH] using GameTree_induction.
  intros Hbelow depth root_node s Hok.
  unfold solve_state; fold solve_state.
  destruct (CheckAbort_ok depth s Hok) as [Hok1 Hab1].
  destruct (CheckAbort env m_settings depth s) as [abort s1].
  cbn [fst snd] in *. subst abort.
  destruct (m_aborted s1) eqn:Hrun;
    [split; cbn [fst snd]; [done|congruence]|].
  unfold HandleLeafNode. cbn [terminal hash].
  destruct w as [win|]; [by split|].
  assert (solved (wins (GNode h None ms))
            (solve_moves (λ m, solve_state env m_settings m (S depth) false)
               (GNode h None ms) ms s1)) as Hmoves.
  { apply solve_moves_ok; auto.
    intros m Hm s2 Hok2 _. rewrite Forall_forall in IH. apply IH; [done| |done].
    apply below_trans with (GNode h None ms); [|done].
    apply below_move with m; [|apply below_refl]. by apply list_elem_of_In. }
  destruct (root_node && _); [done|].
  destruct (m_positions s1 !! h) as [win|] eqn:Hlookup; [|done].
  split; cbn [fst snd]; [done|]. intros _.
  symmetry. by apply (proj2 Hok1 (GNode h None ms) win Hbelow).
Qed.

(** The latch alone is kept whatever the table holds. *)
Lemma CheckAbort_latch depth s :
  latch_ok s → latch_ok (CheckAbort env m_settings depth s).2.
Proof using Type.
  intros Hlatch. unfold CheckAbort.
  destruct (m_aborted s) eqn:Hab; cbn; [done|].
  unfold latch_ok in *. cbn. rewrite <- Hlatch, Hab. by rewrite orb_false_r.
Qed.

Lemma solve_moves_latch solve t ms s :
  (∀ m, m ∈ ms → ∀ s, latch_ok s → latch_ok (solve m s).2) →
  latch_ok s → latch_ok (solve_moves solve t ms s).2.
Proof using Type.
  revert s. induction ms as [|m ms IH]; intros s Hsolve Hlatch; simpl; [done|].
  pose proof (Hsolve m ltac:(apply list_elem_of_here) s Hlatch) as Hlatch1.
  destruct (solve m s) as [child_win s1]. cbn [fst snd] in *.
  destruct (m_aborted s1); [done|].
  destruct child_win; simpl; [|done].
  apply IH; [|done]. intros m' Hm'. apply Hsolve. by apply list_elem_of_further.
Qed.

Lemma solve_state_latch t :
  ∀ depth root_node s,
    latch_ok s → latch_ok (solve_state env m_settings t depth root_node s).2.
Proof using Type.
  induction t as [h w ms IH] using GameTree_induction.
  intros depth root_node s Hlatch.
  unfold solve_state; fold solve_state.
  pose proof (CheckAbort_latch depth s Hlatch) as Hlatch1.
  destruct (CheckAbort env m_settings depth s) as [abort s1].
  cbn [fst snd] in *.
  destruct abort; [done|].
  destruct (HandleLeafNode _ _ _ _); [done|].
  apply solve_moves_latch; [|done].
  intros m Hm s2 Hlatch2. rewrite Forall_forall in IH. by apply IH.
Qed.
End SearchFacts.

(** The states of the search below a state, listed. *)
Fixpoint subtrees (t : GameTree) : list GameTree :=
  match t with
  | GNode _ _ ms => t :: flat_map subtrees ms
  end.

Lemma subtrees_self t : t ∈ subtrees t.
Proof. destruct t. simpl. set_solver. Qed.

Lemma below_subtrees s t : below s t → s ∈ subtrees t.
Proof.
  induction 1 as [t|s m t Hin _ IH]; [apply subtrees_self|].
  destruct t as [h w ms]. simpl in *. apply list_elem_of_further.
  apply list_elem_of_In, in_flat_map. exists m. split; [done|].
  by apply list_elem_of_In.
Qed.

(** A check of [hash_faithful] that runs. *)
Definition hash_faithful_check (root : GameTree) : bool :=
  forallb (λ s1,
    forallb (λ s2,
      negb (N.eqb (hash s1) (hash s2)) || Bool.eqb (wins s1) (wins s2))
      (subtrees root))
    (subtrees root).

Lemma hash_faithful_check_ok root :
  hash_faithful_check root = true → hash_faithful root.
Proof.
  unfold hash_faithful_check. rewrite forallb_forall.
  intros Hcheck s1 s2 Hs1%below_subtrees%list_elem_of_In
    Hs2%below_subtrees%list_elem_of_In Hhash.
  specialize (Hcheck s1 Hs1). rewrite forallb_forall in Hcheck.
  specialize (Hcheck s2 Hs2). rewrite Hhash, N.eqb_refl in Hcheck.
  by apply Bool.eqb_prop.
Qed.

Lemma table_sound_empty root : table_sound root ∅.
Proof. intros s win _. by rewrite lookup_empty. Qed.


(** A game of three states: the colour to play has one move, after which the
    opponent has lost. *)
Definition env0 : Environment := mkEnvironment (λ _, false) (λ poll, Z.of_nat poll).
Definition unlimited : Settings := mkSettings 0 NO_DEPTH_LIMIT NO_TIME_LIMIT.
Definition tree0 : GameTree :=
  GNode 0 None [GNode 1 None [GNode 3 (Some true) []];
                GNode 2 (Some false) []].


(** With a depth limit of one the same search is given up at the first
    move, and with none it is won. *)
Example Solve_tree0 :
  (Solve env0 unlimited tree0 ∅).1 = WIN
  ∧ (Solve env0 (mkSettings 0 1 NO_TIME_LIMIT) tree0 ∅).1 = UNKNOWN.
Proof. split; vm_compute; reflexivity. Qed.

(** A game in which the colour to play wins by its second move, the states
    after its two moves having the same hash although the opponent wins the
    first and loses the second. *)
Definition tree1 : GameTree :=
  GNode 0 None [GNode 5 None [GNode 1 (Some false) []];
                GNode 5 None [GNode 2 (Some true) []]].

End DfsSolverFacts.

(** * Further properties of the engine *)

(** ** What the fill-in writes to the accumulator *)

Section Recording.
Context `{ConstBoard} `{GroupBuilder} `{PatternState}.
Import Inf InfFacts.

Variable ice : ICEngine.
Variable ctc : HexColorSet.

(** The writes of the fill-in passes to the accumulator: dead cells;
    captured cells, for a colour to capture; permanently inferior cells, for
    a colour to capture and with the option on; vulnerable cells, added or
    cleared. *)
Inductive record_step : InferiorCells → InferiorCells → Prop :=
| record_dead inf s : record_step inf (AddDead s inf)
| record_captured inf c s :
    HexColorSetUtil.InSet c ctc = true → record_step inf (AddCaptured c s inf)
| record_perm_inf inf c s car :
    m_find_permanently_inferior ice = true →
    HexColorSetUtil.InSet c ctc = true →
    record_step inf (AddPermInf c s car inf)
| record_vulnerable inf p k : record_step inf (AddVulnerable p k inf)
| record_clear inf : record_step inf (ClearVulnerable inf).

Definition recorded := rtc record_step.

Lemma recorded_refl inf : recorded inf inf.
Proof. apply rtc_refl. Qed.

Hint Resolve recorded_refl : core.

Lemma recorded_foldl {A} (f : InferiorCells → A → InferiorCells) l inf :
  (∀ inf x, recorded inf (f inf x)) → recorded inf (foldl f inf l).
Proof.
  intros Hf. apply (foldl_invariant (λ inf', recorded inf inf')); [done|].
  intros inf' x _ Hinf. by etrans.
Qed.

Lemma UseGraphTheoryToFindDeadVulnerable_recorded color brd inf :
  recorded inf (UseGraphTheoryToFindDeadVulnerable color brd inf).2.
Proof.
  unfold UseGraphTheoryToFindDeadVulnerable. cbv zeta.
  set (body := λ (acc : gset nat * InferiorCells) (p : nat), _).
  assert (recorded inf (foldl body (∅, inf) (BitsetIterator
            (getEmpty brd ∖ (NbsColor brd (Build brd) (colorEdge1 color) EMPTY
               ∩ NbsColor brd (Build brd) (colorEdge2 color) EMPTY)))).2) as Hfold.
  { apply (foldl_invariant (λ acc : gset nat * InferiorCells, recorded inf acc.2));
      [done|].
    intros [simp inf1] p _ Hrec. unfold body.
    destruct (examine color brd (Build brd) p) as [found killers].
    cbn [fst snd] in *. etrans; [done|].
    apply recorded_foldl. intros. apply rtc_once, record_vulnerable. }
  destruct (foldl body _ _) as [simplicial inf1]. cbn [snd] in Hfold.
  destruct (any simplicial); cbn [snd]; [|done].
  etrans; [done|]. apply rtc_once, record_dead.
Qed.

Lemma FindVulnerable_recorded brd color consider inf :
  recorded inf (FindVulnerable ice brd color consider inf).
Proof.
  unfold FindVulnerable. cbv zeta.
  apply recorded_foldl. intros inf1 p.
  apply recorded_foldl. intros. apply rtc_once, record_vulnerable.
Qed.

Lemma FillInVulnerable_recorded color brd inf :
  recorded inf (FillInVulnerable ice color brd inf ctc).1.2.
Proof.
  unfold FillInVulnerable. cbv zeta.
  pose proof (UseGraphTheoryToFindDeadVulnerable_recorded color brd
                (ClearVulnerable inf)) as Hgraph.
  destruct (UseGraphTheoryToFindDeadVulnerable _ _ _) as [b1 i1].
  cbn [snd] in Hgraph.
  pose proof (FindVulnerable_recorded b1 color (getEmpty b1 ∖ Dead i1) i1) as Hfind.
  assert (recorded inf (FindVulnerable ice b1 color (getEmpty b1 ∖ Dead i1) i1))
    as Hrec.
  { etrans; [apply rtc_once, record_clear|]. by etrans. }
  destruct (HexColorSetUtil.InSet (opp color) ctc) eqn:Hin; [|exact Hrec].
  destruct (any _); cbn [fst snd]; [|done].
  etrans; [done|]. by apply rtc_once, record_captured.
Qed.

Lemma FillinPermanentlyInferior_recorded brd color out :
  recorded out (FillinPermanentlyInferior ice brd color out ctc).1.2.
Proof.
  unfold FillinPermanentlyInferior.
  destruct (m_find_permanently_inferior ice) eqn:Hopt; [|apply rtc_refl]. cbn [negb].
  destruct (HexColorSetUtil.InSet color ctc) eqn:Hin; [|apply rtc_refl]. cbn [negb].
  destruct (FindPermanentlyInferior brd color (getEmpty brd)) as [perm car].
  destruct (any perm); cbn [fst snd]; [|done].
  by apply rtc_once, record_perm_inf.
Qed.

Lemma FillInUnreachable_recorded brd out :
  recorded out (FillInUnreachable ice brd out).1.2.
Proof.
  unfold FillInUnreachable. cbv zeta.
  destruct (any _); cbn [fst snd]; [|done].
  apply rtc_once, record_dead.
Qed.

Lemma ComputeDeadCaptured_loop_recorded fuel brd inf count r :
  ComputeDeadCaptured_loop fuel brd inf count ctc = Some r →
  recorded inf r.1.2.
Proof.
  revert brd inf count.
  induction fuel as [|fuel IH]; intros brd inf count; [done|].
  cbn [ComputeDeadCaptured_loop]. cbv zeta.
  destruct (any (FindDead brd (getEmpty brd))).
  { intros Hr%IH. etrans; [|done]. apply rtc_once, record_dead. }
  destruct (HexColorSetUtil.InSet BLACK ctc) eqn:Hblack.
  - destruct (any (FindCaptured brd BLACK (getEmpty brd))).
    { intros Hr%IH. etrans; [|done]. by apply rtc_once, record_captured. }
    destruct (HexColorSetUtil.InSet WHITE ctc) eqn:Hwhite.
    + destruct (any (FindCaptured brd WHITE (getEmpty brd))).
      { intros Hr%IH. etrans; [|done]. by apply rtc_once, record_captured. }
      by intros [= <-].
    + replace (any ∅) with false by done. by intros [= <-].
  - replace (any ∅) with false by done.
    destruct (HexColorSetUtil.InSet WHITE ctc) eqn:Hwhite.
    + destruct (any (FindCaptured brd WHITE (getEmpty brd))).
      { intros Hr%IH. etrans; [|done]. by apply rtc_once, record_captured. }
      by intros [= <-].
    + replace (any ∅) with false by done. by intros [= <-].
Qed.

Lemma ComputeFillin_pass_recorded color brd out r :
  ComputeFillin_pass ice color brd out ctc = Some r → recorded out r.1.2.
Proof.
  unfold ComputeFillin_pass, ComputeDeadCaptured.
  destruct (ComputeDeadCaptured_loop _ _ _ _ _) as [[[b1 i1] c1]|] eqn:Hloop;
    [|done].
  apply ComputeDeadCaptured_loop_recorded in Hloop. cbn [fst snd] in Hloop.
  cbn [mbind option_bind].
  pose proof (FillinPermanentlyInferior_recorded b1 color i1) as H2.
  destruct (FillinPermanentlyInferior ice b1 color i1 ctc) as [[b2 i2] c2].
  pose proof (FillinPermanentlyInferior_recorded b2 (opp color) i2) as H3.
  destruct (FillinPermanentlyInferior ice b2 (opp color) i2 ctc) as [[b3 i3] c3].
  pose proof (FillInVulnerable_recorded (opp color) b3 i3) as H4.
  destruct (FillInVulnerable ice (opp color) b3 i3 ctc) as [[b4 i4] c4].
  pose proof (FillInVulnerable_recorded color b4 i4) as H5.
  destruct (FillInVulnerable ice color b4 i4 ctc) as [[b5 i5] c5].
  pose proof (FillInUnreachable_recorded b5 i5) as H6.
  cbn [fst snd] in *.
  assert (recorded out i5) as Hrec 
    by (etrans; [exact Hloop|]; etrans; [exact H2|]; etrans; [exact H3|];
        etrans; [exact H4|exact H5]).
  destruct (m_iterative_dead_regions ice).
  - destruct (FillInUnreachable ice b5 i5) as [[b6 i6] c6].
    intros [= <-]. cbn [fst snd] in *. by etrans.
  - by intros [= <-].
Qed.

Lemma ComputeFillin_loop_recorded fuel color brd out r :
  ComputeFillin_loop ice fuel color brd out ctc = Some r → recorded out r.2.
Proof.
  revert brd out. induction fuel as [|fuel IH]; intros brd out; [done|].
  cbn [ComputeFillin_loop].
  destruct (ComputeFillin_pass ice color brd out ctc) as [[[b1 i1] c1]|] eqn:Hpass;
    [|done].
  apply ComputeFillin_pass_recorded in Hpass. cbn [fst snd] in Hpass.
  cbn [mbind option_bind]. case_decide.
  - by intros [= <-].
  - intros Hr%IH. by etrans.
Qed.

Lemma ComputeFillin_recorded color brd out r :
  ComputeFillin ice color brd out ctc = Some r → recorded Empty r.2.
Proof.
  unfold ComputeFillin. cbv zeta.
  destruct (ComputeFillin_loop _ _ _ _ _ _) as [[b1 i1]|] eqn:Hloop; [|done].
  apply ComputeFillin_loop_recorded in Hloop. cbn [snd] in Hloop.
  cbn [mbind option_bind].
  destruct (negb _); [|by intros [= <-]].
  pose proof (FillInUnreachable_recorded b1 i1) as Hun.
  destruct (FillInUnreachable ice b1 i1) as [[b2 i2] c2].
  intros [= <-]. cbn [fst snd] in *. by etrans.
Qed.

(** What the writes leave alone. *)
Lemma recorded_Captured c inf inf' :
  HexColorSetUtil.InSet c ctc = false →
  recorded inf inf' → Captured c inf' = Captured c inf.
Proof.
  intros Hc. induction 1 as [|i1 i2 i3 Hstep _ IH]; [done|].
  rewrite IH. destruct Hstep as [inf s|inf c0 s Hin|inf c0 s car _ Hin|inf p k|inf].
  - apply Captured_AddDead.
  - destruct c0; [| |done].
    + rewrite Captured_AddCaptured by done. case_decide; [congruence|done].
    + rewrite Captured_AddCaptured by done. case_decide; [congruence|done].
  - apply Captured_AddPermInf.
  - by destruct c.
  - by destruct c.
Qed.

Lemma recorded_PermInf c inf inf' :
  m_find_permanently_inferior ice = false →
  recorded inf inf' →
  PermInf c inf' = PermInf c inf ∧ PermInfCarrier c inf' = PermInfCarrier c inf.
Proof.
  intros Hopt. induction 1 as [|i1 i2 i3 Hstep _ [IH1 IH2]]; [done|].
  rewrite IH1, IH2.
  destruct Hstep as [inf s|inf c0 s Hin|inf c0 s car Hon Hin|inf p k|inf];
    try by destruct c.
  - by destruct c, c0.
  - congruence.
Qed.

Lemma recorded_color c inf inf' :
  HexColorSetUtil.InSet c ctc = false →
  recorded inf inf' →
  Captured c inf' = Captured c inf ∧ PermInf c inf' = PermInf c inf
  ∧ PermInfCarrier c inf' = PermInfCarrier c inf.
Proof.
  intros Hc. induction 1 as [|i1 i2 i3 Hstep _ (IH1 & IH2 & IH3)]; [done|].
  rewrite IH1, IH2, IH3.
  destruct Hstep as [inf s|inf c0 s Hin|inf c0 s car _ Hin|inf p k|inf];
    try by destruct c.
  - destruct c, c0; try done; congruence.
  - destruct c, c0; try done; congruence.
Qed.

Lemma recorded_Reversible_Dominated inf inf' :
  recorded inf inf' →
  m_reversible inf' ⊆ m_reversible inf ∧ m_dominated inf' ⊆ m_dominated inf.
Proof.
  induction 1 as [|i1 i2 i3 Hstep _ [IH1 IH2]]; [done|].
  assert (m_reversible i2 ⊆ m_reversible i1 ∧ m_dominated i2 ⊆ m_dominated i1)
    as [? ?]; [|set_solver].
  destruct Hstep as [inf s|inf c0 s Hin|inf c0 s car Hon Hin|inf p k|inf];
    try done.
  - simpl. set_solver.
  - destruct c0; simpl; set_solver.
  - destruct c0; simpl; set_solver.
Qed.
End Recording.

Section RecordingTheorems.
Context `{ConstBoard} `{GroupBuilder} `{PatternState}.
Import Inf InfFacts.

(** X1: [ICEngine::ComputeFillin] fills in for the colours to capture only:
    for a colour that is not in [colors_to_capture] it records no captured
    and no permanently inferior cell, whatever the board, the colour to play
    and the options. *)
Theorem ComputeFillin_colors_to_capture
    (ice : ICEngine) (color : HexColor) (brd : StoneBoard)
    (out : InferiorCells) (colors_to_capture : HexColorSet) (c : HexColor) :
  isBlackWhite DEAD_COLOR = true →
  isBlackWhite color = true →
  HexColorSetUtil.InSet c colors_to_capture = false →
  ∃ brd' out',
    ComputeFillin ice color brd out colors_to_capture = Some (brd', out')
    ∧ Captured c out' = ∅ ∧ PermInf c out' = ∅ ∧ PermInfCarrier c out' = ∅.
Proof.
  intros Hdead Hcolor Hc.
  destruct (ComputeFillin_ok ice false Hdead ltac:(done) color brd out
              colors_to_capture Hcolor) as (brd' & out' & Heq & _).
  exists brd', out'. split; [done|].
  apply ComputeFillin_recorded in Heq. cbn [snd] in Heq.
  destruct (recorded_color _ _ c _ _ Hc Heq) as (-> & -> & ->).
  by destruct c.
Qed.
End RecordingTheorems.

Lemma ComputeFillin_colors_to_capture_witness :
  isBlackWhite (DEAD_COLOR (ConstBoard := Hex.board 3 2)) = true
  ∧ isBlackWhite WHITE = true
  ∧ HexColorSetUtil.InSet BLACK WHITE_ONLY = false
  ∧ ∃ brd' out',
      ComputeFillin (H := Hex.board 3 2) (H0 := Hex.groups 3 2)
        (H1 := Hex.no_patterns) ICEngine_default WHITE HexEngine.position
        Inf.Empty WHITE_ONLY = Some (brd', out')
      ∧ Inf.Captured BLACK out' = ∅ ∧ Inf.PermInf BLACK out' = ∅
      ∧ Inf.PermInfCarrier BLACK out' = ∅.
Proof.
  split; [reflexivity|]. split; [reflexivity|]. split; [reflexivity|].
  apply (ComputeFillin_colors_to_capture (H := Hex.board 3 2)
           (H0 := Hex.groups 3 2) (H1 := Hex.no_patterns)); reflexivity.
Defined.

(** ** The annotations of [ComputeInferiorCells] *)

Section Annotations.
Context `{ConstBoard} `{GroupBuilder} `{PatternState}.
Import Inf InfFacts.

Variable ice : ICEngine.

Lemma Reversible_AddReversible p r inf :
  Reversible (AddReversible p r inf) = Reversible inf ∪ {[ p ]}.
Proof. unfold Reversible; simpl. by rewrite keys_union, keys_singleton. Qed.

Lemma Dominated_AddDominated p d inf :
  Dominated (AddDominated p d inf) = Dominated inf ∪ {[ p ]}.
Proof. unfold Dominated; simpl. by rewrite keys_union, keys_singleton. Qed.

(** A write of a reversible cell at a cell to consider. *)
Definition writes_reversible (consider : gset nat) (inf inf' : InferiorCells)
  : Prop :=
  same_fillin inf inf'
  ∧ m_vulnerable inf' = m_vulnerable inf
  ∧ m_dominated inf' = m_dominated inf
  ∧ Reversible inf' ⊆ Reversible inf ∪ consider.

Definition writes_dominated (consider : gset nat) (inf inf' : InferiorCells)
  : Prop :=
  same_fillin inf inf'
  ∧ m_vulnerable inf' = m_vulnerable inf
  ∧ m_reversible inf' = m_reversible inf
  ∧ Dominated inf' ⊆ Dominated inf ∪ consider.

Lemma writes_reversible_refl consider inf : writes_reversible consider inf inf.
Proof. split; [apply same_fillin_refl|]. set_solver. Qed.

Lemma writes_dominated_refl consider inf : writes_dominated consider inf inf.
Proof. split; [apply same_fillin_refl|]. set_solver. Qed.

Lemma writes_reversible_add consider inf inf' p r :
  p ∈ consider → writes_reversible consider inf inf' →
  writes_reversible consider inf (AddReversible p r inf').
Proof.
  intros Hp (Hs & Hv & Hd & Hr).
  split; [eapply same_fillin_trans; [done|]; by repeat split|].
  split; [done|]. split; [done|].
  rewrite Reversible_AddReversible. set_solver.
Qed.

Lemma writes_dominated_add consider inf inf' p d :
  p ∈ consider → writes_dominated consider inf inf' →
  writes_dominated consider inf (AddDominated p d inf').
Proof.
  intros Hp (Hs & Hv & Hr & Hd).
  split; [eapply same_fillin_trans; [done|]; by repeat split|].
  split; [done|]. split; [done|].
  rewrite Dominated_AddDominated. set_solver.
Qed.

(** [FindReversible] writes reversible cells only, at cells to consider. *)
Lemma FindReversible_frame brd color consider inf :
  writes_reversible consider inf (FindReversible ice brd color consider inf).
Proof.
  unfold FindReversible. cbv zeta.
  apply (foldl_invariant (writes_reversible consider inf));
    [apply writes_reversible_refl|].
  intros inf1 p Hp%elem_of_BitsetIterator IH.
  assert (p ∈ consider) as Hpc.
  { revert Hp. apply MatchOnBoard_subseteq. }
  apply (foldl_invariant (writes_reversible consider inf)); [done|].
  intros inf2 hit _ IH2.
  apply (foldl_invariant (writes_reversible consider inf)).
  - by apply writes_reversible_add.
  - intros inf3 q _ IH3. case_decide; [|done]. by apply writes_reversible_add.
Qed.

Lemma CheckHandCodedDominates_frame brd color pat consider inf inf' :
  writes_dominated consider inf inf' →
  writes_dominated consider inf
    (CheckHandCodedDominates brd color pat consider inf').
Proof.
  intros Hw. unfold CheckHandCodedDominates. cbv zeta.
  case_decide; [done|].
  set (pat1 := if decide (color = WHITE) then _ else _).
  assert (writes_dominated consider inf
            (if test consider (dominatee pat1) && check pat1 brd
             then AddDominated (dominatee pat1) (dominator pat1) inf'
             else inf')) as Hw1.
  { destruct (test consider (dominatee pat1)) eqn:Ht; [|done].
    destruct (check pat1 brd); [|done]. cbn [andb].
    apply writes_dominated_add; [by apply test_true|done]. }
  destruct (test consider (dominatee (rotate pat1))) eqn:Ht; [|done].
  destruct (check (rotate pat1) brd); [|done]. cbn [andb].
  apply writes_dominated_add; [by apply test_true|done].
Qed.

(** [FindDominated] writes dominated cells only, at cells to consider. *)
Lemma FindDominated_frame brd color consider inf :
  writes_dominated consider inf (FindDominated ice brd color consider inf).
Proof.
  unfold FindDominated. cbv zeta.
  match goal with
  | |- writes_dominated _ _ (if _ then _ ?i else ?i') =>
      assert (writes_dominated consider inf i) as Hpat
  end.
  { apply (foldl_invariant (writes_dominated consider inf));
      [apply writes_dominated_refl|].
    intros inf1 p Hp%elem_of_BitsetIterator IH.
    assert (p ∈ consider) as Hpc.
    { revert Hp. apply MatchOnBoard_subseteq. }
    apply (foldl_invariant (writes_dominated consider inf)); [done|].
    intros inf2 hit _ IH2. by apply writes_dominated_add. }
  destruct (m_use_handcoded_patterns ice); [|done].
  unfold FindHandCodedDominated. case_decide; [done|].
  apply (foldl_invariant (writes_dominated consider inf)); [done|].
  intros inf1 pat _ IH. by apply CheckHandCodedDominates_frame.
Qed.

(** The stages of [ComputeInferiorCells]. *)
Lemma ComputeInferiorCells_stages dctc color brd out brd' out' :
  ComputeInferiorCells ice dctc color brd out = Some (brd', out') →
  ∃ i1,
    ComputeFillin ice color brd out dctc = Some (brd', i1)
    ∧ let i2 := FindReversible ice brd' color (getEmpty brd' ∖ Vulnerable i1) i1 in
      let i3 := FindDominated ice brd' color
                  (getEmpty brd' ∖ Vulnerable i2 ∖ Reversible i2) i2 in
      if m_backup_opponent_dead ice
      then ∃ n, BackupOpponentDead ice dctc color brd' i3 = Some (out', n)
      else out' = i3.
Proof.
  unfold ComputeInferiorCells.
  destruct (ComputeFillin ice color brd out dctc) as [[b1 i1]|]; [|done].
  cbn [mbind option_bind]. cbv zeta.
  destruct (m_backup_opponent_dead ice).
  - destruct (BackupOpponentDead _ _ _ _ _) as [[o n]|] eqn:Hb; [|done].
    cbn [mbind option_bind]. intros [= <- <-]. exists i1. split; [done|].
    by exists n.
  - intros [= <- <-]. by exists i1.
Qed.
End Annotations.

Section AnnotationTheorems.
Context `{ConstBoard} `{GroupBuilder} `{PatternState}.
Import Inf InfFacts.

(** X2: with the option [find_permanently_inferior] off, as the solver
    needs it, [ICEngine::ComputeInferiorCells] records no permanently
    inferior cell and no carrier of one, for either colour. *)
Theorem ComputeInferiorCells_no_permanently_inferior
    (ice : ICEngine) (default_colors_to_capture : HexColorSet)
    (color : HexColor) (brd : StoneBoard) (out : InferiorCells) :
  isBlackWhite DEAD_COLOR = true →
  isBlackWhite color = true →
  m_find_permanently_inferior ice = false →
  ∃ brd' out',
    ComputeInferiorCells ice default_colors_to_capture color brd out
      = Some (brd', out')
    ∧ ∀ c, PermInf c out' = ∅ ∧ PermInfCarrier c out' = ∅.
Proof.
  intros Hdead Hcolor Hopt.
  destruct (ComputeInferiorCells_ok ice default_colors_to_capture false Hdead
              ltac:(done) color brd out Hcolor) as (brd' & out' & Heq & _).
  exists brd', out'. split; [done|]. intros c.
  destruct (ComputeInferiorCells_stages _ _ _ _ _ _ _ Heq) as (i1 & Hfill & Hrest).
  apply ComputeFillin_recorded in Hfill. cbn [snd] in Hfill.
  destruct (recorded_PermInf _ _ c _ _ Hopt Hfill) as [Hp Hc].
  cbv zeta in Hrest.
  set (i2 := FindReversible ice brd' color (getEmpty brd' ∖ Vulnerable i1) i1)
    in Hrest.
  set (i3 := FindDominated ice brd' color _ i2) in Hrest.
  destruct (FindReversible_frame ice brd' color (getEmpty brd' ∖ Vulnerable i1) i1)
    as [Hs2 _]. fold i2 in Hs2.
  destruct (FindDominated_frame ice brd' color
              (getEmpty brd' ∖ Vulnerable i2 ∖ Reversible i2) i2) as [Hs3 _].
  fold i3 in Hs3.
  assert (same_fillin i1 out') as Hs.
  { eapply same_fillin_trans; [exact Hs2|].
    eapply same_fillin_trans; [exact Hs3|].
    destruct (m_backup_opponent_dead ice); [|subst out'; apply same_fillin_refl].
    destruct Hrest as [n Hb].
    destruct (BackupOpponentDead_spec ice default_colors_to_capture Hdead color
                brd' i3 Hcolor) as (o & found & Hb' & [Hsame _] & _).
    rewrite Hb in Hb'. by injection Hb' as <- <-. }
  destruct Hs as (_ & _ & _ & Hpb & Hpw & Hcb & Hcw).
  destruct c; cbn in *; by rewrite ?Hpb, ?Hpw, ?Hcb, ?Hcw, ?Hp, ?Hc.
Qed.

(** X3: after [ICEngine::ComputeInferiorCells] no cell carries two kinds of
    annotation: the vulnerable, the reversible and the dominated cells are
    pairwise disjoint. *)
Theorem ComputeInferiorCells_annotations_exclusive
    (ice : ICEngine) (default_colors_to_capture : HexColorSet)
    (color : HexColor) (brd : StoneBoard) (out : InferiorCells) :
  isBlackWhite DEAD_COLOR = true →
  isBlackWhite color = true →
  ∃ brd' out',
    ComputeInferiorCells ice default_colors_to_capture color brd out
      = Some (brd', out')
    ∧ Vulnerable out' ## Reversible out'
    ∧ Vulnerable out' ## Dominated out'
    ∧ Reversible out' ## Dominated out'.
Proof.
  intros Hdead Hcolor.
  destruct (ComputeInferiorCells_ok ice default_colors_to_capture false Hdead
              ltac:(done) color brd out Hcolor) as (brd' & out' & Heq & _).
  exists brd', out'. split; [done|].
  destruct (ComputeInferiorCells_stages _ _ _ _ _ _ _ Heq) as (i1 & Hfill & Hrest).
  apply ComputeFillin_recorded in Hfill. cbn [snd] in Hfill.
  destruct (recorded_Reversible_Dominated _ _ _ _ Hfill) as [Hr1 Hd1].
  cbn in Hr1, Hd1.
  cbv zeta in Hrest.
  set (i2 := FindReversible ice brd' color (getEmpty brd' ∖ Vulnerable i1) i1)
    in Hrest.
  set (i3 := FindDominated ice brd' color _ i2) in Hrest.
  destruct (FindReversible_frame ice brd' color (getEmpty brd' ∖ Vulnerable i1) i1)
    as (_ & Hv2 & Hd2 & Hr2). fold i2 in Hv2, Hd2, Hr2.
  destruct (FindDominated_frame ice brd' color
              (getEmpty brd' ∖ Vulnerable i2 ∖ Reversible i2) i2)
    as (_ & Hv3 & Hr3 & Hd3).
  fold i3 in Hv3, Hr3, Hd3.
  assert (Vulnerable i3 ## Reversible i3 ∧ Vulnerable i3 ## Dominated i3
          ∧ Reversible i3 ## Dominated i3) as (Ha & Hb & Hc).
  { assert (Reversible i1 = ∅) as Hre.
    { unfold Reversible. replace (m_reversible i1) with (∅ : gset (nat * nat))
        by set_solver. apply keys_empty. }
    assert (Dominated i1 = ∅) as Hde.
    { unfold Dominated. replace (m_dominated i1) with (∅ : gset (nat * nat))
        by set_solver. apply keys_empty. }
    assert (Vulnerable i2 = Vulnerable i1) as Hv21
      by (unfold Vulnerable; by rewrite Hv2).
    assert (Vulnerable i3 = Vulnerable i1) as Hv31
      by (unfold Vulnerable; by rewrite Hv3, Hv2).
    assert (Reversible i3 = Reversible i2) as Hr32
      by (unfold Reversible; by rewrite Hr3).
    assert (Dominated i2 = ∅) as Hd21
      by (unfold Dominated in *; by rewrite Hd2).
    rewrite Hv31, Hr32. rewrite Hd21, Hv21 in Hd3. rewrite Hre in Hr2.
    revert Hr2 Hd3.
    generalize (Vulnerable i1) (Reversible i2) (Dominated i3) (getEmpty brd').
    clear. set_solver. }
  destruct (m_backup_opponent_dead ice); [|by subst out'].
  destruct Hrest as [n Hbk].
  destruct (BackupOpponentDead_spec ice default_colors_to_capture Hdead color
              brd' i3 Hcolor) as (o & found & Hbk' & [_ [Hrev Hdom]] & Hvul).
  rewrite Hbk in Hbk'. injection Hbk' as <- <-.
  assert (∀ d, d ∈ Vulnerable out' →
               d ∈ Vulnerable i3 ∨ ((d ∉ Reversible i3) ∧ (d ∉ Dominated i3)))
    as Hnew.
  { intros d [k Hk]%elem_of_keys. apply Hvul in Hk as [Hk|(_ & ? & ? & _)].
    - left. apply elem_of_keys. by exists k.
    - by right. }
  assert (Reversible out' = Reversible i3) as ->
    by (unfold Reversible; by rewrite Hrev).
  assert (Dominated out' = Dominated i3) as ->
    by (unfold Dominated; by rewrite Hdom).
  repeat split; [| |done]; intros d Hd%Hnew Hd'.
  - destruct Hd as [Hd|[Hd _]]; [by apply (Ha d)|done].
  - destruct Hd as [Hd|[_ Hd]]; [by apply (Hb d)|done].
Qed.
End AnnotationTheorems.

Lemma ComputeInferiorCells_no_permanently_inferior_witness :
  let ice := mkICEngine true false true false false true true false false in
  isBlackWhite (DEAD_COLOR (ConstBoard := Hex.board 3 2)) = true
  ∧ isBlackWhite BLACK = true
  ∧ m_find_permanently_inferior ice = false
  ∧ ∃ brd' out',
      ComputeInferiorCells (H := Hex.board 3 2) (H0 := Hex.groups 3 2)
        (H1 := Hex.no_patterns) ice ALL_COLORS BLACK HexEngine.position
        Inf.Empty = Some (brd', out')
      ∧ ∀ c, Inf.PermInf c out' = ∅ ∧ Inf.PermInfCarrier c out' = ∅.
Proof.
  intros ice.
  split; [reflexivity|]. split; [reflexivity|]. split; [reflexivity|].
  apply (ComputeInferiorCells_no_permanently_inferior (H := Hex.board 3 2)
           (H0 := Hex.groups 3 2) (H1 := Hex.no_patterns)); reflexivity.
Defined.

Lemma ComputeInferiorCells_annotations_exclusive_witness :
  isBlackWhite (DEAD_COLOR (ConstBoard := Hex.board 3 2)) = true
  ∧ isBlackWhite WHITE = true
  ∧ ∃ brd' out',
      ComputeInferiorCells (H := Hex.board 3 2) (H0 := Hex.groups 3 2)
        (H1 := Hex.no_patterns) ICEngine_backup ALL_COLORS WHITE
        HexEngine.position Inf.Empty = Some (brd', out')
      ∧ Inf.Vulnerable out' ## Inf.Reversible out'
      ∧ Inf.Vulnerable out' ## Inf.Dominated out'
      ∧ Inf.Reversible out' ## Inf.Dominated out'.
Proof.
  split; [reflexivity|]. split; [reflexivity|].
  apply (ComputeInferiorCells_annotations_exclusive (H := Hex.board 3 2)
           (H0 := Hex.groups 3 2) (H1 := Hex.no_patterns)); reflexivity.
Defined.

(** ** The board and the accumulator *)

Section BoardAndAccumulator.
Context `{ConstBoard} `{GroupBuilder} `{PatternState}.
Import Inf InfFacts.

(** Fill-in steps add to the board what they add to the accumulator. *)
Lemma fill_steps_board strong x y :
  isBlackWhite DEAD_COLOR = true →
  fill_steps strong x y →
  ∃ Δb Δw,
    getBlack y.1 = getBlack x.1 ∪ Δb
    ∧ Fillin DEAD_COLOR BLACK y.2 = Fillin DEAD_COLOR BLACK x.2 ∪ Δb
    ∧ getWhite y.1 = getWhite x.1 ∪ Δw
    ∧ Fillin DEAD_COLOR WHITE y.2 = Fillin DEAD_COLOR WHITE x.2 ∪ Δw.
Proof.
  intros Hdead. induction 1 as [x|x y z Hxy _ (Δb & Δw & IH1 & IH2 & IH3 & IH4)].
  { exists ∅, ∅. set_solver. }
  assert (∃ Δb Δw,
            getBlack y.1 = getBlack x.1 ∪ Δb
            ∧ Fillin DEAD_COLOR BLACK y.2 = Fillin DEAD_COLOR BLACK x.2 ∪ Δb
            ∧ getWhite y.1 = getWhite x.1 ∪ Δw
            ∧ Fillin DEAD_COLOR WHITE y.2 = Fillin DEAD_COLOR WHITE x.2 ∪ Δw)
    as (Δb' & Δw' & H1' & H2' & H3' & H4').
  { destruct Hxy as [brd inf s Hs|brd inf c s Hc Hs|brd inf c s car Hc Hs
                    |brd inf inf' Hsame Hann]; cbn [fst snd].
    - destruct DEAD_COLOR eqn:Hdc; [| |done].
      + exists s, ∅. unfold Fillin, getBlack, getWhite. cbn.
        repeat case_decide; try done; set_solver.
      + exists ∅, s. unfold Fillin, getBlack, getWhite. cbn.
        repeat case_decide; try done; set_solver.
    - destruct c; [| |done].
      + exists s, ∅. unfold Fillin, getBlack, getWhite. cbn.
        repeat case_decide; try done; set_solver.
      + exists ∅, s. unfold Fillin, getBlack, getWhite. cbn.
        repeat case_decide; try done; set_solver.
    - destruct c; [| |done].
      + exists s, ∅. unfold Fillin, getBlack, getWhite. cbn.
        repeat case_decide; try done; set_solver.
      + exists ∅, s. unfold Fillin, getBlack, getWhite. cbn.
        repeat case_decide; try done; set_solver.
    - exists ∅, ∅. destruct Hsame as (Hd & Hcb & Hcw & Hpb & Hpw & _).
      unfold Fillin, Captured, PermInf, Dead. cbn.
      rewrite Hd, Hcb, Hcw, Hpb, Hpw. set_solver. }
  exists (Δb' ∪ Δb), (Δw' ∪ Δw).
  rewrite IH1, IH2, IH3, IH4, H1', H2', H3', H4'. set_solver.
Qed.

(** X4: the stones that [ICEngine::ComputeFillin] adds to the board are
    the cells it records: the black stones of the board it leaves are those
    of the board it was given and the fill-in recorded for Black, the
    captured and permanently inferior cells and, Black being the colour of
    dead cells, the dead cells; and likewise for White. *)
Theorem ComputeFillin_board_is_fillin
    (ice : ICEngine) (color : HexColor) (brd : StoneBoard)
    (out : InferiorCells) (colors_to_capture : HexColorSet) :
  isBlackWhite DEAD_COLOR = true →
  isBlackWhite color = true →
  ∃ brd' out',
    ComputeFillin ice color brd out colors_to_capture = Some (brd', out')
    ∧ getBlack brd' = getBlack brd ∪ Fillin DEAD_COLOR BLACK out'
    ∧ getWhite brd' = getWhite brd ∪ Fillin DEAD_COLOR WHITE out'.
Proof.
  intros Hdead Hcolor.
  destruct (ComputeFillin_ok ice false Hdead ltac:(done) color brd out
              colors_to_capture Hcolor) as (brd' & out' & Heq & Hsteps).
  exists brd', out'. split; [done|].
  destruct (fill_steps_board _ _ _ Hdead Hsteps)
    as (Δb & Δw & H1' & H2' & H3' & H4').
  cbn [fst snd] in *. rewrite H1', H2', H3', H4'.
  unfold Fillin. cbn. repeat case_decide; set_solver.
Qed.
End BoardAndAccumulator.

Lemma ComputeFillin_board_is_fillin_witness :
  isBlackWhite (DEAD_COLOR (ConstBoard := Hex.board 3 2)) = true
  ∧ isBlackWhite WHITE = true
  ∧ ∃ brd' out',
      HexEngine.ComputeFillin32 WHITE HexEngine.position = Some (brd', out')
      ∧ getBlack brd' = getBlack HexEngine.position
                        ∪ Inf.Fillin BLACK BLACK out'
      ∧ getWhite brd' = getWhite HexEngine.position
                        ∪ Inf.Fillin BLACK WHITE out'.
Proof.
  split; [reflexivity|]. split; [reflexivity|].
  apply (ComputeFillin_board_is_fillin (H := Hex.board 3 2)
           (H0 := Hex.groups 3 2) (H1 := Hex.no_patterns) ICEngine_default WHITE
           HexEngine.position Inf.Empty ALL_COLORS); reflexivity.
Defined.

(** ** The counts of the passes *)

Section Counts.
Context `{ConstBoard} `{GroupBuilder} `{PatternState}.
Import Inf InfFacts.

Lemma addColor_size c s b :
  isBlackWhite c = true → s ⊆ getEmpty b →
  size s + size (getEmpty (addColor c s b)) = size (getEmpty b).
Proof.
  intros Hc Hs. rewrite getEmpty_addColor by done.
  rewrite size_difference by done.
  pose proof (subseteq_size _ _ Hs). lia.
Qed.

Lemma ComputeDeadCaptured_loop_count fuel brd inf count ctc r :
  isBlackWhite DEAD_COLOR = true →
  carriers_empty →
  ComputeDeadCaptured_loop fuel brd inf count ctc = Some r →
  r.2 + size (getEmpty r.1.1) = count + size (getEmpty brd).
Proof.
  intros Hdead Hcar. revert brd inf count.
  induction fuel as [|fuel IH]; intros brd inf count; [done|].
  cbn [ComputeDeadCaptured_loop]. cbv zeta.
  assert (∀ c, FindCaptured brd c (getEmpty brd) ⊆ getEmpty brd) as Hcap.
  { intros c. by apply (FindCaptured_spec brd c (getEmpty brd)). }
  destruct (any (FindDead brd (getEmpty brd))).
  { intros ->%IH.
    pose proof (addColor_size DEAD_COLOR (FindDead brd (getEmpty brd)) brd Hdead
                  (FindDead_subseteq _ _)). lia. }
  destruct (HexColorSetUtil.InSet BLACK ctc).
  - destruct (any (FindCaptured brd BLACK (getEmpty brd))).
    { intros ->%IH.
      pose proof (addColor_size BLACK _ brd eq_refl (Hcap BLACK)). lia. }
    destruct (HexColorSetUtil.InSet WHITE ctc).
    + destruct (any (FindCaptured brd WHITE (getEmpty brd))).
      { intros ->%IH.
        pose proof (addColor_size WHITE _ brd eq_refl (Hcap WHITE)). lia. }
      by intros [= <-].
    + replace (any ∅) with false by done. by intros [= <-].
  - replace (any ∅) with false by done.
    destruct (HexColorSetUtil.InSet WHITE ctc).
    + destruct (any (FindCaptured brd WHITE (getEmpty brd))).
      { intros ->%IH.
        pose proof (addColor_size WHITE _ brd eq_refl (Hcap WHITE)). lia. }
      by intros [= <-].
    + replace (any ∅) with false by done. by intros [= <-].
Qed.

(** X5: [ICEngine::ComputeDeadCaptured] returns the number of cells it
    filled in, when the carriers of the captured patterns that match are
    empty cells: the count it returns and the number of empty cells it
    leaves add up to the number of empty cells it was given. *)
Theorem ComputeDeadCaptured_count
    (brd : StoneBoard) (inf : InferiorCells) (colors_to_capture : HexColorSet) :
  isBlackWhite DEAD_COLOR = true →
  carriers_empty →
  ∃ brd' inf' count,
    ComputeDeadCaptured brd inf colors_to_capture = Some (brd', inf', count)
    ∧ count + size (getEmpty brd') = size (getEmpty brd).
Proof.
  intros Hdead Hcar.
  destruct (ComputeDeadCaptured_ok true Hdead ltac:(done) brd inf
              colors_to_capture) as ([[brd' inf'] count] & Heq & _).
  exists brd', inf', count. split; [done|].
  by apply (ComputeDeadCaptured_loop_count _ _ _ _ _ _ Hdead Hcar) in Heq.
Qed.

(** X6: once the game is over, one colour's edges being in one group,
    [ICEngine::FillInUnreachable] fills in every empty cell as dead: it
    leaves no empty cell, records them all as dead and returns their
    number; the hash of the board is as before. *)
Theorem FillInUnreachable_game_over
    (ice : ICEngine) (brd : StoneBoard) (out : InferiorCells) :
  isBlackWhite DEAD_COLOR = true →
  IsGameOver (Build brd) = true →
  let r := FillInUnreachable ice brd out in
  getEmpty r.1.1 = ∅
  ∧ Dead r.1.2 = Dead out ∪ getEmpty brd
  ∧ r.2 = size (getEmpty brd)
  ∧ Hash r.1.1 = Hash brd.
Proof.
  intros Hdead Hover. unfold FillInUnreachable. cbv zeta.
  assert (ComputeDeadRegions brd (Build brd) = getEmpty brd) as Hall.
  { unfold ComputeDeadRegions. by rewrite Hover. }
  assert ((if m_find_three_sided_dead_regions ice
           then ComputeDeadRegions brd (Build brd)
                ∪ FindThreeSetCliques brd (Build brd)
           else ComputeDeadRegions brd (Build brd)) = getEmpty brd) as ->.
  { rewrite Hall. destruct (m_find_three_sided_dead_regions ice); [|done].
    pose proof (FindThreeSetCliques_subseteq brd (Build brd)). set_solver. }
  destruct (any (getEmpty brd)) eqn:Hany; cbn [fst snd].
  - rewrite getEmpty_addColor by done. rewrite Dead_AddDead.
    split; [set_solver|]. split; [done|]. split; [done|].
    by destruct (addColor_fills DEAD_COLOR (getEmpty brd) brd).
  - apply any_false in Hany. rewrite Hany. split; [done|].
    split; [set_solver|]. by rewrite size_empty.
Qed.
End Counts.

Lemma ComputeDeadCaptured_count_witness :
  isBlackWhite (DEAD_COLOR (ConstBoard := Hex.board 4 4)) = true
  ∧ carriers_empty (H := Hex.board 4 4) (H0 := HexPatterns.patterns 4 4)
  ∧ ∃ brd' inf' count,
      ComputeDeadCaptured (H := Hex.board 4 4) (H1 := HexPatterns.patterns 4 4)
        HexPatterns.position44 Inf.Empty ALL_COLORS = Some (brd', inf', count)
      ∧ count + size (getEmpty (H := Hex.board 4 4) brd')
        = size (getEmpty (H := Hex.board 4 4) HexPatterns.position44).
Proof.
  split; [reflexivity|]. split; [apply HexPatterns.patterns_carriers_empty|].
  apply (ComputeDeadCaptured_count (H := Hex.board 4 4)
           (H1 := HexPatterns.patterns 4 4));
    [reflexivity|apply HexPatterns.patterns_carriers_empty].
Defined.

(** There the patterns fill in four of the twelve empty cells: d4 and c1
    as dead, a1 and b1 as captured for Black. *)
Example ComputeDeadCaptured_position44 :
  (λ r : StoneBoard * InferiorCells * nat,
     (BitsetIterator (Inf.Dead r.1.2),
      BitsetIterator (Inf.Captured BLACK r.1.2), r.2,
      size (getEmpty (H := Hex.board 4 4) r.1.1)))
  <$> ComputeDeadCaptured (H := Hex.board 4 4) (H1 := HexPatterns.patterns 4 4)
        HexPatterns.position44 Inf.Empty ALL_COLORS
  = Some ([9; 22], [7; 8], 4, 8).
Proof. vm_compute. reflexivity. Qed.

Lemma FillInUnreachable_game_over_witness :
  let brd := Hex.play 2 2 [(BLACK, 7); (WHITE, 8); (BLACK, 9)] in
  let r := FillInUnreachable (H := Hex.board 2 2) (H0 := Hex.groups 2 2)
             ICEngine_default brd Inf.Empty in
  isBlackWhite (DEAD_COLOR (ConstBoard := Hex.board 2 2)) = true
  ∧ IsGameOver (H := Hex.board 2 2) (Build (GroupBuilder := Hex.groups 2 2) brd)
    = true
  ∧ getEmpty (H := Hex.board 2 2) r.1.1 = ∅
  ∧ Inf.Dead r.1.2 = Inf.Dead Inf.Empty ∪ getEmpty (H := Hex.board 2 2) brd
  ∧ r.2 = size (getEmpty (H := Hex.board 2 2) brd)
  ∧ Hash r.1.1 = Hash brd.
Proof.
  intros brd r.
  split; [reflexivity|]. split; [vm_compute; reflexivity|].
  apply (FillInUnreachable_game_over (H := Hex.board 2 2) (H0 := Hex.groups 2 2)
           ICEngine_default brd Inf.Empty);
    [reflexivity|vm_compute; reflexivity].
Defined.

Section BackupCount.
Context `{ConstBoard} `{GroupBuilder} `{PatternState}.
Import Inf InfFacts.

Variable ice : ICEngine.
Variable default_colors_to_capture : HexColorSet.

Lemma BackupOpponentDead_record_count rev dom filled p l acc :
  let r := foldl (BackupOpponentDead_record rev dom filled p) acc l in
  size (Vulnerable r.1) + acc.2 = size (Vulnerable acc.1) + r.2.
Proof.
  revert acc. induction l as [|d l IH]; intros acc; [done|].
  cbn [foldl]. cbv zeta in *.
  specialize (IH (BackupOpponentDead_record rev dom filled p acc d)).
  assert (size (Vulnerable (BackupOpponentDead_record rev dom filled p acc d).1)
          + acc.2
          = size (Vulnerable acc.1)
            + (BackupOpponentDead_record rev dom filled p acc d).2) as Hstep.
  { rewrite BackupOpponentDead_record_cases.
    case_decide as Hd; [|done]. cbn [fst snd].
    rewrite Vulnerable_AddVulnerable.
    rewrite size_union by (apply disjoint_singleton_r, Hd).
    rewrite size_singleton. lia. }
  lia.
Qed.

Lemma BackupOpponentDead_fold_count color board rev dom l acc r :
  foldl (λ acc p, acc ≫= BackupOpponentDead_at ice default_colors_to_capture
                            color board rev dom p) (Some acc) l = Some r →
  size (Vulnerable r.1) + acc.2 = size (Vulnerable acc.1) + r.2.
Proof.
  revert acc. induction l as [|p l IH]; intros acc; [by intros [= <-]|].
  cbn [foldl mbind option_bind].
  destruct (BackupOpponentDead_at _ _ _ _ _ _ _ _) as [acc1|] eqn:Hat.
  - intros Hr%IH.
    unfold BackupOpponentDead_at in Hat. cbv zeta in Hat.
    destruct (ComputeFillin _ _ _ _ _) as [[b inf]|]; [|done].
    cbn [mbind option_bind] in Hat. injection Hat as <-.
    pose proof (BackupOpponentDead_record_count rev dom
                  (Fillin DEAD_COLOR BLACK inf ∪ Fillin DEAD_COLOR WHITE inf) p
                  (BitsetIterator (Dead inf)) acc) as Hc.
    cbv zeta in Hc. lia.
  - assert (∀ l', foldl (λ acc p, acc ≫= BackupOpponentDead_at ice
                      default_colors_to_capture color board rev dom p) None l'
                  = None) as Hnone.
    { induction l'; [done|]. done. }
    by rewrite Hnone.
Qed.

(** X7: [ICEngine::BackupOpponentDead] returns the number of cells it has
    made vulnerable: the vulnerable cells after the call are as many as
    before the call and the count returned together. *)
Theorem BackupOpponentDead_found
    (color : HexColor) (board : StoneBoard) (out : InferiorCells) :
  isBlackWhite DEAD_COLOR = true →
  isBlackWhite color = true →
  ∃ out' found,
    BackupOpponentDead ice default_colors_to_capture color board out
      = Some (out', found)
    ∧ size (Vulnerable out') = size (Vulnerable out) + found
    ∧ Vulnerable out ⊆ Vulnerable out'.
Proof.
  intros Hdead Hcolor.
  destruct (BackupOpponentDead_spec ice default_colors_to_capture Hdead color
              board out Hcolor) as (out' & found & Heq & _ & Hvul).
  exists out', found. split; [done|]. split.
  - unfold BackupOpponentDead in Heq. cbv zeta in Heq.
    apply BackupOpponentDead_fold_count in Heq. cbn [fst snd] in Heq. lia.
  - intros d [k Hk]%elem_of_keys. apply elem_of_keys. exists k.
    apply Hvul. by left.
Qed.
End BackupCount.

Lemma BackupOpponentDead_found_witness :
  isBlackWhite (DEAD_COLOR (ConstBoard := Hex.board 3 2)) = true
  ∧ isBlackWhite BLACK = true
  ∧ ∃ out' found,
      BackupOpponentDead (H := Hex.board 3 2) (H0 := Hex.groups 3 2)
        (H1 := Hex.no_patterns) ICEngine_default ALL_COLORS BLACK
        HexEngine.position Inf.Empty = Some (out', found)
      ∧ size (Inf.Vulnerable out') = size (Inf.Vulnerable Inf.Empty) + found
      ∧ Inf.Vulnerable Inf.Empty ⊆ Inf.Vulnerable out'.
Proof.
  split; [reflexivity|]. split; [reflexivity|].
  apply (BackupOpponentDead_found (H := Hex.board 3 2) (H0 := Hex.groups 3 2)
           (H1 := Hex.no_patterns)); reflexivity.
Defined.

(** ** The searches *)

Section Searches.
Context `{ConstBoard} `{GroupBuilder} `{PatternState}.
Import Inf InfFacts.

(** X8: [IsClique] holds of a vector of points exactly if every two
    points of it, at different places and other than [exclude], are
    adjacent on the board; the empty vector and a vector of one point are
    cliques. *)
Theorem IsClique_spec (vn : list HexPoint) (exclude : HexPoint) :
  IsClique vn exclude = true ↔
  ∀ i j a b, i < j → vn !! i = Some a → vn !! j = Some b →
             a ≠ exclude → b ≠ exclude → Adjacent a b = true.
Proof.
  induction vn as [|a0 rest IH]; cbn [IsClique].
  { split; [|done]. intros _ i j a b _ Hi. by rewrite lookup_nil in Hi. }
  rewrite andb_true_iff, IH, orb_true_iff, bool_decide_eq_true.
  rewrite forallb_forall. split.
  - intros [Hfirst Hrest] i j a b Hij Hi Hj Ha Hb.
    destruct i as [|i], j as [|j]; try lia; cbn in Hi, Hj.
    + injection Hi as ->. destruct Hfirst as [?|Hall]; [done|].
      apply list_elem_of_lookup_2, list_elem_of_In in Hj.
      specialize (Hall b Hj). apply orb_true_iff in Hall as [Hex|Hadj]; [|done].
      by apply bool_decide_eq_true in Hex.
    + eapply (Hrest i j); eauto with lia.
  - intros Hall. split.
    + destruct (decide (a0 = exclude)) as [?|Hne]; [by left|right].
      intros b [j Hj]%list_elem_of_In%list_elem_of_lookup_1.
      apply orb_true_iff.
      destruct (decide (b = exclude)) as [?|Hb];
        [left; by apply bool_decide_eq_true|right].
      by apply (Hall 0 (S j) a0 b); [lia| | | |].
    + intros i j a b Hij Hi Hj. by apply (Hall (S i) (S j)); [lia| |].
Qed.

(** The body of the loop of [FindCaptured]. *)
Definition FindCaptured_step (brd : StoneBoard) (color : HexColor)
    (captured : gset nat) (p : HexPoint) : gset nat :=
  if decide (p ∈ captured) then captured
  else
    match MatchOnCell (HashedCaptured color) brd p STOP_AT_FIRST_HIT with
    | [] => captured
    | hit :: _ =>
      let carrier : gset nat := of_list (moves2 hit) ∪ {[ p ]} in
      if none (carrier ∩ captured) then captured ∪ carrier else captured
    end.

Lemma FindCaptured_unfold brd color consider :
  FindCaptured brd color consider
  = foldl (FindCaptured_step brd color) ∅ (BitsetIterator consider).
Proof. done. Qed.

Lemma FindCaptured_step_cases brd color captured p :
  FindCaptured_step brd color captured p = captured
  ∨ ∃ hit hits,
      MatchOnCell (HashedCaptured color) brd p STOP_AT_FIRST_HIT = hit :: hits
      ∧ FindCaptured_step brd color captured p
        = captured ∪ (of_list (moves2 hit) ∪ {[ p ]}).
Proof.
  unfold FindCaptured_step. case_decide; [by left|].
  destruct (MatchOnCell _ _ _ _) as [|hit hits]; [by left|].
  cbv zeta. destruct (none _); [|by left]. right. by exists hit, hits.
Qed.

Lemma FindCaptured_step_first brd color p :
  FindCaptured_step brd color ∅ p = ∅ →
  MatchOnCell (HashedCaptured color) brd p STOP_AT_FIRST_HIT = [].
Proof.
  unfold FindCaptured_step. rewrite decide_False by set_solver.
  destruct (MatchOnCell _ _ _ _) as [|hit hits]; [done|]. cbv zeta.
  replace (none _) with true; [set_solver|].
  symmetry. apply none_true. set_solver.
Qed.

Lemma FindCaptured_step_none brd color captured p :
  MatchOnCell (HashedCaptured color) brd p STOP_AT_FIRST_HIT = [] →
  FindCaptured_step brd color captured p = captured.
Proof.
  intros Hm. unfold FindCaptured_step. rewrite Hm. by case_decide.
Qed.

Lemma FindCaptured_fold brd color l (acc : gset nat) :
  let r := foldl (FindCaptured_step brd color) acc l in
  acc ⊆ r
  ∧ (r = ∅ ↔
     acc = ∅ ∧ ∀ p, p ∈ l →
       MatchOnCell (HashedCaptured color) brd p STOP_AT_FIRST_HIT = [])
  ∧ ∀ q, q ∈ r →
      q ∈ acc
      ∨ ∃ p hit hits,
          p ∈ l
          ∧ MatchOnCell (HashedCaptured color) brd p STOP_AT_FIRST_HIT
            = hit :: hits
          ∧ q ∈ of_list (moves2 hit) ∪ {[ p ]}
          ∧ of_list (moves2 hit) ∪ {[ p ]} ⊆ r.
Proof.
  revert acc. induction l as [|p l IH]; intros acc; cbn [foldl].
  { cbv zeta. split; [done|]. split; [|by left].
    split; [|by intros [? _]]. intros ->. split; [done|].
    intros p Hp. by apply elem_of_nil in Hp. }
  cbv zeta in *.
  destruct (IH (FindCaptured_step brd color acc p)) as (Hsub & Hiff & Hall).
  pose proof (FindCaptured_step_cases brd color acc p) as Hcases.
  pose proof (FindCaptured_step_first brd color p) as Hfirst.
  pose proof (FindCaptured_step_none brd color acc p) as Hnone.
  set (acc' := FindCaptured_step brd color acc p) in *.
  set (r := foldl (FindCaptured_step brd color) acc' l) in *.
  clearbody r. 
  assert (acc ⊆ acc') as Hstep.
  { destruct Hcases as [->|(hit & hits & _ & ->)]; [done|].
    apply union_subseteq_l. }
  split; [by etrans|]. split.
  - rewrite Hiff. split.
    + intros [Hemp Hl].
      assert (acc = ∅) as -> by (apply set_eq; intros x; specialize (Hstep x);
                                 rewrite Hemp in Hstep; set_solver).
      split; [done|]. intros p' [->|Hp']%elem_of_cons; [|by apply Hl].
      by apply Hfirst.
    + intros [-> Hl]. split.
      * apply Hnone, Hl. left.
      * intros p' Hp'. apply Hl. by right.
  - intros q Hq.
    destruct (Hall q Hq) as [Hq'|(p' & hit & hits & Hp' & Hm & Hc & Hs)].
    + destruct Hcases as [Heq|(hit & hits & Hm & Heq)].
      * left. by rewrite <- Heq.
      * rewrite Heq in Hq'. apply elem_of_union in Hq' as [?|Hq']; [by left|].
        right. exists p, hit, hits. split; [left|]. split; [done|].
        split; [done|]. etrans; [|exact Hsub]. rewrite Heq.
        apply union_subseteq_r.
    + right. exists p', hit, hits. split; [by right|]. done.
Qed.

(** X9: [ICEngine::FindCaptured] finds nothing exactly if no captured
    pattern matches at a cell to consider; and what it finds is made of
    whole carriers: every cell it returns lies in the carrier of the first
    hit at a cell to consider, the cell itself counted in, and that whole
    carrier is returned. *)
Theorem FindCaptured_carriers (brd : StoneBoard) (color : HexColor)
    (consider : bitset_t) :
  let captured := FindCaptured brd color consider in
  (captured = ∅ ↔
   ∀ p, p ∈ consider →
        MatchOnCell (HashedCaptured color) brd p STOP_AT_FIRST_HIT = [])
  ∧ ∀ q, q ∈ captured →
      ∃ p hit hits,
        p ∈ consider
        ∧ MatchOnCell (HashedCaptured color) brd p STOP_AT_FIRST_HIT
          = hit :: hits
        ∧ q ∈ of_list (moves2 hit) ∪ {[ p ]}
        ∧ of_list (moves2 hit) ∪ {[ p ]} ⊆ captured.
Proof.
  cbv zeta. rewrite FindCaptured_unfold.
  destruct (FindCaptured_fold brd color (BitsetIterator consider) ∅)
    as (_ & Hiff & Hall).
  split.
  - rewrite Hiff. split.
    + intros [_ Hl] p Hp. by apply Hl, elem_of_BitsetIterator.
    + intros Hl. split; [done|]. intros p Hp%elem_of_BitsetIterator. by apply Hl.
  - intros q Hq.
    destruct (Hall q Hq) as [Hq'|(p & hit & hits & Hp & Hm & Hc & Hs)];
      [by apply elem_of_empty in Hq'|].
    exists p, hit, hits. by rewrite <- elem_of_BitsetIterator.
Qed.
End Searches.

(** ** The graph rule *)

Lemma FindSetBit_elem (s : gset nat) : s ≠ ∅ → FindSetBit s ∈ s.
Proof.
  intros Hs. unfold FindSetBit.
  destruct (BitsetIterator s) as [|x l] eqn:Hl.
  - apply set_choose_L in Hs as [x Hx].
    apply elem_of_BitsetIterator in Hx. rewrite Hl in Hx.
    by apply elem_of_nil in Hx.
  - apply elem_of_BitsetIterator. rewrite Hl. left.
Qed.

Lemma size_pos_non_empty (s : gset nat) : 0 < size s → s ≠ ∅.
Proof. intros Hs ->. rewrite size_empty in Hs. lia. Qed.

Section GraphRule.
Context `{ConstBoard} `{GroupBuilder}.
Import Inf InfFacts.

(** The points of a set are empty on the board. *)
Definition all_empty (brd : StoneBoard) (s : gset nat) : Prop :=
  ∀ q, q ∈ s → getColor brd q = EMPTY.

Lemma all_empty_union brd s t :
  all_empty brd s → all_empty brd t → all_empty brd (s ∪ t).
Proof. intros Hs Ht q [?|?]%elem_of_union; auto. Qed.

Lemma all_empty_subseteq brd s t : s ⊆ t → all_empty brd t → all_empty brd s.
Proof. intros Hst Ht q Hq. apply Ht. set_solver. Qed.

Lemma all_empty_singleton brd q : getColor brd q = EMPTY → all_empty brd {[ q ]}.
Proof. intros Hq q' ->%elem_of_singleton. done. Qed.

Lemma all_empty_empty brd : all_empty brd ∅.
Proof. intros q Hq. by apply elem_of_empty in Hq. Qed.

Lemma all_empty_NbsColor brd groups p :
  all_empty brd (NbsColor brd groups p EMPTY).
Proof.
  intros q Hq. unfold NbsColor, GroupNbsIn in Hq.
  apply elem_of_filter in Hq as [Hq _]. by destruct (getColor brd q).
Qed.

Lemma categorize_all_empty color brd groups p l st :
  all_empty brd (enbs st) → all_empty brd (empty_adj_to_group st) →
  let st' := foldl (categorize color brd groups p) st l in
  all_empty brd (enbs st') ∧ all_empty brd (empty_adj_to_group st').
Proof.
  intros He Hg. cbv zeta.
  apply (foldl_invariant
           (λ st', all_empty brd (enbs st')
                   ∧ all_empty brd (empty_adj_to_group st'))); [done|].
  clear. intros st nb _ [He Hg]. unfold categorize. cbv zeta.
  assert (all_empty brd (NbsColor brd groups (CaptainOf groups nb) EMPTY ∖ {[p]}))
    as Hadj.
  { apply (all_empty_subseteq brd _
             (NbsColor brd groups (CaptainOf groups nb) EMPTY));
      [set_solver|apply all_empty_NbsColor]. }
  case_decide as Hc; cbn.
  { split; [|done]. apply all_empty_union; [done|by apply all_empty_singleton]. }
  case_decide; [|done].
  destruct (HexPointUtil.isColorEdge _ _); cbn.
  { split; [done|]. by apply all_empty_union. }
  case_decide as Hone; cbn.
  { split; [|done]. apply all_empty_union; [done|].
    apply all_empty_singleton, Hadj, FindSetBit_elem, size_pos_non_empty. lia. }
  case_decide; cbn; [|done].
  split; [done|]. by apply all_empty_union.
Qed.

(** The killers that [examine] finds are empty points. *)
Lemma examine_killers color brd groups p k :
  k ∈ (examine color brd groups p).2 → getColor brd k = EMPTY.
Proof.
  unfold examine. cbv zeta.
  destruct (categorize_all_empty color brd groups p (Nbs p)
              (mkNbCategories ∅ ∅ ∅ false INVALID_POINT)
              (all_empty_empty brd) (all_empty_empty brd)) as [He Hg].
  set (st := foldl (categorize color brd groups p) _ _) in *.
  assert (all_empty brd (filter (λ q, q ∉ empty_adj_to_group st) (enbs st)))
    as He'.
  { eapply all_empty_subseteq; [|exact He]. set_solver. }
  set (enbs' := filter (λ q, q ∉ empty_adj_to_group st) (enbs st)) in *.
  clearbody enbs' st.
  case_decide as Hle; [by intros ?%elem_of_nil|].
  destruct (adj_to_edge st || bool_decide (2 ≤ size (cnbs st))).
  - case_decide; [by intros ?%elem_of_nil|].
    case_decide as Hc1.
    + intros ->%list_elem_of_singleton.
      apply He', FindSetBit_elem, size_pos_non_empty. lia.
    + match goal with
      | |- context [foldl ?f ?a ?l] =>
          assert (all_empty brd (foldl f a l).2) as Hk
      end.
      { apply (foldl_invariant
                 (λ acc : bool * bool * gset nat, all_empty brd acc.2));
          [apply all_empty_empty|].
        intros [[simp pre] ks] i _ Hks. cbn [snd] in *.
        destruct (adj_to_edge st && _); [done|].
        case_decide as Hrem.
        - case_decide; [done|]. cbn [snd].
          apply all_empty_union; [done|].
          apply all_empty_singleton, He', FindSetBit_elem, size_pos_non_empty.
          lia.
        - case_decide as Hone; [|done]. cbn [snd].
          apply all_empty_union; [done|].
          apply all_empty_singleton.
          eapply (all_empty_subseteq brd _ (empty_adj_to_group st));
            [|done|apply FindSetBit_elem, size_pos_non_empty; lia].
          set_solver. }
      destruct (foldl _ _ _) as [[simp pre] ks]. cbn [snd] in Hk.
      destruct (negb simp && pre); [|by intros ?%elem_of_nil].
      intros Hin%elem_of_BitsetIterator. by apply Hk.
  - case_decide; [by intros ?%elem_of_nil|].
    case_decide as Hc1.
    + case_decide; [by intros ?%elem_of_nil|].
      cbn [snd]. intros [->|Hmore]%elem_of_cons.
      * apply He', FindSetBit_elem, size_pos_non_empty. lia.
      * case_decide; [|by apply elem_of_nil in Hmore].
        apply list_elem_of_In, filter_In in Hmore as [Hin _].
        apply list_elem_of_In, elem_of_BitsetIterator in Hin.
        by apply (all_empty_union brd enbs' (empty_adj_to_group st)).
    + destruct (IsClique _ _); [by intros ?%elem_of_nil|].
      cbn [snd]. intros Hin.
      apply list_elem_of_In, filter_In in Hin as [Hin _].
      apply list_elem_of_In, elem_of_BitsetIterator in Hin. by apply He'.
Qed.

(** The cells that [UseGraphTheoryToFindDeadVulnerable] considers: the
    empty cells that are not next to both edges of the colour. *)
Definition graph_consider (color : HexColor) (brd : StoneBoard) : bitset_t :=
  getEmpty brd
  ∖ (NbsColor brd (Build brd) (colorEdge1 color) EMPTY
     ∩ NbsColor brd (Build brd) (colorEdge2 color) EMPTY).

(** The loop of [UseGraphTheoryToFindDeadVulnerable]. *)
Definition graph_body (color : HexColor) (brd : StoneBoard)
    (acc : gset nat * InferiorCells) (p : HexPoint) : gset nat * InferiorCells :=
  let '(found, killers) := examine color brd (Build brd) p in
  ((if found then acc.1 ∪ {[ p ]} else acc.1),
   foldl (λ inf k, AddVulnerable p (mkVulnerableKiller k ∅) inf) acc.2 killers).

Lemma UseGraphTheoryToFindDeadVulnerable_unfold color brd inf :
  UseGraphTheoryToFindDeadVulnerable color brd inf
  = let '(simplicial, inf) :=
      foldl (graph_body color brd) (∅, inf)
            (BitsetIterator (graph_consider color brd)) in
    if any simplicial
    then (addColor DEAD_COLOR simplicial brd, AddDead simplicial inf)
    else (brd, inf).
Proof. done. Qed.

Lemma graph_body_fold color brd l acc :
  let r := foldl (graph_body color brd) acc l in
  acc.1 ⊆ r.1
  ∧ (∀ p, p ∈ r.1 → p ∈ acc.1 ∨ p ∈ l)
  ∧ (∀ p, p ∈ l → (examine color brd (Build brd) p).1 = true → p ∈ r.1)
  ∧ same_fillin acc.2 r.2
  ∧ m_reversible r.2 = m_reversible acc.2
  ∧ m_dominated r.2 = m_dominated acc.2
  ∧ ∀ p k, (p, k) ∈ m_vulnerable r.2 →
      (p, k) ∈ m_vulnerable acc.2
      ∨ (p ∈ l ∧ getColor brd (killer k) = EMPTY ∧ carrier k = ∅).
Proof.
  revert acc. induction l as [|p l IH]; intros acc; cbn [foldl].
  { cbv zeta. split; [done|]. split; [by left|]. split.
    - intros p Hp. by apply elem_of_nil in Hp.
    - split; [apply same_fillin_refl|]. split; [done|]. split; [done|].
      by left. }
  cbv zeta in *.
  destruct (IH (graph_body color brd acc p))
    as (Hsub & Hin & Hfound & Hsame & Hrev & Hdom & Hvul).
  assert (acc.1 ⊆ (graph_body color brd acc p).1
          ∧ (∀ q, q ∈ (graph_body color brd acc p).1 → q ∈ acc.1 ∨ q = p)
          ∧ ((examine color brd (Build brd) p).1 = true →
             p ∈ (graph_body color brd acc p).1)
          ∧ same_fillin acc.2 (graph_body color brd acc p).2
          ∧ m_reversible (graph_body color brd acc p).2 = m_reversible acc.2
          ∧ m_dominated (graph_body color brd acc p).2 = m_dominated acc.2
          ∧ ∀ q k, (q, k) ∈ m_vulnerable (graph_body color brd acc p).2 →
              (q, k) ∈ m_vulnerable acc.2
              ∨ (q = p ∧ getColor brd (killer k) = EMPTY ∧ carrier k = ∅))
    as (Hs1 & Hi1 & Hf1 & Hsame1 & Hrev1 & Hdom1 & Hv1).
  { unfold graph_body.
    pose proof (examine_killers color brd (Build brd) p) as Hk.
    destruct (examine color brd (Build brd) p) as [found killers].
    cbn [fst snd] in *.
    split; [destruct found; set_solver|].
    split; [destruct found; set_solver|].
    split; [intros ->; set_solver|].
    apply (foldl_invariant
             (λ inf', same_fillin acc.2 inf'
                      ∧ m_reversible inf' = m_reversible acc.2
                      ∧ m_dominated inf' = m_dominated acc.2
                      ∧ ∀ q k, (q, k) ∈ m_vulnerable inf' →
                          (q, k) ∈ m_vulnerable acc.2
                          ∨ (q = p ∧ getColor brd (killer k) = EMPTY
                             ∧ carrier k = ∅))).
    { split; [apply same_fillin_refl|]. split; [done|]. split; [done|].
      by left. }
    intros inf' k0 Hk0 (Hs' & Hr' & Hd' & Hv').
    split; [eapply same_fillin_trans; [done|]; by repeat split|].
    split; [done|]. split; [done|].
    intros q k [Hold|Hnew%elem_of_singleton]%elem_of_union; [by apply Hv'|].
    injection Hnew as -> ->. right. split; [done|]. split; [|done].
    by apply Hk. }
  split; [by etrans|]. split.
  { intros q Hq. destruct (Hin q Hq) as [Hq'|Hq']; [|right; by right].
    destruct (Hi1 q Hq') as [?| ->]; [by left|right; left]. }
  split.
  { intros q [->|Hq]%elem_of_cons Hex; [apply Hsub; by apply Hf1|].
    by apply Hfound. }
  split; [by eapply same_fillin_trans|].
  split; [congruence|]. split; [congruence|].
  intros q k Hqk. destruct (Hvul q k Hqk) as [Hold|(Hq & Hc & Hcar)].
  - destruct (Hv1 q k Hold) as [?|(-> & ? & ?)]; [by left|].
    right. split; [left|done].
  - right. split; [by right|done].
Qed.

(** X10: [UseGraphTheoryToFindDeadVulnerable] writes at the cells it
    considers only, the empty cells that are not next to both edges of the
    colour: the cells it adds to the dead ones and the cells it records as
    vulnerable are among them; each killer it records is an empty point of
    the board, with an empty carrier; it leaves the hash of the board and
    the captured and permanently inferior cells alone; and it adds no
    reversible or dominated entry, and drops one only at a cell that is
    dead when it returns. *)
Theorem UseGraphTheoryToFindDeadVulnerable_writes
    (color : HexColor) (brd : StoneBoard) (inf : InferiorCells) :
  let r := UseGraphTheoryToFindDeadVulnerable color brd inf in
  Dead r.2 ⊆ Dead inf ∪ graph_consider color brd
  ∧ (∀ p k, (p, k) ∈ m_vulnerable r.2 →
       (p, k) ∈ m_vulnerable inf
       ∨ (p ∈ graph_consider color brd
          ∧ getColor brd (killer k) = EMPTY ∧ carrier k = ∅))
  ∧ Hash r.1 = Hash brd
  ∧ (∀ c, Captured c r.2 = Captured c inf ∧ PermInf c r.2 = PermInf c inf)
  ∧ Reversible r.2 ⊆ Reversible inf ∧ Dominated r.2 ⊆ Dominated inf
  ∧ m_reversible r.2 ⊆ m_reversible inf ∧ m_dominated r.2 ⊆ m_dominated inf
  ∧ (∀ e, e ∈ m_reversible inf → e.1 ∉ Dead r.2 → e ∈ m_reversible r.2)
  ∧ (∀ e, e ∈ m_dominated inf → e.1 ∉ Dead r.2 → e ∈ m_dominated r.2).
Proof.
  cbv zeta. rewrite UseGraphTheoryToFindDeadVulnerable_unfold.
  destruct (graph_body_fold color brd (BitsetIterator (graph_consider color brd))
              (∅, inf)) as (_ & Hin & _ & Hsame & Hrev & Hdom & Hvul).
  cbv zeta in *.
  destruct (foldl _ _ _) as [simplicial inf1]. cbn [fst snd] in *.
  assert (simplicial ⊆ graph_consider color brd) as Hsimp.
  { intros p Hp. destruct (Hin p Hp) as [?|?%elem_of_BitsetIterator];
      [set_solver|done]. }
  assert (∀ p k, (p, k) ∈ m_vulnerable inf1 →
            (p, k) ∈ m_vulnerable inf
            ∨ (p ∈ graph_consider color brd
               ∧ getColor brd (killer k) = EMPTY ∧ carrier k = ∅)) as Hvul'.
  { intros p k Hpk.
    destruct (Hvul p k Hpk) as [?|(?%elem_of_BitsetIterator & ? & ?)]; auto. }
  destruct Hsame as (Hd & Hcb & Hcw & Hpb & Hpw & _).
  destruct (any simplicial); cbn [fst snd].
  - split; [rewrite Dead_AddDead; unfold Dead; rewrite Hd; set_solver|].
    split.
    { intros p k Hpk. apply Hvul'. unfold AddDead in Hpk. cbn in Hpk.
      by apply elem_of_filter in Hpk as [_ ?]. }
    split; [by destruct (addColor_fills DEAD_COLOR simplicial brd)|].
    split.
    { intros c. rewrite Captured_AddDead.
      destruct c; cbn; by rewrite ?Hcb, ?Hcw, ?Hpb, ?Hpw. }
    split.
    { unfold Reversible. cbn. rewrite !keys_filter, Hrev. set_solver. }
    split.
    { unfold Dominated. cbn. rewrite !keys_filter, Hdom. set_solver. }
    rewrite Dead_AddDead. cbn [AddDead RemoveAnnotations m_reversible
                                m_dominated].
    rewrite Hrev, Hdom.
    split; [intros e He; by apply elem_of_filter in He as [_ ?]|].
    split; [intros e He; by apply elem_of_filter in He as [_ ?]|].
    split; intros e He Hne; apply elem_of_filter; (split; [|done]);
      intros Hmem; apply Hne; apply elem_of_union; by right.
  - split; [unfold Dead; rewrite Hd; set_solver|].
    split; [done|]. split; [done|]. split.
    { intros c. destruct c; cbn; by rewrite ?Hcb, ?Hcw, ?Hpb, ?Hpw. }
    unfold Reversible, Dominated. rewrite Hrev, Hdom.
    repeat split; done.
Qed.

(** X11: a cell with no neighbour of the colour and at most one empty
    neighbour is dead: if it is among the cells considered,
    [UseGraphTheoryToFindDeadVulnerable] records it as dead and fills it in
    with the colour of dead cells. *)
Theorem UseGraphTheoryToFindDeadVulnerable_dead_end
    (color : HexColor) (brd : StoneBoard) (inf : InferiorCells)
    (p e : HexPoint) :
  isBlackWhite DEAD_COLOR = true →
  p ∈ graph_consider color brd →
  Forall (λ nb, getColor brd nb ≠ color
                ∧ (getColor brd nb = EMPTY → nb = e)) (Nbs p) →
  let r := UseGraphTheoryToFindDeadVulnerable color brd inf in
  p ∈ Dead r.2 ∧ getColor r.1 p = DEAD_COLOR.
Proof.
  intros Hdead Hp Hnbs. cbv zeta.
  assert ((examine color brd (Build brd) p).1 = true) as Hex.
  { unfold examine. cbv zeta.
    assert (let st := foldl (categorize color brd (Build brd) p)
                        (mkNbCategories ∅ ∅ ∅ false INVALID_POINT) (Nbs p) in
            enbs st ⊆ {[ e ]} ∧ cnbs st = ∅) as [He Hc].
    { apply (foldl_invariant
               (λ st, enbs st ⊆ {[ e ]} ∧ cnbs st = ∅)); [by split|].
      intros st nb Hnb [He Hc]. rewrite Forall_forall in Hnbs.
      destruct (Hnbs nb Hnb) as [Hcol Hemp].
      unfold categorize. cbv zeta.
      case_decide; cbn; [split; [set_solver|done]|].
      by case_decide. }
    set (st := foldl _ _ _) in *. clearbody st.
    rewrite decide_True; [done|].
    rewrite Hc, size_empty.
    assert (size (filter (λ q, q ∉ empty_adj_to_group st) (enbs st))
            ≤ size ({[ e ]} : gset nat)) as Hle
      by (apply subseteq_size; set_solver).
    rewrite size_singleton in Hle. lia. }
  rewrite UseGraphTheoryToFindDeadVulnerable_unfold.
  destruct (graph_body_fold color brd (BitsetIterator (graph_consider color brd))
              (∅, inf)) as (_ & _ & Hfound & _).
  cbv zeta in Hfound.
  specialize (Hfound p ltac:(by apply elem_of_BitsetIterator) Hex).
  destruct (foldl _ _ _) as [simplicial inf1]. cbn [fst] in Hfound.
  replace (any simplicial) with true
    by (symmetry; apply any_true; set_solver).
  cbn [fst snd]. split; [rewrite Dead_AddDead; set_solver|].
  assert (p ∈ getEmpty brd) as Hpe by (unfold graph_consider in Hp; set_solver).
  unfold getEmpty, getOccupied in Hpe. unfold getColor.
  destruct DEAD_COLOR; [| |done]; cbn; repeat case_decide; set_solver.
Qed.
End GraphRule.

Lemma UseGraphTheoryToFindDeadVulnerable_dead_end_witness :
  let brd := Hex.play 3 2 [(BLACK, 7); (BLACK, 9); (BLACK, 10); (BLACK, 11)] in
  let r := UseGraphTheoryToFindDeadVulnerable (H := Hex.board 3 2)
             (H0 := Hex.groups 3 2) WHITE brd Inf.Empty in
  isBlackWhite (DEAD_COLOR (ConstBoard := Hex.board 3 2)) = true
  ∧ 8 ∈ graph_consider (H := Hex.board 3 2) (H0 := Hex.groups 3 2) WHITE brd
  ∧ Forall (λ nb, getColor brd nb ≠ WHITE ∧ (getColor brd nb = EMPTY → nb = 0))
           (Nbs (ConstBoard := Hex.board 3 2) 8)
  ∧ 8 ∈ Inf.Dead r.2
  ∧ getColor r.1 8 = DEAD_COLOR (ConstBoard := Hex.board 3 2).
Proof.
  intros brd r.
  assert (8 ∈ graph_consider (H := Hex.board 3 2) (H0 := Hex.groups 3 2)
                WHITE brd) as Hin
    by (refine (bool_decide_unpack _ _); vm_compute; exact I).
  assert (Forall (λ nb, getColor brd nb ≠ WHITE
                        ∧ (getColor brd nb = EMPTY → nb = 0))
                 (Nbs (ConstBoard := Hex.board 3 2) 8)) as Hnbs
    by (refine (bool_decide_unpack _ _); vm_compute; exact I).
  split; [reflexivity|]. split; [exact Hin|]. split; [exact Hnbs|].
  exact (UseGraphTheoryToFindDeadVulnerable_dead_end (H := Hex.board 3 2)
           (H0 := Hex.groups 3 2) WHITE brd Inf.Empty 8 0 eq_refl Hin Hnbs).
Defined.

Section PassCounts.
Context `{ConstBoard} `{GroupBuilder} `{PatternState}.
Import Inf InfFacts.

Variable ice : ICEngine.

(** The graph rule fills in a set of empty cells and records it as dead. *)
Lemma UseGraphTheoryToFindDeadVulnerable_filled color brd inf :
  isBlackWhite DEAD_COLOR = true →
  let r := UseGraphTheoryToFindDeadVulnerable color brd inf in
  ∃ simplicial,
    simplicial ⊆ getEmpty brd
    ∧ getEmpty r.1 = getEmpty brd ∖ simplicial
    ∧ Dead r.2 = Dead inf ∪ simplicial.
Proof.
  intros Hdead. cbv zeta. rewrite UseGraphTheoryToFindDeadVulnerable_unfold.
  destruct (graph_body_fold color brd (BitsetIterator (graph_consider color brd))
              (∅, inf)) as (_ & Hin & _ & Hsame & _).
  cbv zeta in *.
  destruct (foldl _ _ _) as [simplicial inf1]. cbn [fst snd] in *.
  exists simplicial.
  assert (simplicial ⊆ getEmpty brd) as Hsimp.
  { intros p Hp. destruct (Hin p Hp) as [?|?%elem_of_BitsetIterator];
      [set_solver|]. unfold graph_consider in *. set_solver. }
  split; [done|]. destruct Hsame as (Hd & _).
  destruct (any simplicial) eqn:Hany; cbn [fst snd].
  - rewrite getEmpty_addColor by done. rewrite Dead_AddDead. unfold Dead.
    by rewrite Hd.
  - apply any_false in Hany. subst simplicial. unfold Dead. rewrite Hd.
    set_solver.
Qed.


(** X13: the dead regions that [ComputeDeadRegions] and
    [FindThreeSetCliques] find consist of empty cells, as the code asserts;
    so [ICEngine::FillInUnreachable] fills in empty cells only, records
    them as dead, and returns their number. *)
Theorem FillInUnreachable_count (brd : StoneBoard) (out : InferiorCells) :
  isBlackWhite DEAD_COLOR = true →
  let r := FillInUnreachable ice brd out in
  ComputeDeadRegions brd (Build brd) ⊆ getEmpty brd
  ∧ FindThreeSetCliques brd (Build brd) ⊆ getEmpty brd
  ∧ r.2 + size (getEmpty r.1.1) = size (getEmpty brd)
  ∧ Dead r.1.2 = Dead out ∪ (getEmpty brd ∖ getEmpty r.1.1)
  ∧ Hash r.1.1 = Hash brd.
Proof.
  intros Hdead. cbv zeta.
  pose proof (ComputeDeadRegions_subseteq brd (Build brd)) as H1'.
  pose proof (FindThreeSetCliques_subseteq brd (Build brd)) as H2'.
  split; [done|]. split; [done|].
  unfold FillInUnreachable. cbv zeta.
  set (notReachable := if m_find_three_sided_dead_regions ice then _ else _).
  assert (notReachable ⊆ getEmpty brd) as Hsub.
  { unfold notReachable. clear - H1' H2'.
    destruct (m_find_three_sided_dead_regions ice); set_solver. }
  clearbody notReachable.
  destruct (any notReachable) eqn:Hany; cbn [fst snd].
  - split; [by apply addColor_size|].
    rewrite getEmpty_addColor by done. rewrite Dead_AddDead.
    split; [|by destruct (addColor_fills DEAD_COLOR notReachable brd)].
    f_equal. apply set_eq. intros x. rewrite !elem_of_difference.
    split.
    + intros Hx. split; [by apply Hsub|]. by intros [_ ?].
    + intros [Hx Hn]. destruct (decide (x ∈ notReachable)); [done|].
      by destruct Hn.
  - apply any_false in Hany. subst notReachable. rewrite size_empty.
    split; [done|]. split; [clear; set_solver|done].
Qed.
End PassCounts.


(** On the board with Black at a1 and c1 and White at b2, the pass fills in
    b1 as dead and counts nothing. *)
Example FillInVulnerable_leaves_out_dead :
  let r := FillInVulnerable (H := Hex.board 3 2) (H0 := Hex.groups 3 2)
             (H1 := Hex.no_patterns) ICEngine_default BLACK HexEngine.position
             Inf.Empty ALL_COLORS in
  r.2 = 0 ∧ BitsetIterator (Inf.Dead r.1.2) = [8].
Proof. split; vm_compute; reflexivity. Qed.

Lemma FillInUnreachable_count_witness :
  let r := FillInUnreachable (H := Hex.board 3 2) (H0 := Hex.groups 3 2)
             ICEngine_default HexEngine.position Inf.Empty in
  isBlackWhite (DEAD_COLOR (ConstBoard := Hex.board 3 2)) = true
  ∧ r.2 + size (getEmpty (H := Hex.board 3 2) r.1.1)
    = size (getEmpty (H := Hex.board 3 2) HexEngine.position).
Proof.
  intros r. split; [reflexivity|].
  apply (FillInUnreachable_count (H := Hex.board 3 2) (H0 := Hex.groups 3 2)
           ICEngine_default HexEngine.position Inf.Empty eq_refl).
Defined.

(** ** Hand coded patterns and the update of the inferior cells *)

Definition without_handcoded (ice : ICEngine) : ICEngine :=
  mkICEngine (m_find_presimplicial_pairs ice) (m_find_permanently_inferior ice)
    (m_find_all_pattern_killers ice) (m_find_all_pattern_reversers ice)
    (m_find_all_pattern_dominators ice) false
    (m_backup_opponent_dead ice) (m_find_three_sided_dead_regions ice)
    (m_iterative_dead_regions ice).

Section HandCoded.
Context `{ConstBoard} `{PatternState}.
Import Inf InfFacts.

(** X14: the hand coded patterns are left out on a board that is not
    square, or that has fewer than four columns or fewer than three rows:
    there [ICEngine::FindDominated] finds what it finds with the option
    [use_handcoded_patterns] off. *)
Theorem FindDominated_handcoded_unused
    (ice : ICEngine) (brd : StoneBoard) (color : HexColor)
    (consider : bitset_t) (inf : InferiorCells) :
  Width ≠ Height ∨ Width < 4 ∨ Height < 3 →
  FindDominated ice brd color consider inf
  = FindDominated (without_handcoded ice) brd color consider inf.
Proof.
  intros Hsize. unfold FindDominated. cbn [without_handcoded
    m_find_all_pattern_dominators m_use_handcoded_patterns]. cbv zeta.
  destruct (m_use_handcoded_patterns ice); [|done].
  unfold FindHandCodedDominated. case_decide as Hsq; [done|].
  match goal with
  | |- foldl ?f ?a ?l = _ => apply (foldl_invariant (λ inf', inf' = a) f l a)
  end; [done|].
  intros inf' pat _ ->. unfold CheckHandCodedDominates.
  rewrite decide_True; [done|]. destruct Hsize as [?|?]; [done|lia].
Qed.
End HandCoded.

Lemma FindDominated_handcoded_unused_witness :
  (Width (ConstBoard := Hex.board 6 7) ≠ Height (ConstBoard := Hex.board 6 7)
   ∨ Width (ConstBoard := Hex.board 6 7) < 4
   ∨ Height (ConstBoard := Hex.board 6 7) < 3)
  ∧ FindDominated (H := Hex.board 6 7) (H1 := Hex.no_patterns) ICEngine_default
      (Hex.start 6 7) BLACK (getEmpty (H := Hex.board 6 7) (Hex.start 6 7))
      Inf.Empty
    = FindDominated (H := Hex.board 6 7) (H1 := Hex.no_patterns)
        (without_handcoded ICEngine_default)
        (Hex.start 6 7) BLACK (getEmpty (H := Hex.board 6 7) (Hex.start 6 7))
        Inf.Empty.
Proof.
  assert (Width (ConstBoard := Hex.board 6 7) ≠ Height (ConstBoard := Hex.board 6 7)
          ∨ Width (ConstBoard := Hex.board 6 7) < 4
          ∨ Height (ConstBoard := Hex.board 6 7) < 3) as Hsize
    by (left; cbn; lia).
  split; [exact Hsize|].
  apply (FindDominated_handcoded_unused (H := Hex.board 6 7)
           (H0 := Hex.no_patterns) ICEngine_default (Hex.start 6 7) BLACK
           (getEmpty (H := Hex.board 6 7) (Hex.start 6 7)) Inf.Empty Hsize).
Defined.

Section UpdateFacts.
Import Inf InfFacts.

(** X15: [IceUtil::Update] adds the fill-in of [in] to that of [out], the
    dead, the captured and the permanently inferior cells with their
    carriers, and overwrites the annotations: no vulnerable, reversible or
    dominated entry of the result comes from anywhere but [in]. *)
Theorem Update_spec (out in_ : InferiorCells) :
  let r := IceUtil.Update out in_ in
  Dead r = Dead out ∪ Dead in_
  ∧ (∀ c, Captured c r = Captured c out ∪ Captured c in_
          ∧ PermInf c r = PermInf c out ∪ PermInf c in_
          ∧ PermInfCarrier c r = PermInfCarrier c out ∪ PermInfCarrier c in_)
  ∧ m_vulnerable r ⊆ m_vulnerable in_
  ∧ m_reversible r ⊆ m_reversible in_
  ∧ m_dominated r ⊆ m_dominated in_.
Proof.
  cbv zeta. unfold IceUtil.Update. cbn [foldl]. cbv zeta.
  split; [done|]. split.
  { intros c. destruct c; cbn; set_solver. }
  cbn. repeat split; intros x Hx;
    repeat (apply elem_of_filter in Hx as [_ Hx]); done.
Qed.
End UpdateFacts.

Section Stable.
Context `{ConstBoard} `{GroupBuilder} `{PatternState}.
Import Inf InfFacts.

Variable ice : ICEngine.

(** No dead pattern and no captured pattern of a colour to capture matches
    on the board. *)
Definition nothing_to_fill (brd : StoneBoard) (ctc : HexColorSet) : Prop :=
  FindDead brd (getEmpty brd) = ∅
  ∧ ∀ c, isBlackWhite c = true → HexColorSetUtil.InSet c ctc = true →
         FindCaptured brd c (getEmpty brd) = ∅.

Lemma ComputeDeadCaptured_loop_stable fuel brd inf count ctc r :
  ComputeDeadCaptured_loop fuel brd inf count ctc = Some r →
  nothing_to_fill r.1.1 ctc.
Proof.
  revert brd inf count.
  induction fuel as [|fuel IH]; intros brd inf count; [done|].
  cbn [ComputeDeadCaptured_loop]. cbv zeta.
  destruct (any (FindDead brd (getEmpty brd))) eqn:Hdead; [by intros ?%IH|].
  apply any_false in Hdead.
  destruct (any (if HexColorSetUtil.InSet BLACK ctc
                 then FindCaptured brd BLACK (getEmpty brd) else ∅)) eqn:Hb;
    [by intros ?%IH|].
  destruct (any (if HexColorSetUtil.InSet WHITE ctc
                 then FindCaptured brd WHITE (getEmpty brd) else ∅)) eqn:Hw;
    [by intros ?%IH|].
  intros [= <-]. cbn [fst]. split; [done|].
  apply any_false in Hb, Hw.
  intros c Hc Hin. destruct c; [| |done].
  - by rewrite Hin in Hb.
  - by rewrite Hin in Hw.
Qed.

Lemma ComputeDeadCaptured_loop_nothing fuel brd inf count ctc :
  nothing_to_fill brd ctc →
  ComputeDeadCaptured_loop (S fuel) brd inf count ctc = Some (brd, inf, count).
Proof.
  intros [Hdead Hcap]. cbn [ComputeDeadCaptured_loop]. cbv zeta.
  rewrite Hdead. replace (any ∅) with false by done.
  assert (∀ c, isBlackWhite c = true →
               any (if HexColorSetUtil.InSet c ctc
                    then FindCaptured brd c (getEmpty brd) else ∅) = false)
    as Hnone.
  { intros c Hc. destruct (HexColorSetUtil.InSet c ctc) eqn:Hin; [|done].
    by rewrite Hcap. }
  by rewrite (Hnone BLACK eq_refl), (Hnone WHITE eq_refl).
Qed.

(** X19: [ICEngine::ComputeDeadCaptured] runs to a board on which it has
    nothing left to do: when it returns, no dead pattern matches at an
    empty cell and no captured pattern of a colour to capture does, and a
    second call on the board it left changes nothing and returns zero. *)
Theorem ComputeDeadCaptured_idempotent
    (brd : StoneBoard) (inf : InferiorCells) (colors_to_capture : HexColorSet) :
  isBlackWhite DEAD_COLOR = true →
  ∃ brd' inf' count,
    ComputeDeadCaptured brd inf colors_to_capture = Some (brd', inf', count)
    ∧ FindDead brd' (getEmpty brd') = ∅
    ∧ (∀ c, isBlackWhite c = true →
            HexColorSetUtil.InSet c colors_to_capture = true →
            FindCaptured brd' c (getEmpty brd') = ∅)
    ∧ ComputeDeadCaptured brd' inf' colors_to_capture = Some (brd', inf', 0).
Proof.
  intros Hdead.
  destruct (ComputeDeadCaptured_ok false Hdead ltac:(done) brd inf
              colors_to_capture) as ([[brd' inf'] count] & Heq & _).
  exists brd', inf', count. split; [done|].
  pose proof (ComputeDeadCaptured_loop_stable _ _ _ _ _ _ Heq) as Hstable.
  cbn [fst] in Hstable. destruct Hstable as [Hd Hc].
  split; [done|]. split; [done|].
  unfold ComputeDeadCaptured, rounds.
  by apply ComputeDeadCaptured_loop_nothing.
Qed.

(** A write of vulnerable cells at cells to consider. *)
Definition writes_vulnerable (consider : gset nat) (inf inf' : InferiorCells)
  : Prop :=
  same_fillin inf inf'
  ∧ m_reversible inf' = m_reversible inf
  ∧ m_dominated inf' = m_dominated inf
  ∧ m_vulnerable inf ⊆ m_vulnerable inf'
  ∧ Vulnerable inf' ⊆ Vulnerable inf ∪ consider.

Lemma FindVulnerable_frame brd color consider inf :
  writes_vulnerable consider inf (FindVulnerable ice brd color consider inf).
Proof.
  unfold FindVulnerable. cbv zeta.
  apply (foldl_invariant (writes_vulnerable consider inf)).
  { split; [apply same_fillin_refl|]. repeat split; set_solver. }
  intros inf1 p Hp%elem_of_BitsetIterator IH.
  assert (p ∈ consider) as Hpc.
  { revert Hp. apply MatchOnBoard_subseteq. }
  apply (foldl_invariant (writes_vulnerable consider inf)); [done|].
  intros inf2 hit _ (Hs & Hr & Hd & Hv & Hk).
  split; [eapply same_fillin_trans; [done|]; by repeat split|].
  split; [done|]. split; [done|].
  split; [cbn; set_solver|].
  rewrite Vulnerable_AddVulnerable. set_solver.
Qed.

(** X20: the pattern searches [FindVulnerable], [FindReversible] and
    [FindDominated] write to the accumulator at cells to consider only, each
    the entries of its own kind: the new vulnerable, reversible or dominated
    cells are among the cells to consider, and the fill-in and the entries
    of the other two kinds are as they were. *)
Theorem pattern_searches_frame
    (brd : StoneBoard) (color : HexColor) (consider : bitset_t)
    (inf : InferiorCells) :
  let v := FindVulnerable ice brd color consider inf in
  let r := FindReversible ice brd color consider inf in
  let d := FindDominated ice brd color consider inf in
  (same_fillin inf v ∧ m_reversible v = m_reversible inf
   ∧ m_dominated v = m_dominated inf
   ∧ Vulnerable v ⊆ Vulnerable inf ∪ consider)
  ∧ (same_fillin inf r ∧ m_vulnerable r = m_vulnerable inf
     ∧ m_dominated r = m_dominated inf
     ∧ Reversible r ⊆ Reversible inf ∪ consider)
  ∧ (same_fillin inf d ∧ m_vulnerable d = m_vulnerable inf
     ∧ m_reversible d = m_reversible inf
     ∧ Dominated d ⊆ Dominated inf ∪ consider).
Proof.
  cbv zeta.
  destruct (FindVulnerable_frame brd color consider inf) as (? & ? & ? & _ & ?).
  split; [done|].
  split; [apply FindReversible_frame|apply FindDominated_frame].
Qed.

(** X21: [ICEngine::FillinPermanentlyInferior] does nothing with the option
    off or for a colour that is not to be captured; else it fills in, for
    the colour, the empty cells at which a permanently inferior pattern
    matches, records them, and returns their number. *)
Theorem FillinPermanentlyInferior_spec
    (brd : StoneBoard) (color : HexColor) (out : InferiorCells)
    (colors_to_capture : HexColorSet) :
  isBlackWhite color = true →
  let r := FillinPermanentlyInferior ice brd color out colors_to_capture in
  let perm := MatchOnBoard brd (getEmpty brd) (HashedPermInf color)
                STOP_AT_FIRST_HIT in
  (if m_find_permanently_inferior ice
      && HexColorSetUtil.InSet color colors_to_capture
   then getColorSet r.1.1 color = getColorSet brd color ∪ perm
        ∧ PermInf color r.1.2 = PermInf color out ∪ perm
        ∧ r.2 = size perm
   else r = (brd, out, 0))
  ∧ r.2 + size (getEmpty r.1.1) = size (getEmpty brd)
  ∧ Hash r.1.1 = Hash brd.
Proof.
  intros Hcolor. cbv zeta. unfold FillinPermanentlyInferior.
  destruct (m_find_permanently_inferior ice); cbn [negb andb]; [|done].
  destruct (HexColorSetUtil.InSet color colors_to_capture); cbn [negb]; [|done].
  unfold FindPermanentlyInferior. cbv zeta.
  set (perm := MatchOnBoard brd (getEmpty brd) (HashedPermInf color) _).
  assert (perm ⊆ getEmpty brd) as Hsub by apply MatchOnBoard_subseteq.
  clearbody perm.
  destruct (any perm) eqn:Hany; cbn [fst snd].
  - split; [|split; [by apply addColor_size
                    |by destruct (addColor_fills color perm brd)]].
    split; [by destruct color|]. split; [|done].
    destruct color; [| |done]; cbn; done.
  - apply any_false in Hany. subst perm. rewrite size_empty.
    split; [|done]. split; [destruct color; cbn; set_solver|].
    split; [destruct color; cbn; set_solver|done].
Qed.
End Stable.

Lemma ComputeDeadCaptured_idempotent_witness :
  isBlackWhite (DEAD_COLOR (ConstBoard := Hex.board 3 2)) = true
  ∧ ∃ brd' inf' count,
      ComputeDeadCaptured (H := Hex.board 3 2) (H1 := Hex.no_patterns)
        HexEngine.position Inf.Empty ALL_COLORS = Some (brd', inf', count)
      ∧ FindDead (H := Hex.board 3 2) (H1 := Hex.no_patterns) brd'
          (getEmpty (H := Hex.board 3 2) brd') = ∅
      ∧ (∀ c, isBlackWhite c = true →
              HexColorSetUtil.InSet c ALL_COLORS = true →
              FindCaptured (H1 := Hex.no_patterns) brd' c
                (getEmpty (H := Hex.board 3 2) brd') = ∅)
      ∧ ComputeDeadCaptured (H := Hex.board 3 2) (H1 := Hex.no_patterns)
          brd' inf' ALL_COLORS = Some (brd', inf', 0).
Proof.
  split; [reflexivity|].
  apply (ComputeDeadCaptured_idempotent (H := Hex.board 3 2)
           (H1 := Hex.no_patterns)). reflexivity.
Defined.

Lemma FillinPermanentlyInferior_spec_witness :
  let r := FillinPermanentlyInferior (H := Hex.board 3 2)
             (H1 := Hex.no_patterns) ICEngine_default HexEngine.position BLACK
             Inf.Empty ALL_COLORS in
  isBlackWhite BLACK = true
  ∧ r.2 + size (getEmpty (H := Hex.board 3 2) r.1.1)
    = size (getEmpty (H := Hex.board 3 2) HexEngine.position)
  ∧ Hash r.1.1 = Hash HexEngine.position.
Proof.
  intros r. split; [reflexivity|].
  apply (FillinPermanentlyInferior_spec (H := Hex.board 3 2)
           (H1 := Hex.no_patterns) ICEngine_default HexEngine.position BLACK
           Inf.Empty ALL_COLORS eq_refl).
Defined.

(** * The statistics of the solver *)

(** [DfsSolver::BranchStatistics], the counters of a branch of the search
    tree.  The counters are [unsigned]: sums wrap around at [2 ^ 32]. *)
Module BranchStatistics.
Record BranchStatistics := mkBranchStatistics {
  total_states : N;
  explored_states : N;
  expanded_states : N;
  minimal_explored : N;
  decompositions : N;
  decompositions_won : N;
  moves_to_consider : N;
  winning_expanded : N;
  branches_to_win : N;
  pruned : N;
  shrunk : N;
  cells_removed : N;
}.

(** The constructor [BranchStatistics()]. *)
Definition zero : BranchStatistics :=
  mkBranchStatistics 0 0 0 0 0 0 0 0 0 0 0 0.

Section Unsigned.
(** The number of bits of an [unsigned], which the compiler sets. *)
Variable UINT_WIDTH : N.

(** Addition of [unsigned] values. *)
Definition uadd (a b : N) : N := ((a + b) mod 2 ^ UINT_WIDTH)%N.

(** [operator+=]: the statistics [s] after [s += o]. *)
Definition add_assign (s o : BranchStatistics) : BranchStatistics :=
  mkBranchStatistics
    (uadd (total_states s) (total_states o))
    (uadd (explored_states s) (explored_states o))
    (uadd (expanded_states s) (expanded_states o))
    (uadd (minimal_explored s) (minimal_explored o))
    (uadd (decompositions s) (decompositions o))
    (uadd (decompositions_won s) (decompositions_won o))
    (uadd (moves_to_consider s) (moves_to_consider o))
    (uadd (winning_expanded s) (winning_expanded o))
    (uadd (branches_to_win s) (branches_to_win o))
    (uadd (pruned s) (pruned o))
    (uadd (shrunk s) (shrunk o))
    (uadd (cells_removed s) (cells_removed o)).

(** The counters are values of the type [unsigned]. *)
Definition in_range (s : BranchStatistics) : Prop :=
  Forall (λ x, (x < 2 ^ UINT_WIDTH)%N)
    [total_states s; explored_states s; expanded_states s; minimal_explored s;
     decompositions s; decompositions_won s; moves_to_consider s;
     winning_expanded s; branches_to_win s; pruned s; shrunk s;
     cells_removed s].
End Unsigned.
End BranchStatistics.

Module BranchStatisticsFacts.
Import BranchStatistics.

Section UnsignedFacts.
Variable UINT_WIDTH : N.

Lemma uadd_comm a b : uadd UINT_WIDTH a b = uadd UINT_WIDTH b a.
Proof. unfold uadd. by rewrite N.add_comm. Qed.

Lemma uadd_assoc a b c :
  uadd UINT_WIDTH (uadd UINT_WIDTH a b) c
  = uadd UINT_WIDTH a (uadd UINT_WIDTH b c).
Proof.
  unfold uadd.
  rewrite N.Div0.add_mod_idemp_l, N.Div0.add_mod_idemp_r.
  by rewrite N.add_assoc.
Qed.

Lemma uadd_0_r a : (a < 2 ^ UINT_WIDTH)%N → uadd UINT_WIDTH a 0 = a.
Proof. intros Ha. unfold uadd. rewrite N.add_0_r. by apply N.mod_small. Qed.

Lemma uadd_lt a b : (uadd UINT_WIDTH a b < 2 ^ UINT_WIDTH)%N.
Proof.
  unfold uadd. apply N.mod_lt. by apply N.pow_nonzero.
Qed.

(** X16: with [operator+=] the statistics of branches add up whatever the
    order and the grouping: it is commutative and associative, the
    counters wrapping around as [unsigned] does, of whatever width; the
    statistics that the constructor makes are neutral for it; and its
    result is made of [unsigned] values again. *)
Theorem add_assign_monoid (a b c : BranchStatistics) :
  in_range UINT_WIDTH a →
  add_assign UINT_WIDTH a zero = a
  ∧ add_assign UINT_WIDTH zero a = a
  ∧ add_assign UINT_WIDTH a b = add_assign UINT_WIDTH b a
  ∧ add_assign UINT_WIDTH (add_assign UINT_WIDTH a b) c
    = add_assign UINT_WIDTH a (add_assign UINT_WIDTH b c)
  ∧ in_range UINT_WIDTH (add_assign UINT_WIDTH a b).
Proof.
  intros Ha. unfold in_range in Ha.
  repeat match goal with
  | H : Forall _ (_ :: _) |- _ => apply Forall_cons in H as [? H]
  end.
  assert (add_assign UINT_WIDTH a zero = a) as Hr.
  { destruct a. unfold add_assign. cbn in *. by rewrite !uadd_0_r. }
  assert (∀ x y, add_assign UINT_WIDTH x y = add_assign UINT_WIDTH y x)
    as Hcomm.
  { intros x y. unfold add_assign. f_equal; apply uadd_comm. }
  split; [done|]. split; [by rewrite Hcomm|]. split; [done|]. split.
  - unfold add_assign. cbn. f_equal; apply uadd_assoc.
  - unfold in_range, add_assign. cbn. repeat constructor; apply uadd_lt.
Qed.
End UnsignedFacts.

(** Statistics with counters of 32 bits, the first one being the largest
    value. *)
Definition sample : BranchStatistics :=
  mkBranchStatistics 4294967295 7 5 3 1 1 40 2 6 9 2 11.

Lemma add_assign_monoid_witness :
  in_range 32 sample
  ∧ add_assign 32 sample zero = sample
  ∧ add_assign 32 zero sample = sample
  ∧ add_assign 32 sample sample = add_assign 32 sample sample
  ∧ add_assign 32 (add_assign 32 sample sample) sample
    = add_assign 32 sample (add_assign 32 sample sample)
  ∧ in_range 32 (add_assign 32 sample sample).
Proof.
  assert (in_range 32 sample) as Hs by (repeat constructor).
  split; [exact Hs|]. exact (add_assign_monoid 32 sample sample sample Hs).
Defined.

(** One more state wraps the first counter of [sample] around to zero. *)
Example add_assign_wraps :
  total_states
    (add_assign 32 sample (mkBranchStatistics 1 0 0 0 0 0 0 0 0 0 0 0))
  = 0%N.
Proof. reflexivity. Qed.
End BranchStatisticsFacts.

(** * The prior knowledge of the Monte-Carlo player *)

(** [MoHexPriorKnowledge::ProcessPosition]: the moves of a node are pruned
    by the pattern at each move, and the moves that are left receive a
    prior probability from the weights of their patterns. *)
Module MoHexPriorKnowledge.
Section ProcessPosition.
(** The values of type [double], with their sum, quotient and comparison
    with zero, and the values of the search's statistics, with the
    conversion [(float)] and the constants [0.5f] and [8]: the arithmetic
    is taken as given. *)
Variable double : Type.
Variable dzero : double.
Variables dadd ddiv : double → double → double.
Variable is_zero : double → bool.
Variable SgUctValue : Type.
Variable to_float : double → SgUctValue.
Variables half eight : SgUctValue.

(** The size of the array [MoveGamma]. *)
Variable BITSETSIZE : Z.

(** [m_state.Search().ProgressiveBiasConstant() == 0.0f]. *)
Variable ProgressiveBiasConstant_is_zero : bool.

(** [patterns.GetGammaFromBoard(board, 12, move, color, &type)]: the weight
    and the type of the pattern at a move, on the board and for the colour
    of the state, which [ProcessPosition] does not change. *)
Variable GetGammaFromBoard : Z → double * Z.

(** [SgUctMoveInfo], declared by the search library: a move with its
    statistics. *)
Record SgUctMoveInfo := mkSgUctMoveInfo {
  m_move : Z;
  m_value : SgUctValue;
  m_count : SgUctValue;
  m_raveValue : SgUctValue;
  m_raveCount : SgUctValue;
  m_prior : SgUctValue;
}.

Definition gamma_of (move : Z) : double := (GetGammaFromBoard move).1.
Definition type_of (move : Z) : Z := (GetGammaFromBoard move).2.

(** [std::swap(moves[i], moves.back()); moves.pop_back()]. *)
Definition swap_pop (i : nat) (moves : list SgUctMoveInfo)
  : list SgUctMoveInfo :=
  match last moves with
  | Some back => take (length moves - 1) (<[i := back]> moves)
  | None => moves
  end.

(** The first loop, from index [i]: a move with a pattern of a type other
    than zero is pruned, unless it is the only move left; the weight of a
    move that stays is stored in [MoveGamma] and added to [TotalGamma].
    [None] stands for an index outside of the array [MoveGamma], or for a
    run that does not end within [fuel] rounds. *)
Fixpoint prune (fuel i : nat) (moves : list SgUctMoveInfo)
    (MoveGamma : gmap Z double) (TotalGamma : double)
  : option (list SgUctMoveInfo * gmap Z double * double) :=
  match fuel with
  | 0 => None
  | S fuel =>
    match moves !! i with
    | None => Some (moves, MoveGamma, TotalGamma)
    | Some m =>
      let gamma := gamma_of (m_move m) in
      if negb (type_of (m_move m) =? 0)%Z && bool_decide (1 < length moves)
      then prune fuel i (swap_pop i moves) MoveGamma TotalGamma
      else if bool_decide (0 ≤ m_move m < BITSETSIZE)%Z
      then prune fuel (S i) moves (<[m_move m := gamma]> MoveGamma)
                 (dadd TotalGamma gamma)
      else None
    end
  end.

(** The body of the second loop. *)
Definition set_prior (MoveGamma : gmap Z double) (TotalGamma : double)
    (m : SgUctMoveInfo) : option SgUctMoveInfo :=
  gamma ← MoveGamma !! m_move m;
  let prob := ddiv gamma TotalGamma in
  Some (mkSgUctMoveInfo (m_move m) (m_value m) (m_count m) half eight
                        (to_float prob)).

(** [ProcessPosition]: the vector [moves] after the call. *)
Definition ProcessPosition (moves : list SgUctMoveInfo)
  : option (list SgUctMoveInfo) :=
  if ProgressiveBiasConstant_is_zero then Some moves
  else
    '(moves, MoveGamma, TotalGamma) ← prune (S (length moves)) 0 moves ∅ dzero;
    if is_zero TotalGamma then Some moves
    else mapM (set_prior MoveGamma TotalGamma) moves.

(** A move whose pattern does not prune it. *)
Definition good (m : SgUctMoveInfo) : Prop := type_of (m_move m) = 0%Z.

#[global] Instance good_dec m : Decision (good m).
Proof. unfold good. apply _. Defined.

(** A move whose index lies within the array [MoveGamma]. *)
Definition in_array (m : SgUctMoveInfo) : Prop :=
  (0 ≤ m_move m < BITSETSIZE)%Z.

(** The sum of the weights of moves, in their order. *)
Definition total (moves : list SgUctMoveInfo) (from : double) : double :=
  foldl (λ t m, dadd t (gamma_of (m_move m))) from moves.

(** The moves that the first loop keeps of the moves [rest] that it has
    not yet looked at, having kept [i] moves before: the good ones, in some
    order; or one move, if no move was kept before and none is good. *)
Definition survivors (i : nat) (rest kept : list SgUctMoveInfo) : Prop :=
  if decide (i = 0 ∧ Forall (λ m, ¬ good m) rest ∧ rest ≠ [])
  then ∃ m, m ∈ rest ∧ kept = [m]
  else kept ≡ₚ filter good rest.

Lemma swap_pop_spec i moves m :
  moves !! i = Some m →
  take i (swap_pop i moves) = take i moves
  ∧ drop i (swap_pop i moves) ≡ₚ drop (S i) moves
  ∧ S (length (swap_pop i moves)) = length moves
  ∧ ∀ x, x ∈ swap_pop i moves → x ∈ moves.
Proof.
  intros Hm. apply list_elem_of_split_length in Hm as (pre & rest & -> & ->).
  assert (∀ l, drop (S (length pre)) (pre ++ m :: l) = l) as Hdrop.
  { intros l. rewrite (cons_middle m pre l), app_assoc.
    apply drop_app_length'. rewrite length_app. cbn. lia. }
  destruct rest as [|x rest _] using rev_ind.
  - assert (swap_pop (length pre) (pre ++ [m]) = pre) as ->.
    { unfold swap_pop. rewrite last_snoc.
      rewrite list_insert_id
        by (rewrite lookup_app_r by lia; by rewrite Nat.sub_diag).
      rewrite length_app. cbn [length].
      replace (length pre + 1 - 1) with (length pre) by lia.
      apply take_app_length. }
    rewrite take_app_length, Hdrop, take_ge, drop_ge by lia.
    split; [done|]. split; [done|]. rewrite length_app. cbn.
    split; [lia|]. intros y Hy. apply elem_of_app. by left.
  - assert (swap_pop (length pre) (pre ++ m :: rest ++ [x]) = pre ++ x :: rest)
      as ->.
    { unfold swap_pop.
      replace (pre ++ m :: rest ++ [x]) with ((pre ++ m :: rest) ++ [x])
        by by rewrite <- app_assoc.
      rewrite last_snoc. rewrite length_app. cbn [length].
      replace (length (pre ++ m :: rest) + 1 - 1)
        with (length (pre ++ m :: rest)) by lia.
      rewrite insert_app_l by (rewrite length_app; cbn; lia).
      rewrite take_app_length' by by rewrite length_insert.
      replace (length pre) with (length pre + 0) at 1 by lia.
      by rewrite insert_app_r. }
    rewrite !take_app_length, Hdrop, drop_app_length.
    split; [done|]. split; [apply Permutation_cons_append|].
    rewrite !length_app. cbn. rewrite length_app. cbn. split; [lia|].
    intros y Hy. rewrite !elem_of_app in Hy. rewrite !elem_of_app.
    rewrite elem_of_cons in Hy.
    rewrite !elem_of_cons, elem_of_app, elem_of_cons, elem_of_nil.
    destruct Hy as [?|[->|?]]; auto.
Qed.

Lemma prune_spec fuel i moves MoveGamma TotalGamma :
  length moves - i < fuel →
  Forall in_array moves →
  ∃ kept MoveGamma',
    prune fuel i moves MoveGamma TotalGamma
    = Some (take i moves ++ kept, MoveGamma', total kept TotalGamma)
    ∧ survivors i (drop i moves) kept
    ∧ ∀ z, MoveGamma' !! z
           = if decide (z ∈ m_move <$> kept) then Some (gamma_of z)
             else MoveGamma !! z.
Proof.
  revert i moves MoveGamma TotalGamma.
  induction fuel as [|fuel IH]; intros i moves MG T Hfuel Hin; [lia|].
  cbn [prune].
  destruct (moves !! i) as [m|] eqn:Hm.
  2:{ apply lookup_ge_None in Hm.
      exists [], MG. rewrite take_ge, drop_ge, app_nil_r by lia.
      split; [done|]. split; [|done].
      unfold survivors. rewrite decide_False by (by intros (_ & _ & ?)). done. }
  pose proof (lookup_lt_Some _ _ _ Hm) as Hlt.
  assert (drop i moves = m :: drop (S i) moves) as Hdrop
    by (by apply drop_S).
  destruct (negb (type_of (m_move m) =? 0)%Z && bool_decide (1 < length moves))
    eqn:Hprune.
  - apply andb_prop in Hprune as [Hbad%negb_true_iff%Z.eqb_neq
                                  Hlen%bool_decide_eq_true].
    destruct (swap_pop_spec i moves m Hm) as (Htake & Hperm & Hlen' & Helem).
    destruct (IH i (swap_pop i moves) MG T) as (kept & MG' & Heq & Hsurv & Hmg).
    { lia. }
    { apply Forall_forall. intros x Hx%Helem.
      by apply (proj1 (Forall_forall _ _) Hin). }
    exists kept, MG'. rewrite Heq, Htake. split; [done|]. split; [|done].
    rewrite Hdrop. unfold survivors in *.
    set (rest' := drop (S i) moves) in *.
    set (rest_new := drop i (swap_pop i moves)) in *.
    destruct (decide (i = 0 ∧ Forall (λ m0, ¬ good m0) rest_new ∧ rest_new ≠ []))
      as [Hnew|Hnew].
    + destruct Hnew as (-> & Hallbad & Hne).
      destruct Hsurv as (m' & Hm' & ->).
      rewrite decide_True.
      * exists m'. split; [|done]. right. by rewrite <- Hperm.
      * split; [done|]. split; [|done]. constructor; [done|].
        by rewrite <- Hperm.
    + destruct (decide (i = 0 ∧ Forall (λ m0, ¬ good m0) (m :: rest')
                        ∧ m :: rest' ≠ [])) as [Hold|Hold].
      * destruct Hold as (-> & Hallbad & _).
        apply Forall_cons in Hallbad as [_ Hallbad].
        destruct Hnew. split; [done|]. split; [by rewrite Hperm|].
        intros Hnil. rewrite Hnil in Hperm.
        apply Permutation_nil_l in Hperm.
        assert (length moves = 1); [|lia].
        rewrite <- (take_drop 0 moves). rewrite Hdrop.
        fold rest'. rewrite <- Hperm. done.
      * rewrite filter_cons_False by done. by rewrite <- Hperm.
  - assert (in_array m) as Hmin.
    { apply (proj1 (Forall_forall _ _) Hin). by eapply list_elem_of_lookup_2. }
    rewrite bool_decide_true by done.
    destruct (IH (S i) moves (<[m_move m := gamma_of (m_move m)]> MG)
                (dadd T (gamma_of (m_move m)))) as (kept & MG' & Heq & Hsurv & Hmg);
      [lia|done|].
    exists (m :: kept), MG'. rewrite Heq.
    rewrite (take_S_r _ _ _ Hm), <- app_assoc. split; [done|].
    unfold survivors in Hsurv. rewrite decide_False in Hsurv by (intros [? _]; lia).
    split.
    + rewrite Hdrop. unfold survivors.
      destruct (decide (i = 0 ∧ Forall (λ m0, ¬ good m0) (m :: drop (S i) moves)
                        ∧ m :: drop (S i) moves ≠ [])) as [Hold|Hold].
      * destruct Hold as (-> & Hallbad & _).
        apply Forall_cons in Hallbad as [Hbad Hallbad].
        exists m. split; [left|]. f_equal.
        apply Permutation_nil_r. rewrite Hsurv.
        clear -Hallbad. induction Hallbad as [|x l Hx _ IHl]; [done|].
        by rewrite filter_cons_False.
      * destruct (decide (good m)) as [Hg|Hb].
        { rewrite filter_cons_True by done. by constructor. }
        destruct Hold.
        apply andb_false_iff in Hprune as [Hp|Hp].
        { apply negb_false_iff, Z.eqb_eq in Hp. by destruct Hb. }
        apply bool_decide_eq_false in Hp.
        assert (length moves = 1) as Hone by lia.
        assert (i = 0) as -> by lia.
        split; [done|]. split; [|done].
        constructor; [done|].
        destruct moves as [|m0 [|m1 moves]]; cbn in *; try lia. constructor.
    + intros z. rewrite fmap_cons.
      destruct (decide (z = m_move m)) as [->|Hne].
      * rewrite (decide_True (P := m_move m ∈ m_move m :: (m_move <$> kept)))
          by left.
        rewrite Hmg. destruct (decide (m_move m ∈ m_move <$> kept)); [done|].
        by rewrite lookup_insert_eq.
      * rewrite Hmg. rewrite lookup_insert_ne by done.
        destruct (decide (z ∈ m_move <$> kept)) as [Hk|Hk].
        { by rewrite decide_True by by right. }
        rewrite decide_False; [done|].
        intros Hz. apply elem_of_cons in Hz as [Hz|Hz]; done.
Qed.

(** The move [m] with the prior and the rave statistics that the second
    loop gives it, [TotalGamma] being the sum of the weights. *)
Definition with_prior (TotalGamma : double) (m : SgUctMoveInfo) : SgUctMoveInfo :=
  mkSgUctMoveInfo (m_move m) (m_value m) (m_count m) half eight
    (to_float (ddiv (gamma_of (m_move m)) TotalGamma)).

Lemma mapM_set_prior MoveGamma TotalGamma kept :
  (∀ m, m ∈ kept → MoveGamma !! m_move m = Some (gamma_of (m_move m))) →
  mapM (set_prior MoveGamma TotalGamma) kept
  = Some (with_prior TotalGamma <$> kept).
Proof.
  intros Hall. apply mapM_Some_2.
  induction kept as [|m kept IH]; cbn; constructor.
  - unfold set_prior. rewrite Hall by left. done.
  - apply IH. intros m' Hm'. apply Hall. by right.
Qed.

Lemma survivors_elem i rest kept m :
  survivors i rest kept → m ∈ kept → m ∈ rest.
Proof.
  unfold survivors. case_decide.
  - intros (m' & Hm' & ->) ->%list_elem_of_singleton. done.
  - intros Hp Hm. rewrite Hp in Hm.
    by apply list_elem_of_filter in Hm as [_ ?].
Qed.

Lemma ProcessPosition_spec moves :
  ProgressiveBiasConstant_is_zero = false →
  Forall in_array moves →
  ∃ kept,
    survivors 0 moves kept
    ∧ ProcessPosition moves
      = Some (if is_zero (total kept dzero) then kept
              else with_prior (total kept dzero) <$> kept).
Proof.
  intros Hbias Hin. unfold ProcessPosition. rewrite Hbias.
  destruct (prune_spec (S (length moves)) 0 moves ∅ dzero ltac:(lia) Hin)
    as (kept & MG' & Heq & Hsurv & Hmg).
  rewrite Heq. cbn [mbind option_bind take app]. rewrite drop_0 in Hsurv.
  exists kept. split; [done|].
  destruct (is_zero (total kept dzero)); [done|].
  apply mapM_set_prior. intros m Hm. rewrite Hmg.
  rewrite decide_True; [done|]. apply list_elem_of_fmap. by exists m.
Qed.

(** X17: [ProcessPosition] prunes the moves whose pattern has a type other
    than zero, but does not let the set of moves go empty.  With a
    progressive bias constant other than zero and the moves within the
    bounds of the array, it returns; if some move has a pattern of type
    zero, the moves it leaves are the moves with such a pattern, in some
    order; if none has, it leaves exactly one of the moves. *)
Theorem ProcessPosition_prunes (moves : list SgUctMoveInfo) :
  ProgressiveBiasConstant_is_zero = false →
  Forall in_array moves →
  ∃ r,
    ProcessPosition moves = Some r
    ∧ (if decide (Forall (λ m, ¬ good m) moves ∧ moves ≠ [])
       then ∃ m, m ∈ moves ∧ m_move <$> r = [m_move m]
       else m_move <$> r ≡ₚ m_move <$> filter good moves)
    ∧ (moves ≠ [] → r ≠ [])
    ∧ length r ≤ length moves.
Proof.
  intros Hbias Hin.
  destruct (ProcessPosition_spec moves Hbias Hin) as (kept & Hsurv & Heq).
  eexists. split; [exact Heq|].
  assert (∀ T, m_move <$> (if is_zero T then kept else with_prior T <$> kept)
               = m_move <$> kept) as Hmoves.
  { intros T. destruct (is_zero T); [done|].
    rewrite <- list_fmap_compose. done. }
  assert (∀ T, length (if is_zero T then kept else with_prior T <$> kept)
               = length kept) as Hlen.
  { intros T. destruct (is_zero T); [done|]. by rewrite length_fmap. }
  unfold survivors in Hsurv.
  split; [|split].
  - rewrite Hmoves.
    destruct (decide (Forall (λ m, ¬ good m) moves ∧ moves ≠ [])) as [Hbad|Hsome].
    + rewrite decide_True in Hsurv by by destruct Hbad.
      destruct Hsurv as (m & Hm & ->). by exists m.
    + rewrite decide_False in Hsurv by (intros (_ & ? & ?); by destruct Hsome).
      by rewrite Hsurv.
  - intros Hne Hnil. apply (f_equal length) in Hnil. rewrite Hlen in Hnil.
    destruct (decide (0 = 0 ∧ Forall (λ m, ¬ good m) moves ∧ moves ≠ []))
      as [Hbad|Hsome].
    + destruct Hsurv as (m & _ & ->). done.
    + destruct kept; [|done].
      apply Permutation_nil_l in Hsurv.
      destruct Hsome. split; [done|]. split; [|done].
      clear -Hsurv. induction moves as [|m moves IH]; [done|].
      destruct (decide (good m)).
      * by rewrite filter_cons_True in Hsurv.
      * rewrite filter_cons_False in Hsurv by done. constructor; auto.
  - rewrite Hlen.
    destruct (decide (0 = 0 ∧ Forall (λ m, ¬ good m) moves ∧ moves ≠ []))
      as [Hbad|Hsome].
    + destruct Hsurv as (m & _ & ->). destruct Hbad as (_ & _ & Hne).
      destruct moves; [done|]. cbn. lia.
    + rewrite Hsurv. apply length_filter.
Qed.

(** X18: the moves that [ProcessPosition] leaves are moves it was given,
    and, the sum of their weights not being zero, each of them has for
    prior its weight divided by that sum, converted to [float], and the
    rave value 0.5 and the rave count 8, its move, value and count being
    those it had; the sum is taken in the order of the moves left.  If the
    sum is zero, the moves left are as they were given. *)
Theorem ProcessPosition_priors (moves : list SgUctMoveInfo) :
  ProgressiveBiasConstant_is_zero = false →
  Forall in_array moves →
  ∃ kept,
    Forall (λ m, m ∈ moves) kept
    ∧ ProcessPosition moves
      = Some (if is_zero (total kept dzero) then kept
              else with_prior (total kept dzero) <$> kept).
Proof.
  intros Hbias Hin.
  destruct (ProcessPosition_spec moves Hbias Hin) as (kept & Hsurv & Heq).
  exists kept. split; [|done].
  apply Forall_forall. intros m Hm. by eapply survivors_elem.
Qed.
End ProcessPosition.

Arguments mkSgUctMoveInfo {SgUctValue}.
Arguments m_move {SgUctValue}.
Arguments m_value {SgUctValue}.
Arguments m_count {SgUctValue}.
Arguments m_raveValue {SgUctValue}.
Arguments m_raveCount {SgUctValue}.
Arguments m_prior {SgUctValue}.
Arguments in_array {SgUctValue}.
Arguments good double {SgUctValue}.
Arguments total double dadd {SgUctValue}.
Arguments with_prior double ddiv {SgUctValue}.
End MoHexPriorKnowledge.

(** A node with four moves, the weight of a move being its index and the
    pattern at the moves of odd index being of a type that prunes.  Weights
    are integers and statistics are in thousandths. *)
Module MoHexSample.
Import MoHexPriorKnowledge.

Definition GetGammaFromBoard (move : Z) : Z * Z :=
  (move, if Z.even move then 0 else 1)%Z.

Definition move (z : Z) : SgUctMoveInfo Z :=
  mkSgUctMoveInfo z 0%Z 0%Z 0%Z 0%Z 0%Z.

Definition node : list (SgUctMoveInfo Z) := [move 3; move 4; move 5; move 6].

Definition quotient (a b : Z) : Z := (1000 * a / b)%Z.

Definition process
  : list (SgUctMoveInfo Z) → option (list (SgUctMoveInfo Z)) :=
  MoHexPriorKnowledge.ProcessPosition Z 0%Z Z.add quotient (Z.eqb 0) Z
    (λ x, x) 500%Z 8000%Z 128%Z false GetGammaFromBoard.

Definition unpruned : SgUctMoveInfo Z → Prop :=
  MoHexPriorKnowledge.good Z GetGammaFromBoard.

Definition weight : list (SgUctMoveInfo Z) → Z :=
  λ kept, MoHexPriorKnowledge.total Z Z.add GetGammaFromBoard kept 0%Z.

Definition normalised : Z → SgUctMoveInfo Z → SgUctMoveInfo Z :=
  MoHexPriorKnowledge.with_prior Z quotient (λ x, x) 500%Z 8000%Z
    GetGammaFromBoard.
End MoHexSample.

Lemma ProcessPosition_prunes_witness :
  false = false
  ∧ Forall (MoHexPriorKnowledge.in_array 128%Z) MoHexSample.node
  ∧ ∃ r,
      MoHexSample.process MoHexSample.node = Some r
      ∧ (if decide (Forall (λ m, ¬ MoHexSample.unpruned m) MoHexSample.node
                    ∧ MoHexSample.node ≠ [])
         then ∃ m, m ∈ MoHexSample.node
                   ∧ MoHexPriorKnowledge.m_move <$> r
                     = [MoHexPriorKnowledge.m_move m]
         else MoHexPriorKnowledge.m_move <$> r
              ≡ₚ MoHexPriorKnowledge.m_move
                   <$> filter MoHexSample.unpruned MoHexSample.node)
      ∧ (MoHexSample.node ≠ [] → r ≠ [])
      ∧ length r ≤ length MoHexSample.node.
Proof.
  assert (Forall (MoHexPriorKnowledge.in_array 128%Z) MoHexSample.node) as Hin
    by (repeat (constructor; [vm_compute; split; congruence|]); constructor).
  split; [reflexivity|]. split; [exact Hin|].
  exact (MoHexPriorKnowledge.ProcessPosition_prunes Z 0%Z Z.add
           MoHexSample.quotient (Z.eqb 0) Z (λ x, x) 500%Z 8000%Z 128%Z
           false MoHexSample.GetGammaFromBoard MoHexSample.node eq_refl Hin).
Defined.

Lemma ProcessPosition_priors_witness :
  false = false
  ∧ Forall (MoHexPriorKnowledge.in_array 128%Z) MoHexSample.node
  ∧ ∃ kept,
      Forall (λ m, m ∈ MoHexSample.node) kept
      ∧ MoHexSample.process MoHexSample.node
        = Some (if (0 =? MoHexSample.weight kept)%Z then kept
                else MoHexSample.normalised (MoHexSample.weight kept) <$> kept).
Proof.
  assert (Forall (MoHexPriorKnowledge.in_array 128%Z) MoHexSample.node) as Hin
    by (repeat (constructor; [vm_compute; split; congruence|]); constructor).
  split; [reflexivity|]. split; [exact Hin|].
  exact (MoHexPriorKnowledge.ProcessPosition_priors Z 0%Z Z.add
           MoHexSample.quotient (Z.eqb 0) Z (λ x, x) 500%Z 8000%Z 128%Z
           false MoHexSample.GetGammaFromBoard MoHexSample.node eq_refl Hin).
Defined.

(** The moves at 3 and 5 are pruned; the moves at 6 and 4 stay, in this
    order, with the priors 6/10 and 4/10. *)
Example ProcessPosition_sample :
  MoHexSample.process MoHexSample.node
  = Some [MoHexPriorKnowledge.mkSgUctMoveInfo 6%Z 0%Z 0%Z 500%Z 8000%Z 600%Z;
          MoHexPriorKnowledge.mkSgUctMoveInfo 4%Z 0%Z 0%Z 500%Z 8000%Z 400%Z].
Proof. vm_compute. reflexivity. Qed.
